(** * The composition engine of claude-code-kit

    A shallow embedding of the template engine, the plugin manager, the
    merger, the plugin validator and the installer of the command-line
    tool, with the properties of its specification and further
    properties of the same code. *)

From Stdlib Require Import Ascii ZArith Lia.
From Stdlib Require String.
From Stdlib Require Import Sorted.
From stdpp Require Import gmap strings list fin_maps relations.
#[local] Set Warnings "-clear-no-such-hyp,-register-all".

(** * Template engine (cli/src/core/template-engine.ts) *)

(** A JavaScript string is held as the units of its UTF-8 encoding, as
    the string literals of Rocq are.  The variable pattern only tests for
    ASCII characters, which are single units and occur nowhere else in the
    encoding, so matching on these units is matching on the string.  The
    scan works on [list ascii]; [string] is used at the interface and for
    map keys. *)
Abbreviation text := (list ascii).

(** The context maps a variable name to [String(value)], the only way
    [replaceVariables] looks at a value; a key whose value is [undefined]
    counts as absent, as in the source. *)
Abbreviation TemplateContext := (gmap string string).

Definition isUpper (c : ascii) : bool :=
  let n := nat_of_ascii c in (65 <=? n)%nat && (n <=? 90)%nat.

Definition isDigit (c : ascii) : bool :=
  let n := nat_of_ascii c in (48 <=? n)%nat && (n <=? 57)%nat.

(** [[A-Z_]] *)
Definition isNameStart (c : ascii) : bool := isUpper c || Ascii.eqb c "_"%char.

(** [[A-Z0-9_]] *)
Definition isNameChar (c : ascii) : bool := isNameStart c || isDigit c.

(** The greedy run of name characters. *)
Fixpoint spanName (s : text) : text * text :=
  match s with
  | c :: s' =>
      if isNameChar c then let '(n, r) := spanName s' in (c :: n, r)
      else ([], s)
  | [] => ([], [])
  end.

(** VARIABLE_PATTERN tried at the head of [s]: two opening braces, a name
    (one unit of A-Z or _, then a greedy run of A-Z, 0-9 or _), two closing
    braces.  The result is the captured name and the text after the match.
    Backtracking the greedy run cannot help, a shorter run is followed by a
    name character. *)
Definition matchVariable (s : text) : option (text * text) :=
  match s with
  | c1 :: c2 :: c :: s1 =>
      if Ascii.eqb c1 "{" && Ascii.eqb c2 "{" && isNameStart c then
        match spanName s1 with
        | (n, d1 :: d2 :: rest) =>
            if Ascii.eqb d1 "}" && Ascii.eqb d2 "}" then Some (c :: n, rest)
            else None
        | _ => None
        end
      else None
  | _ => None
  end%char.

(** One step of the global scan: either the unit at the current index is
    passed over, or a match is reported and the scan resumes after it. *)
Inductive segment :=
  | Unit (c : ascii)
  | Match (varName : text).

(** The global ([/g]) iteration shared by [String.prototype.replace] and
    [String.prototype.matchAll]: matches are found left to right and do not
    overlap.  [skip] is the number of units left before [lastIndex], where
    the iteration starts: [replace] sets [lastIndex] to 0, [matchAll]
    works on a copy of the pattern that starts where the pattern stands. *)
Fixpoint scanFrom (skip : nat) (s : text) : list segment :=
  match s with
  | [] => []
  | c :: s' =>
      match skip with
      | S k => scanFrom k s'
      | O =>
          match matchVariable s with
          | Some (n, _) => Match n :: scanFrom (length n + 3) s'
          | None => Unit c :: scanFrom 0 s'
          end
      end
  end.

Definition scan (s : text) : list segment := scanFrom 0 s.

(** The text of a match, [match] in the replacer callback. *)
Definition placeholder (n : text) : text :=
  ("{" :: "{" :: n ++ ["}"; "}"])%char.

(** The replacer callback of [replaceVariables]. *)
Definition replacer (context : TemplateContext) (varName : text) : text :=
  match context !! String.string_of_list_ascii varName with
  | None => placeholder varName
  | Some value => String.list_ascii_of_string value
  end.

Definition replaceSegment (context : TemplateContext) (g : segment) : text :=
  match g with
  | Unit c => [c]
  | Match n => replacer context n
  end.

Definition replaceText (s : text) (context : TemplateContext) : text :=
  flat_map (replaceSegment context) (scan s).

(** TemplateEngine.replaceVariables *)
Definition replaceVariables (s : string) (context : TemplateContext) : string :=
  String.string_of_list_ascii (replaceText (String.list_ascii_of_string s) context).

(** [Array.from(new Set(xs))]: a [Set] keeps the first occurrence of every
    value, in insertion order; [same] is the equality the set uses. *)
Fixpoint arrayFromSet {A} (same : A -> A -> bool) (xs : list A) : list A :=
  match xs with
  | [] => []
  | x :: xs' => x :: filter (fun y => negb (same x y)) (arrayFromSet same xs')
  end.

Definition matchedNames (gs : list segment) : list string :=
  omap (fun g => match g with
                 | Match n => Some (String.string_of_list_ascii n)
                 | Unit _ => None
                 end) gs.

(** TemplateEngine.extractVariables, on a pattern whose [lastIndex] is 0. *)
Definition extractVariables (s : string) : list string :=
  arrayFromSet String.eqb (matchedNames (scan (String.list_ascii_of_string s))).

(** TemplateEngine.validateContext, on a pattern whose [lastIndex] is 0. *)
Definition validateContext (s : string) (context : TemplateContext)
  : bool * list string :=
  let required := extractVariables s in
  let missing := filter (fun v => context !! v = None) required in
  (bool_decide (length missing = 0%nat), missing).

(** TemplateEngine.hasVariables, on a pattern whose [lastIndex] is 0. *)
Definition hasVariables (s : string) : bool :=
  bool_decide (matchedNames (scan (String.list_ascii_of_string s)) <> []).

(** A well-formed variable name. *)
Definition isName (n : text) : bool :=
  match n with
  | c :: n' => isNameStart c && forallb isNameChar n'
  | [] => false
  end.

(** A text [f] stops every match attempt that starts before it: its first
    unit can be neither in a name nor a closing brace, and no placeholder
    can begin on the last unit before [f]. *)
Definition stops (f : text) : bool :=
  match f with
  | c1 :: f' =>
      negb (isNameChar c1) && negb (Ascii.eqb c1 "}") &&
      negb (Ascii.eqb c1 "{" &&
            match f' with c2 :: _ => isNameStart c2 | [] => false end)
  | [] => true
  end%char.

(** Units that belong to no placeholder. *)
Definition inert (c : ascii) : bool :=
  negb (isNameChar c) && negb (Ascii.eqb c "{") && negb (Ascii.eqb c "}").

(** The context does not know the name of a match. *)
Definition segmentAbsent (context : TemplateContext) (g : segment) : Prop :=
  match g with
  | Match n => context !! String.string_of_list_ascii n = None
  | Unit _ => True
  end.

(** The context only holds values that cannot take part in a placeholder:
    not empty, and made of units that are neither braces nor name
    characters. *)
Definition inertValue (v : string) : bool :=
  match String.list_ascii_of_string v with
  | [] => false
  | w => forallb inert w
  end.

Definition inertContext (context : TemplateContext) : Prop :=
  map_Forall (fun _ v => inertValue v = true) context.

(** A text without braces. *)
Definition noBrace (w : text) : bool :=
  forallb (fun c => negb (Ascii.eqb c "{") && negb (Ascii.eqb c "}")) w.

(** [w] between double braces. *)
Definition braced (w : text) : text := placeholder w.

(** ** The state of the shared pattern *)

(** VARIABLE_PATTERN is one object with the global flag: it carries its
    [lastIndex] from one call to the next.  [String.prototype.replace]
    starts at index 0 and leaves [lastIndex] at 0, so [replaceVariables]
    does not depend on the state.  [RegExp.prototype.test] starts at
    [lastIndex] and moves it, and [String.prototype.matchAll] works on a
    copy of the pattern that starts at the [lastIndex] of the pattern, so
    [hasVariables], [extractVariables] and [validateContext] do.  The
    functions below take the [lastIndex] that the pattern has when they
    are called; [extractVariables], [validateContext] and [hasVariables]
    above are these functions on a pattern whose [lastIndex] is 0, where a
    fresh pattern, [replaceVariables] and a [hasVariables] that found
    nothing leave it. *)

(** [lastIndex] counts the UTF-16 code units of the string.  Of the units
    of the UTF-8 encoding, a continuation byte adds none, the first byte
    of a character of four bytes adds two, a surrogate pair, and any other
    first byte adds one. *)
Definition codeUnits (c : ascii) : nat :=
  let n := nat_of_ascii c in
  if (128 <=? n)%nat && (n <? 192)%nat then 0%nat
  else if (240 <=? n)%nat then 2%nat
  else 1%nat.

(** [s.length] *)
Definition jsLength (s : text) : nat :=
  fold_right (fun c n => (codeUnits c + n)%nat) 0%nat s.

(** The text from index [lastIndex] on. *)
Fixpoint dropUnits (lastIndex : nat) (s : text) : text :=
  match s with
  | [] => []
  | c :: s' =>
      match lastIndex with
      | O => s
      | S _ => dropUnits (lastIndex - codeUnits c) s'
      end
  end.

(** [pattern.exec(s)] with [skip] code units left before [lastIndex] and
    [index] code units already passed: the name of the first match found
    and the index after it. *)
Fixpoint execFrom (skip index : nat) (s : text) : option (text * nat) :=
  match s with
  | [] => None
  | c :: s' =>
      match skip with
      | S _ => execFrom (skip - codeUnits c) (index + codeUnits c) s'
      | O =>
          match matchVariable s with
          | Some (n, _) => Some (n, (index + (length n + 4))%nat)
          | None => execFrom 0 (index + codeUnits c) s'
          end
      end
  end.

(** TemplateEngine.hasVariables: the result of [test] and the [lastIndex]
    it leaves, the end of the match or 0. *)
Definition hasVariablesAt (lastIndex : nat) (s : string) : bool * nat :=
  match execFrom lastIndex 0 (String.list_ascii_of_string s) with
  | Some (_, endIndex) => (true, endIndex)
  | None => (false, 0%nat)
  end.

(** TemplateEngine.extractVariables: [matchAll] iterates from the
    [lastIndex] of the pattern and leaves the pattern as it is. *)
Definition extractVariablesAt (lastIndex : nat) (s : string) : list string :=
  arrayFromSet String.eqb
    (matchedNames (scan (dropUnits lastIndex (String.list_ascii_of_string s)))).

(** TemplateEngine.validateContext *)
Definition validateContextAt (lastIndex : nat) (s : string)
    (context : TemplateContext) : bool * list string :=
  let required := extractVariablesAt lastIndex s in
  let missing := filter (fun v => context !! v = None) required in
  (bool_decide (length missing = 0%nat), missing).

(** * Plugin manager (cli/src/core/detector.ts, class PluginManager) *)

(** What can end a call other than a returned value. *)
Inductive error :=
  | InvalidManifest (message : string)
  | CircularDependency (plugin circular : string)
  | NoSuchFile (path : string).

(** The outcome of an [async] method: the promise resolves, rejects, or the
    recursion budget of the model ran out (shown below not to happen). *)
Inductive outcome (A : Type) :=
  | Return (a : A)
  | Throw (e : error)
  | OutOfFuel.
Arguments Return {A} a.
Arguments Throw {A} e.
Arguments OutOfFuel {A}.

#[global] Instance outcome_ret : MRet outcome := fun A a => Return a.
#[global] Instance outcome_bind : MBind outcome := fun A B k m =>
  match m with
  | Return a => k a
  | Throw e => Throw e
  | OutOfFuel => OutOfFuel
  end.

Record Dependencies := {
  plugins : option (list string);
  npm : option (list (string * string));
}.

Record Compatibility := {
  claudeCode : string;
  node : string;
}.

(** The fields of [PluginManifest] that the modelled code reads. *)
Record PluginManifest := {
  name : string;
  version : string;
  author : string;
  compatibility : Compatibility;
  dependencies : option Dependencies;
}.

(** [<pluginsDir>/<name>/plugin.json] as [loadManifest] sees it: a file that
    parses and validates, or one for which it throws. *)
Inductive ManifestFile :=
  | Valid (manifest : PluginManifest)
  | Invalid (message : string).

Abbreviation PluginsDir := (gmap string ManifestFile).

(** JavaScript truthiness of a [string | null]. *)
Definition truthy (s : option string) : bool :=
  match s with
  | Some c => negb (String.eqb c EmptyString)
  | None => false
  end.

Section PluginManager.
Variable pluginsDir : PluginsDir.

(** PluginManager.getPlugin *)
Definition getPlugin (pluginName : string) : outcome (option PluginManifest) :=
  match pluginsDir !! pluginName with
  | None => Return None
  | Some (Valid manifest) => Return (Some manifest)
  | Some (Invalid message) => Throw (InvalidManifest message)
  end.

(** PluginManager.getPluginDependencies *)
Definition getPluginDependencies (pluginName : string) : outcome (list string) :=
  plugin ← getPlugin pluginName;
  match plugin with
  | None => Return []
  | Some manifest =>
      match dependencies manifest with
      | None => Return []
      | Some d =>
          match plugins d with
          | None => Return []
          | Some plugins => Return plugins
          end
      end
  end.

(** PluginManager.checkCircularDependencies.  [visited] is the one set
    shared by the whole recursion: it is threaded through the calls and
    handed back with the result. *)
Fixpoint checkCircularDependencies (fuel : nat) (pluginName : string)
    (visited : gset string) : outcome (option string * gset string) :=
  match fuel with
  | O => OutOfFuel
  | S fuel' =>
      if decide (pluginName ∈ visited) then Return (Some pluginName, visited)
      else
        let visited := visited ∪ {[pluginName]} in
        deps ← getPluginDependencies pluginName;
        '(found, visited) ←
          (fix loop (deps : list string) (visited : gset string) :=
             match deps with
             | [] => Return (None, visited)
             | dep :: deps' =>
                 '(circular, visited) ←
                   checkCircularDependencies fuel' dep visited;
                 if truthy circular then Return (circular, visited)
                 else loop deps' visited
             end) deps visited;
        match found with
        | Some circular => Return (Some circular, visited)
        | None => Return (None, visited ∖ {[pluginName]})
        end
  end.

(** The [visit] closure of [getInstallationOrder]; the state is the pair
    of the captured [order] and [visited]. *)
Fixpoint visit (checkFuel fuel : nat) (pluginName : string)
    (st : list string * gset string) : outcome (list string * gset string) :=
  match fuel with
  | O => OutOfFuel
  | S fuel' =>
      let '(order, visited) := st in
      if decide (pluginName ∈ visited) then Return st
      else
        '(circular, _) ← checkCircularDependencies checkFuel pluginName ∅;
        if truthy circular then
          Throw (CircularDependency pluginName (default EmptyString circular))
        else
          let visited := visited ∪ {[pluginName]} in
          deps ← getPluginDependencies pluginName;
          '(order, visited) ←
            (fix loop (deps : list string) (st : list string * gset string) :=
               match deps with
               | [] => Return st
               | dep :: deps' =>
                   st' ← visit checkFuel fuel' dep st; loop deps' st'
               end) deps (order, visited);
          Return (order ++ [pluginName], visited)
  end.

(** The loop [for (const name of ...) await visit(name)], over the
    requested names and, inside [visit], over the dependencies. *)
Definition visitAll (checkFuel fuel : nat)
  : list string -> list string * gset string ->
    outcome (list string * gset string) :=
  fix loop (pluginNames : list string) (st : list string * gset string) :=
    match pluginNames with
    | [] => Return st
    | pluginName :: rest =>
        st' ← visit checkFuel fuel pluginName st; loop rest st'
    end.

(** Every call that goes one level deeper has added a plugin of the
    directory to the set it tests first, so the depth is bounded by the
    number of plugins. *)
Definition depthBound : nat := S (S (size pluginsDir)).

(** PluginManager.getInstallationOrder *)
Definition getInstallationOrder (pluginNames : list string)
  : outcome (list string) :=
  '(order, _) ← visitAll depthBound depthBound pluginNames ([], ∅);
  Return order.
End PluginManager.

(** A manifest that loads, with the given [dependencies.plugins]. *)
Definition manifestWith (pluginName : string) (plugins : option (list string))
  : ManifestFile :=
  Valid {| name := pluginName; version := "1.0.0";
           author := "Kit <kit@example.com>";
           compatibility := {| claudeCode := ">=1.0.0"; node := ">=18.0.0" |};
           dependencies :=
             (fun ps => {| plugins := Some ps; npm := None |})
               <$> plugins |}.

(** Plugin directories used as concrete inputs below. *)
Definition dirChain : PluginsDir :=
  {[ "a" := manifestWith "a" None; "b" := manifestWith "b" (Some ["a"]) ]}.

Definition dirCycle : PluginsDir :=
  {[ "a" := manifestWith "a" (Some ["b"]);
     "b" := manifestWith "b" (Some ["a"]) ]}.

Definition dirShared : PluginsDir :=
  {[ "a" := manifestWith "a" None; "b" := manifestWith "b" None;
     "c" := manifestWith "c" (Some ["b"]) ]}.

Definition dirMissing : PluginsDir :=
  {[ "b" := manifestWith "b" (Some ["zz"]) ]}.

(** The dependencies a manifest file contributes to the graph. *)
Definition fileDeps (f : ManifestFile) : list string :=
  match f with
  | Valid manifest =>
      match dependencies manifest with
      | Some d => default [] (plugins d)
      | None => []
      end
  | Invalid _ => []
  end.

Definition isValid (f : ManifestFile) : bool :=
  match f with Valid _ => true | Invalid _ => false end.

Section DependencyGraph.
Variable pluginsDir : PluginsDir.

(** The declared dependencies of a plugin; none for a plugin that is not
    in the directory. *)
Definition depsOf (pluginName : string) : list string :=
  from_option fileDeps [] (pluginsDir !! pluginName).

(** [a] declares [b] as a dependency. *)
Definition dependsOn (a b : string) : Prop := b ∈ depsOf a.

(** Every manifest of the directory loads. *)
Definition allValid : Prop :=
  map_Forall (fun _ f => isValid f = true) pluginsDir.

(** No cycle can be reached from [n]. *)
Definition cycleFree (n : string) : Prop :=
  forall c, rtc dependsOn n c -> ~ tc dependsOn c c.

(** The manifest schema only admits dependency names matching
    [^[a-z0-9-]+$]; the resolver relies on their being non-empty. *)
Definition namedDeps : Prop :=
  map_Forall (fun _ f => EmptyString ∉ fileDeps f) pluginsDir.

(** The [for] loop of [checkCircularDependencies]. *)
Definition checkDeps (fuel : nat)
  : list string -> gset string -> outcome (option string * gset string) :=
  fix loop (deps : list string) (visited : gset string) :=
    match deps with
    | [] => Return (None, visited)
    | dep :: deps' =>
        '(circular, visited) ←
          checkCircularDependencies pluginsDir fuel dep visited;
        if truthy circular then Return (circular, visited)
        else loop deps' visited
    end.

(** [a] stands before [b] in [l]. *)
Definition before (l : list string) (a b : string) : Prop :=
  exists i j, l !! i = Some a /\ l !! j = Some b /\ i < j.

(** An order without repetition in which every plugin comes after its
    declared dependencies. *)
Definition sorted (l : list string) : Prop :=
  NoDup l /\ forall p d, p ∈ l -> d ∈ depsOf p -> before l d p.

(** The state between two visits: what was pushed is marked, and it is
    sorted. *)
Definition consistent (order : list string) (V : gset string) : Prop :=
  (forall x, x ∈ order -> x ∈ V) /\ sorted order.

(** What is marked without being pushed reaches [t]. *)
Definition stackAbove (order : list string) (V : gset string) (t : string)
  : Prop :=
  forall s, s ∈ V -> s ∉ order -> tc dependsOn s t.

(** The visits of [ns] succeed and push [new] behind [order]. *)
Definition pushes (ns order : list string) (V : gset string)
    (res : outcome (list string * gset string)) : Prop :=
  exists new,
    res = Return (order ++ new, V ∪ list_to_set new) /\
    sorted (order ++ new) /\
    (forall n, n ∈ ns -> n ∈ order ++ new) /\
    (forall x, x ∈ new -> (x ∉ V) /\ exists n, n ∈ ns /\ rtc dependsOn n x).

(** What any successful visit does to the state, whatever the graph. *)
Definition extends (order : list string) (V : gset string)
    (order' : list string) (V' : gset string) : Prop :=
  NoDup order' /\ (forall x, x ∈ order' -> x ∈ V') /\ V ⊆ V' /\
  (forall x, x ∈ order' -> x ∈ order \/ x ∉ V).
End DependencyGraph.

(** * Merger (cli/src/core/merger.ts) *)

(** ** JSON-like values *)

(** Scalars.  Numbers are modelled by integers; [Set] compares scalars by
    value. *)
Inductive scalar :=
  | SNull
  | SBool (b : bool)
  | SNum (n : Z)
  | SStr (s : string).

(** A settings tree.  [new Set(...)] compares objects and arrays by
    reference, so an array element that is itself an object or an array
    carries the identity [ref] of its allocation.  [deepMerge] never looks
    inside an array element, and the containers it allocates are never
    stored into an array, so no other identity can be observed and none is
    represented.  The fields of an object are its own properties, in
    enumeration order; names that [Object.prototype] also has are left
    aside. *)
Inductive value :=
  | VScalar (s : scalar)
  | VArr (elems : list element)
  | VObj (fields : list (string * value))
with element :=
  | EScalar (s : scalar)
  | ERef (ref : positive) (v : value).

Definition scalar_eqb (a b : scalar) : bool :=
  match a, b with
  | SNull, SNull => true
  | SBool x, SBool y => Bool.eqb x y
  | SNum x, SNum y => Z.eqb x y
  | SStr x, SStr y => String.eqb x y
  | _, _ => false
  end.

(** SameValueZero, the equality of [Set]. *)
Definition sameValueZero (a b : element) : bool :=
  match a, b with
  | EScalar x, EScalar y => scalar_eqb x y
  | ERef r _, ERef r' _ => Pos.eqb r r'
  | _, _ => false
  end.

(** JavaScript truthiness, for [merged[key] || ...]. *)
Definition truthyValue (v : value) : bool :=
  match v with
  | VScalar SNull => false
  | VScalar (SBool b) => b
  | VScalar (SNum n) => negb (Z.eqb n 0)
  | VScalar (SStr s) => negb (String.eqb s EmptyString)
  | VArr _ | VObj _ => true
  end.

(** [o || d] where [o] is [undefined] when the property is absent. *)
Definition orElse (o : option value) (d : value) : value :=
  match o with
  | Some v => if truthyValue v then v else d
  | None => d
  end.

(** [obj[key]] on the properties of the object itself.  This is what the
    expression gives unless the object lacks [key] and [Object.prototype]
    has it. *)
Fixpoint getField {A} (key : string) (fields : list (string * A)) : option A :=
  match fields with
  | [] => None
  | (k, v) :: rest => if String.eqb key k then Some v else getField key rest
  end.

(** [obj[key] = v]: an existing property keeps its place, a new one goes
    last.  This is what the assignment does unless the object lacks [key]
    and [key] is [__proto__], which sets the prototype, or is an array
    index, which is enumerated before the other keys. *)
Fixpoint setField {A} (key : string) (v : A) (fields : list (string * A))
  : list (string * A) :=
  match fields with
  | [] => [(key, v)]
  | (k, w) :: rest =>
      if String.eqb key k then (k, v) :: rest else (k, w) :: setField key v rest
  end.

(** Merger.deepMerge *)
Fixpoint deepMerge (target source : value) : value :=
  match target, source with
  | VArr t, VArr s => VArr (arrayFromSet sameValueZero (t ++ s))
  | VObj t, VObj s =>
      VObj ((fix loop (s : list (string * value)) (merged : list (string * value)) :=
               match s with
               | [] => merged
               | (key, sv) :: s' =>
                   loop s'
                     (setField key
                        match sv with
                        | VObj _ => deepMerge (orElse (getField key merged) (VObj [])) sv
                        | VArr _ => deepMerge (orElse (getField key merged) (VArr [])) sv
                        | VScalar _ => sv
                        end merged)
               end) s t)
  | _, _ => source
  end.

(** Merger.mergeSettings *)
Definition mergeSettings (base : list (string * value)) (overrides : list value)
  : value :=
  fold_left deepMerge overrides (VObj base).

(** ** Skill rules *)

Inductive SkillType := domain | guardrail.
Inductive Enforcement := suggest | block | warn.
Inductive Priority := critical | high | medium | low.

Record PromptTriggers := {
  keywords : option (list string);
  intentPatterns : option (list string);
}.

Record FileTriggers := {
  pathPatterns : option (list string);
  pathExclusions : option (list string);
  contentPatterns : option (list string);
}.

(** A skill rule as the merger reads it: every property may be absent
    ([undefined]).  The three scalars are non-empty strings, hence truthy
    when present. *)
Record SkillRule := {
  type : option SkillType;
  enforcement : option Enforcement;
  priority : option Priority;
  promptTriggers : option PromptTriggers;
  fileTriggers : option FileTriggers;
}.

(** [skills] is a [Record<string, SkillRule>], kept in enumeration order. *)
Record SkillRulesFragment := {
  skills : list (string * SkillRule);
}.

(** [a || b] on values that are truthy when present. *)
Definition orUndefined {A} (a b : option A) : option A :=
  match a with
  | Some x => Some x
  | None => b
  end.

(** Merger.mergeArrays *)
Definition mergeArrays (arr1 arr2 : option (list string)) : option (list string) :=
  match arr1, arr2 with
  | None, None => None
  | _, _ => Some (arrayFromSet String.eqb (default [] arr1 ++ default [] arr2))
  end.

(** Merger.mergeSkillRules *)
Definition mergeSkillRules (existing incoming : SkillRule) : SkillRule :=
  {| type := orUndefined (type incoming) (type existing);
     enforcement := orUndefined (enforcement incoming) (enforcement existing);
     priority := orUndefined (priority incoming) (priority existing);
     promptTriggers :=
       match orUndefined (promptTriggers existing) (promptTriggers incoming) with
       | Some _ =>
           Some {| keywords :=
                     mergeArrays (promptTriggers existing ≫= keywords)
                                 (promptTriggers incoming ≫= keywords);
                   intentPatterns :=
                     mergeArrays (promptTriggers existing ≫= intentPatterns)
                                 (promptTriggers incoming ≫= intentPatterns) |}
       | None => None
       end;
     fileTriggers :=
       match orUndefined (fileTriggers existing) (fileTriggers incoming) with
       | Some _ =>
           Some {| pathPatterns :=
                     mergeArrays (fileTriggers existing ≫= pathPatterns)
                                 (fileTriggers incoming ≫= pathPatterns);
                   pathExclusions :=
                     mergeArrays (fileTriggers existing ≫= pathExclusions)
                                 (fileTriggers incoming ≫= pathExclusions);
                   contentPatterns :=
                     mergeArrays (fileTriggers existing ≫= contentPatterns)
                                 (fileTriggers incoming ≫= contentPatterns) |}
       | None => None
       end |}.

(** TemplateEngine.replaceVariablesInObject on a skill rule: every string
    leaf is substituted.  The three scalars are fixed words without braces,
    which substitution returns as they are; property names are kept. *)
Definition replaceInStrings (context : TemplateContext)
    (xs : option (list string)) : option (list string) :=
  match xs with
  | Some l => Some (map (fun s => replaceVariables s context) l)
  | None => None
  end.

Definition replaceVariablesInRule (context : TemplateContext) (r : SkillRule)
  : SkillRule :=
  {| type := type r;
     enforcement := enforcement r;
     priority := priority r;
     promptTriggers :=
       (fun p => {| keywords := replaceInStrings context (keywords p);
                    intentPatterns := replaceInStrings context (intentPatterns p) |})
         <$> promptTriggers r;
     fileTriggers :=
       (fun f => {| pathPatterns := replaceInStrings context (pathPatterns f);
                    pathExclusions := replaceInStrings context (pathExclusions f);
                    contentPatterns := replaceInStrings context (contentPatterns f) |})
         <$> fileTriggers r |}.

Definition replaceVariablesInFragment (context : TemplateContext)
    (fragment : SkillRulesFragment) : SkillRulesFragment :=
  {| skills := map (fun '(k, r) => (k, replaceVariablesInRule context r))
                    (skills fragment) |}.

(** Merger.mergeSkillRulesFragments *)
Definition mergeSkillRulesFragments (fragments : list SkillRulesFragment)
    (context : option TemplateContext) : SkillRulesFragment :=
  {| skills :=
       fold_left
         (fun merged fragment =>
            let processedFragment :=
              match context with
              | Some c => replaceVariablesInFragment c fragment
              | None => fragment
              end in
            fold_left
              (fun merged '(skillName, skillRule) =>
                 match getField skillName merged with
                 | Some existing =>
                     setField skillName (mergeSkillRules existing skillRule) merged
                 | None => setField skillName skillRule merged
                 end)
              (skills processedFragment) merged)
         fragments [] |}.

(** The two fragments of the scenario and the rule set it expects. *)
Definition scenarioFirst : SkillRulesFragment :=
  {| skills :=
       [("a", {| type := Some domain; enforcement := Some suggest;
                 priority := Some low;
                 promptTriggers :=
                   Some {| keywords := Some ["x"]; intentPatterns := None |};
                 fileTriggers := None |})] |}.

Definition scenarioSecond : SkillRulesFragment :=
  {| skills :=
       [("a", {| type := Some domain; enforcement := Some block;
                 priority := Some critical;
                 promptTriggers :=
                   Some {| keywords := Some ["y"]; intentPatterns := None |};
                 fileTriggers := None |})] |}.

Definition scenarioMerged : SkillRulesFragment :=
  {| skills :=
       [("a", {| type := Some domain; enforcement := Some block;
                 priority := Some critical;
                 promptTriggers :=
                   Some {| keywords := Some ["x"; "y"]; intentPatterns := None |};
                 fileTriggers := None |})] |}.

Section SetOfArray.
Context {A : Type} (same : A -> A -> bool).

(** No element of [l] is the same as [y]. *)
Definition notIn (l : list A) (y : A) : bool :=
  forallb (fun x => negb (same x y)) l.

(** The elements of [l] are pairwise different. *)
Fixpoint distinct (l : list A) : bool :=
  match l with
  | [] => true
  | x :: l' => notIn l' x && distinct l'
  end.
End SetOfArray.

(** The value stored under [key] by one turn of the loop of [deepMerge]. *)
Definition fieldMerge (old : option value) (sv : value) : value :=
  match sv with
  | VObj _ => deepMerge (orElse old (VObj [])) sv
  | VArr _ => deepMerge (orElse old (VArr [])) sv
  | VScalar _ => sv
  end.

(** The loop of [deepMerge] over [Object.keys(source)]. *)
Fixpoint mergeFields (s merged : list (string * value)) : list (string * value) :=
  match s with
  | [] => merged
  | (key, sv) :: s' =>
      mergeFields s' (setField key (fieldMerge (getField key merged) sv) merged)
  end.

Definition keys (fields : list (string * value)) : list string := fields.*1.

(** An object has each of its keys once. *)
Fixpoint wellFormed (v : value) : bool :=
  match v with
  | VObj fields =>
      bool_decide (NoDup (keys fields)) &&
      (fix all (fs : list (string * value)) :=
         match fs with
         | [] => true
         | (_, w) :: fs' => wellFormed w && all fs'
         end) fields
  | _ => true
  end.

(** No array that [deepMerge] can reach (the value itself, or a property
    of nested objects) holds the same element twice. *)
Fixpoint distinctArrays (v : value) : bool :=
  match v with
  | VArr elems => distinct sameValueZero elems
  | VObj fields =>
      (fix all (fs : list (string * value)) :=
         match fs with
         | [] => true
         | (_, w) :: fs' => distinctArrays w && all fs'
         end) fields
  | VScalar _ => true
  end.

(** Two trees never hold values of different kinds (object, array,
    scalar) under the same key. *)
Fixpoint sameKinds (a b : value) : bool :=
  match a, b with
  | VObj fa, VObj fb =>
      (fix all (fs : list (string * value)) :=
         match fs with
         | [] => true
         | (k, va) :: fs' =>
             match getField k fb with
             | Some vb => sameKinds va vb
             | None => true
             end && all fs'
         end) fa
  | VArr _, VArr _ => true
  | VScalar _, VScalar _ => true
  | _, _ => false
  end.

Fixpoint vsize (v : value) : nat :=
  match v with
  | VObj fields =>
      S ((fix sum (fs : list (string * value)) :=
            match fs with
            | [] => 0
            | (_, w) :: fs' => vsize w + sum fs'
            end) fields)
  | _ => 1
  end.

(** The trigger arrays of a rule, through the optional chaining of the
    source ([rule.promptTriggers?.keywords] and the like). *)
Definition keywordsOf (r : SkillRule) := promptTriggers r ≫= keywords.
Definition intentPatternsOf (r : SkillRule) := promptTriggers r ≫= intentPatterns.
Definition pathPatternsOf (r : SkillRule) := fileTriggers r ≫= pathPatterns.
Definition pathExclusionsOf (r : SkillRule) := fileTriggers r ≫= pathExclusions.
Definition contentPatternsOf (r : SkillRule) := fileTriggers r ≫= contentPatterns.

(** The values of a trigger array; none when the array is absent. *)
Definition valuesOf (arr : option (list string)) : list string := default [] arr.

(** [m] holds, once each, the values of [a] and of [b]. *)
Definition unionOf (a b m : option (list string)) : Prop :=
  NoDup (valuesOf m) /\
  forall x, x ∈ valuesOf m <-> x ∈ valuesOf a \/ x ∈ valuesOf b.

(** Settings trees used as concrete inputs below. *)
Definition hookEntry (ref : positive) (command : string) : element :=
  ERef ref (VObj [("type", VScalar (SStr "command"));
                  ("command", VScalar (SStr command))]).

Definition settingsBase : value :=
  VObj [("permissions", VObj [("allow", VArr [EScalar (SStr "Read")])]);
        ("hooks", VObj [("Stop", VArr [hookEntry 1 "stop.sh"])])].



Definition repeatedArray : value :=
  VArr [EScalar (SNum 1); EScalar (SNum 1)].


(** * Plugin validator (cli/src/core/plugin-validator.ts) *)

(** The double quote character, as a string. *)
Definition dquote : string := String (ascii_of_nat 34) EmptyString.

(** An Ajv error.  The keyword comes with the parameters that
    [formatErrors] reads for it. *)
Inductive Keyword :=
  | AdditionalProperties (additionalProperty : string)
  | Required (missingProperty : string)
  | Pattern (pattern : string)
  | Enum (allowedValues : list string)
  | OtherKeyword (keyword : string).

Record ErrorObject := {
  instancePath : string;
  message : option string;
  keyword : Keyword;
}.

Record ValidationResult := {
  valid : bool;
  errors : option (list string);
}.

(** [s || d] on a string that may be absent. *)
Definition orDefault (s : option string) (d : string) : string :=
  match s with
  | Some EmptyString | None => d
  | Some s' => s'
  end.

(** [xs.join(', ')] *)
Fixpoint join (xs : list string) : string :=
  match xs with
  | [] => EmptyString
  | [x] => x
  | x :: xs' => x +:+ ", " +:+ join xs'
  end.

(** PluginValidator.formatErrors, one error. *)
Definition formatError (error : ErrorObject) : string :=
  let path := orDefault (Some (instancePath error)) "root" in
  let msg := orDefault (message error) "validation error" in
  match keyword error with
  | AdditionalProperties additionalProp =>
      path +:+ ": unexpected property " +:+ dquote +:+ additionalProp +:+ dquote
  | Required missingProp =>
      path +:+ ": missing required property " +:+ dquote +:+ missingProp +:+ dquote
  | Pattern pattern =>
      path +:+ ": " +:+ msg +:+ " (expected pattern: " +:+ pattern +:+ ")"
  | Enum allowedValues =>
      path +:+ ": " +:+ msg +:+ " (allowed: " +:+ join allowedValues +:+ ")"
  | OtherKeyword _ => path +:+ ": " +:+ msg
  end.

(** PluginValidator.formatErrors *)
Definition formatErrors (errors : list ErrorObject) : list string :=
  map formatError errors.

(** [s.includes(c)] for a one-character needle. *)
Definition includes (s : string) (c : ascii) : bool :=
  existsb (Ascii.eqb c) (String.list_ascii_of_string s).

Definition authorMessage : string :=
  "Author should include email (e.g., " +:+ dquote +:+
  "Name <email@example.com>" +:+ dquote +:+ ")".

Section Validator.
(** The compiled schema validator [validatePluginManifest] of Ajv
    (created with [allErrors: true]): whether the manifest passes, and
    the [errors] property left on the function. *)
Variable validatePluginManifest :
  PluginManifest -> bool * option (list ErrorObject).

(** Validators.isValidVersionRange, [semver.validRange(range) !== null]. *)
Variable isValidVersionRange : string -> bool.

(** PluginValidator.validateManifest.  The manifest is given through its
    typed view; a manifest that lacks the fields read here is one the
    schema rejects, and the first branch does not read them. *)
Definition validateManifest (manifest : PluginManifest) : ValidationResult :=
  match validatePluginManifest manifest with
  | (false, Some schemaErrors) =>
      {| valid := false; errors := Some (formatErrors schemaErrors) |}
  | _ =>
      let additionalErrors : list string := [] in
      let additionalErrors :=
        if isValidVersionRange (claudeCode (compatibility manifest))
        then additionalErrors
        else additionalErrors ++
             ["Invalid claudeCode version range: " +:+
              claudeCode (compatibility manifest)] in
      let additionalErrors :=
        if isValidVersionRange (node (compatibility manifest))
        then additionalErrors
        else additionalErrors ++
             ["Invalid node version range: " +:+
              node (compatibility manifest)] in
      let additionalErrors :=
        if negb (includes (author manifest) "<") &&
           negb (includes (author manifest) "@")
        then additionalErrors ++ [authorMessage]
        else additionalErrors in
      if (0 <? length additionalErrors)%nat then
        {| valid := false; errors := Some additionalErrors |}
      else {| valid := true; errors := None |}
  end.
End Validator.

(** Validators.isValidPluginName: lowercase alphanumeric words joined by
    single hyphens. *)
Definition isLowerAlnum (c : ascii) : bool :=
  let n := nat_of_ascii c in
  ((97 <=? n) && (n <=? 122) || (48 <=? n) && (n <=? 57))%nat.

Fixpoint isSlugFrom (afterWord : bool) (s : list ascii) : bool :=
  match s with
  | [] => afterWord
  | c :: s' =>
      if isLowerAlnum c then isSlugFrom true s'
      else if Ascii.eqb c "-" then afterWord && isSlugFrom false s'
      else false
  end.

Definition isValidPluginName (pluginName : string) : bool :=
  isSlugFrom false (String.list_ascii_of_string pluginName).

(** Stand-ins for the two libraries on the inputs used below: the part of
    the compiled schema that checks the [name] pattern, and a range check
    that knows the ranges of the shipped manifests. *)
Definition namePattern : string := "^[a-z0-9]+(?:-[a-z0-9]+)*$".

Definition namePatternCheck (manifest : PluginManifest)
  : bool * option (list ErrorObject) :=
  if isValidPluginName (name manifest) then (true, None)
  else (false,
        Some [{| instancePath := "/name";
                 message := Some ("must match pattern " +:+ dquote +:+
                                  namePattern +:+ dquote);
                 keyword := Pattern namePattern |}]).

Definition knownRange (range : string) : bool :=
  bool_decide (range ∈ [">=1.0.0"; ">=18.0.0"; "*"]).

Definition manifestOf (pluginName authorText claudeRange nodeRange : string)
  : PluginManifest :=
  {| name := pluginName; version := "1.0.0"; author := authorText;
     compatibility := {| claudeCode := claudeRange; node := nodeRange |};
     dependencies := None |}.

(** * Installer (cli/src/core/detector.ts, class Installer) *)

Record InstallOptions := {
  force : bool;
  dryRun : bool;
  verbose : bool;
}.

(** The files of the project, by path.  Directories carry no content and
    are not represented, so [fs.ensureDir] leaves the state as it is;
    messages to the logger are not part of the state either. *)
Abbreviation FileSystem := (gmap string (list Byte.byte)).

Definition textExtensions : list string :=
  [".md"; ".ts"; ".js"; ".json"; ".sh"; ".bash"; ".txt"; ".yml"; ".yaml"].

Section Installer.
(** [path.extname] *)
Variable extname : string -> string.
(** The UTF-8 codec behind [fs.readFile(src, 'utf-8')] and
    [fs.writeFile(dest, content, 'utf-8')]. *)
Variable decode : list Byte.byte -> text.
Variable encode : text -> list Byte.byte.

(** Installer.copyFile *)
Definition copyFile (fs : FileSystem) (src dest : string)
    (context : TemplateContext) (options : InstallOptions)
  : outcome FileSystem :=
  if bool_decide (is_Some (fs !! dest)) && negb (force options) then Return fs
  else if dryRun options then Return fs
  else
    match fs !! src with
    | None => Throw (NoSuchFile src)
    | Some bytes =>
        let content := decode bytes in
        let ext := extname src in
        let finalContent :=
          if bool_decide (ext ∈ textExtensions)
          then replaceText content context
          else content in
        Return (<[dest := encode finalContent]> fs)
    end.
End Installer.

(** Stand-ins for the two libraries on the inputs used below: the
    extension of an ordinary file name, and the codec on ASCII content. *)
Fixpoint extensionFrom (reversed ext : list ascii) : list ascii :=
  match reversed with
  | [] => []
  | c :: rest =>
      if Ascii.eqb c "/" then []
      else if Ascii.eqb c "." then
        match rest with
        | [] => []
        | d :: _ => if Ascii.eqb d "/" then [] else c :: ext
        end
      else extensionFrom rest (c :: ext)
  end.

Definition extensionOf (path : string) : string :=
  String.string_of_list_ascii
    (extensionFrom (rev (String.list_ascii_of_string path)) []).

Definition asciiDecode (bytes : list Byte.byte) : text := map ascii_of_byte bytes.
Definition asciiEncode (content : text) : list Byte.byte := map byte_of_ascii content.

Definition bytesOf (s : string) : list Byte.byte := String.list_byte_of_string s.

Definition sampleProject : FileSystem :=
  {[ "core/hooks/README.md" := bytesOf "Root: {{PROJECT_ROOT}}";
     "core/hooks/logo.png" := bytesOf "{{PROJECT_ROOT}}";
     ".claude/hooks/README.md" := bytesOf "edited by hand" ]}.

Definition sampleContext : TemplateContext := {[ "PROJECT_ROOT" := "/srv/app" ]}.

(** ** The UTF-8 codec *)

(** What the first byte of a character announces: a character of one
    byte, the number of bytes that follow with the bounds of the next one,
    or nothing that UTF-8 allows. *)
Inductive leadByte :=
  | OneByte
  | LeadOf (needed : nat) (lower upper : N)
  | IllFormed.

Definition classify (b : N) : leadByte :=
  if (b <=? 127)%N then OneByte
  else if (194 <=? b)%N && (b <=? 223)%N then LeadOf 1 128 191
  else if (224 <=? b)%N && (b <=? 239)%N then
    LeadOf 2 (if (b =? 224)%N then 160 else 128) (if (b =? 237)%N then 159 else 191)
  else if (240 <=? b)%N && (b <=? 244)%N then
    LeadOf 3 (if (b =? 240)%N then 144 else 128) (if (b =? 244)%N then 143 else 191)
  else IllFormed.

(** U+FFFD, the replacement character, in UTF-8. *)
Definition replacement : text :=
  [ascii_of_N 239; ascii_of_N 191; ascii_of_N 189].

(** Decoding as [fs.readFile(src, 'utf-8')] does it, the string being
    held as the units of its UTF-8 encoding: well-formed characters pass,
    and every maximal ill-formed run of bytes gives one replacement
    character.  [pending] are the bytes read of the current character,
    [needed] the number of bytes it still lacks, [lower] and [upper] the
    bounds of the next one.  A byte that cannot continue the character
    ends it and is read again as a first byte. *)
Fixpoint decodeFrom (pending : text) (needed : nat) (lower upper : N)
    (bytes : list Byte.byte) : text :=
  match bytes with
  | [] =>
      match needed with
      | O => []
      | S _ => replacement
      end
  | byte :: rest =>
      let b := Byte.to_N byte in
      let first (before : text) : text :=
        match classify b with
        | OneByte => before ++ ascii_of_byte byte :: decodeFrom [] 0 0 0 rest
        | LeadOf n lo hi => before ++ decodeFrom [ascii_of_byte byte] n lo hi rest
        | IllFormed => before ++ replacement ++ decodeFrom [] 0 0 0 rest
        end in
      match needed with
      | O => first []
      | S k =>
          if (lower <=? b)%N && (b <=? upper)%N then
            match k with
            | O => pending ++ ascii_of_byte byte :: decodeFrom [] 0 0 0 rest
            | S _ => decodeFrom (pending ++ [ascii_of_byte byte]) k 128 191 rest
            end
          else first replacement
      end
  end.

Definition utf8Decode (bytes : list Byte.byte) : text := decodeFrom [] 0 0 0 bytes.

(** Encoding as [fs.writeFile(dest, content, 'utf-8')] does it: the units
    of the string are the bytes. *)
Definition utf8Encode (content : text) : list Byte.byte := map byte_of_ascii content.

(** A picture among the files of a plugin: the eight bytes that every PNG
    file starts with. *)
Definition pngSignature : list Byte.byte :=
  [Byte.x89; Byte.x50; Byte.x4e; Byte.x47; Byte.x0d; Byte.x0a; Byte.x1a; Byte.x0a].

Definition pictureProject : FileSystem :=
  {[ "core/hooks/logo.png" := pngSignature ]}.

(** The bytes of a UTF-8 text with characters of one, two, three and four
    bytes: c, a, f, e with an acute accent, a space, the euro sign and an
    emoji. *)
Definition accentedText : list Byte.byte :=
  [Byte.x63; Byte.x61; Byte.x66; Byte.xc3; Byte.xa9; Byte.x20;
   Byte.xe2; Byte.x82; Byte.xac; Byte.xf0; Byte.x9f; Byte.x98; Byte.x80].

(** * Template engine: the remaining methods *)

(** TemplateEngine.mergeContexts: [Object.assign({}, ...contexts)] copies
    the contexts from left to right into a fresh object, a later one
    overwriting the keys it shares with an earlier one.  The values of a
    context are strings, numbers, booleans or objects, so a key that a
    context holds is defined.  The copy is by assignment: a property named
    [__proto__] is not copied, and the contexts are taken without one. *)
Definition mergeContexts (contexts : list TemplateContext) : TemplateContext :=
  fold_left (fun merged context => context ∪ merged) contexts ∅.

(** TemplateEngine.replaceVariablesBatch *)
Definition replaceVariablesBatch (strings : list string) (context : TemplateContext)
  : list string :=
  map (fun str => replaceVariables str context) strings.

(** [[/\\]], the separators of [createDefaultContext] and [normalizePath]. *)
Definition isSeparator (c : ascii) : bool :=
  Ascii.eqb c "/" || Ascii.eqb c "\".

(** [str.split(/[/\\]/)]: the pieces between the separators, of which there
    is always at least one; [piece] is the piece being read. *)
Fixpoint splitFrom (piece : text) (s : text) : list text :=
  match s with
  | [] => [piece]
  | c :: s' =>
      if isSeparator c then piece :: splitFrom [] s'
      else splitFrom (piece ++ [c]) s'
  end.

Definition splitPieces (s : text) : list text := splitFrom [] s.

(** [pieces.pop() || 'project']: the last piece, unless it is empty. *)
Definition projectName (projectRoot : string) : string :=
  match last (splitPieces (String.list_ascii_of_string projectRoot)) with
  | Some (c :: piece) => String.string_of_list_ascii (c :: piece)
  | _ => "project"
  end.

(** TemplateEngine.createDefaultContext *)
Definition createDefaultContext (projectRoot : string) : TemplateContext :=
  {[ "PROJECT_ROOT" := projectRoot;
     "PROJECT_NAME" := projectName projectRoot;
     "CLAUDE_DIR" := ".claude" ]}.

(** The class [[.*+?^${}()|[\]\\]] of [escapeRegex]. *)
Definition isSpecial (c : ascii) : bool :=
  existsb (Ascii.eqb c)
    ["."; "*"; "+"; "?"; "^"; "$"; "{"; "}"; "("; ")"; "|"; "["; "]"; "\"]%char.

Definition escapeText (s : text) : text :=
  flat_map (fun c => if isSpecial c then ["\"; c]%char else [c]) s.

(** TemplateEngine.escapeRegex: every special character is replaced by a
    backslash and itself ([\\$&]). *)
Definition escapeRegex (str : string) : string :=
  String.string_of_list_ascii (escapeText (String.list_ascii_of_string str)).

(** JSON data as the deep methods see it: strings, the other primitives,
    arrays and objects.  These methods build every container anew and
    compare none, so the identity of objects plays no role here. *)
Inductive json :=
  | JString (s : string)
  | JNumber (n : Z)
  | JBool (b : bool)
  | JNull
  | JArray (items : list json)
  | JObject (entries : list (string * json)).

(** TemplateEngine.replaceVariablesInObject.  The result object is filled
    by assignment in the order of [Object.entries]; the data are taken
    without a property named [__proto__], which assignment does not
    store. *)
Fixpoint replaceVariablesInObject (obj : json) (context : TemplateContext) : json :=
  match obj with
  | JString s => JString (replaceVariables s context)
  | JArray items =>
      JArray (map (fun item => replaceVariablesInObject item context) items)
  | JObject entries =>
      JObject (fold_left
                 (fun result '(key, value) => setField key value result)
                 (map (fun '(key, value) =>
                         (key, replaceVariablesInObject value context)) entries)
                 [])
  | _ => obj
  end.

(** [variables.add(v)] on a set held in insertion order. *)
Definition setAdd (variables : list string) (v : string) : list string :=
  if existsb (String.eqb v) variables then variables else variables ++ [v].

(** The inner function [extract] of [extractVariablesFromObject]; the set
    [variables] it fills is threaded through the visit.  [Object.values]
    hands it the values of an object, never the keys. *)
Fixpoint extract (value : json) (variables : list string) : list string :=
  match value with
  | JString s => fold_left setAdd (extractVariables s) variables
  | JArray items =>
      fold_left (fun variables item => extract item variables) items variables
  | JObject entries =>
      fold_left (fun variables '(_, v) => extract v variables) entries variables
  | _ => variables
  end.

(** TemplateEngine.extractVariablesFromObject *)
Definition extractVariablesFromObject (obj : json) : list string :=
  extract obj [].

(** The strings that [extract] visits, in the order of the visit. *)
Fixpoint stringsOf (value : json) : list string :=
  match value with
  | JString s => [s]
  | JArray items => flat_map stringsOf items
  | JObject entries => flat_map (fun '(_, v) => stringsOf v) entries
  | _ => []
  end.

(** An object as [Object.entries] lists it: no key twice, at any depth. *)
Fixpoint uniqueKeys (value : json) : bool :=
  match value with
  | JArray items => forallb uniqueKeys items
  | JObject entries =>
      bool_decide (NoDup entries.*1) &&
      forallb (fun '(_, v) => uniqueKeys v) entries
  | _ => true
  end.

(** A settings template with placeholders at several depths. *)
Definition templateSettings : json :=
  JObject
    [("root", JString "{{PROJECT_ROOT}}/{{FRONTEND_DIR}}");
     ("paths", JArray [JString "{{FRONTEND_DIR}}/src"; JString "{{BACKEND_DIR}}/api"; JNumber 3]);
     ("{{KEY}}", JObject [("enabled", JBool true); ("dir", JString "{{FRONTEND_DIR}}")])].

Definition templateContext : TemplateContext :=
  {[ "FRONTEND_DIR" := "web"; "PROJECT_ROOT" := "/srv/app" ]}.

(** [extractVariablesFromObject] on a pattern whose [lastIndex] is
    [lastIndex]: every call of [extractVariables] copies the pattern in
    the same state. *)
Fixpoint extractAt (lastIndex : nat) (value : json) (variables : list string)
  : list string :=
  match value with
  | JString s => fold_left setAdd (extractVariablesAt lastIndex s) variables
  | JArray items =>
      fold_left (fun variables item => extractAt lastIndex item variables)
        items variables
  | JObject entries =>
      fold_left (fun variables '(_, v) => extractAt lastIndex v variables)
        entries variables
  | _ => variables
  end.

Definition extractVariablesFromObjectAt (lastIndex : nat) (obj : json)
  : list string :=
  extractAt lastIndex obj [].

(** ** Property names *)

(** The names that every object inherits from [Object.prototype].  For
    such a name [obj[key]] is defined on an object without the key, and
    [obj['__proto__'] = v] sets the prototype of [obj] where another
    assignment adds a property.  On the other names reading and writing
    are [getField] and [setField]. *)
Definition prototypeNames : list string :=
  ["__proto__"; "constructor"; "hasOwnProperty"; "isPrototypeOf";
   "propertyIsEnumerable"; "toLocaleString"; "toString"; "valueOf";
   "__defineGetter__"; "__defineSetter__"; "__lookupGetter__";
   "__lookupSetter__"].

Definition inheritedName (key : string) : bool :=
  existsb (String.eqb key) prototypeNames.

(** A key written with digits only.  Every array index is one, and an
    object enumerates its array indices first, in numeric order, whenever
    they were added; the other keys follow in the order in which they were
    added, which is the order of [setField]. *)
Definition indexLike (key : string) : bool :=
  match String.list_ascii_of_string key with
  | [] => false
  | w => forallb isDigit w
  end.

(** A key that assignment adds as a property, after the properties that
    are there. *)
Definition orderedKey (key : string) : bool :=
  negb (String.eqb key "__proto__") && negb (indexLike key).

(** A key that is read, written and enumerated as [getField] and
    [setField] have it. *)
Definition plainKey (key : string) : bool :=
  negb (inheritedName key) && negb (indexLike key).

(** No object of the data has a property named [__proto__], at any depth;
    [replaceVariablesInObject], which fills its result by assignment,
    visits the elements of arrays too. *)
Fixpoint noProtoKey (obj : json) : bool :=
  match obj with
  | JArray items => forallb noProtoKey items
  | JObject entries =>
      forallb (fun '(key, v) => negb (String.eqb key "__proto__") && noProtoKey v)
        entries
  | _ => true
  end.

(** A context without a property named [__proto__]. *)
Definition noProto (context : TemplateContext) : Prop :=
  context !! "__proto__" = None.

(** No object that [deepMerge] can reach in [v] (the value itself, or a
    property of nested objects) has a property named as one of
    [Object.prototype]. *)
Fixpoint noInheritedKeys (v : value) : bool :=
  match v with
  | VObj fields =>
      (fix all (fs : list (string * value)) :=
         match fs with
         | [] => true
         | (k, w) :: fs' => negb (inheritedName k) && noInheritedKeys w && all fs'
         end) fields
  | _ => true
  end.

(** No object that [deepMerge] can reach in [v] has a key written with
    digits only: its properties are enumerated in the order in which they
    were added. *)
Fixpoint noIndexKeys (v : value) : bool :=
  match v with
  | VObj fields =>
      (fix all (fs : list (string * value)) :=
         match fs with
         | [] => true
         | (k, w) :: fs' => negb (indexLike k) && noIndexKeys w && all fs'
         end) fields
  | _ => true
  end.

(** * Merger: the remaining methods *)

(** [arr ? Array.from(new Set(arr)) : undefined]; an array is truthy even
    when empty. *)
Definition dedupe (xs : option (list string)) : option (list string) :=
  match xs with
  | Some l => Some (arrayFromSet String.eqb l)
  | None => None
  end.

(** The rule that [deduplicateSkillRules] stores for a skill: the
    properties of [skillRule] spread, the two trigger objects rebuilt.  A
    rule is read through the five properties of [SkillRule]; what else an
    object may hold, and the spread would copy, is not represented. *)
Definition deduplicateRule (skillRule : SkillRule) : SkillRule :=
  {| type := type skillRule;
     enforcement := enforcement skillRule;
     priority := priority skillRule;
     promptTriggers :=
       match promptTriggers skillRule with
       | Some p => Some {| keywords := dedupe (keywords p);
                           intentPatterns := dedupe (intentPatterns p) |}
       | None => None
       end;
     fileTriggers :=
       match fileTriggers skillRule with
       | Some f => Some {| pathPatterns := dedupe (pathPatterns f);
                           pathExclusions := dedupe (pathExclusions f);
                           contentPatterns := dedupe (contentPatterns f) |}
       | None => None
       end |}.

(** Merger.deduplicateSkillRules *)
Definition deduplicateSkillRules (fragment : SkillRulesFragment)
  : SkillRulesFragment :=
  {| skills :=
       fold_left
         (fun deduplicated '(skillName, skillRule) =>
            setField skillName (deduplicateRule skillRule) deduplicated)
         (skills fragment) [] |}.

(** [priorityOrder[rule.priority] ?? 999] *)
Definition priorityOrder (p : option Priority) : Z :=
  match p with
  | Some critical => 0
  | Some high => 1
  | Some medium => 2
  | Some low => 3
  | None => 999
  end.

(** The comparator handed to [sort]. *)
Definition comparePriority (a b : string * SkillRule) : Z :=
  priorityOrder (priority a.2) - priorityOrder (priority b.2).

(** The number that the comparator reads off an entry. *)
Definition rank (e : string * SkillRule) : Z := priorityOrder (priority e.2).

(** [Array.prototype.sort] is stable: entries that compare equal keep
    their order.  The comparator orders by a number, so there is one
    result with that property, whatever the algorithm; it is computed
    here by insertion, an entry going before the first later entry that
    it does not compare greater than. *)
Fixpoint insertEntry (e : string * SkillRule) (sorted : list (string * SkillRule))
  : list (string * SkillRule) :=
  match sorted with
  | [] => [e]
  | x :: rest =>
      if (comparePriority e x <=? 0)%Z then e :: x :: rest
      else x :: insertEntry e rest
  end.

Definition sortEntries (entries : list (string * SkillRule))
  : list (string * SkillRule) :=
  foldr insertEntry [] entries.

(** Merger.sortSkillsByPriority *)
Definition sortSkillsByPriority (fragment : SkillRulesFragment)
  : SkillRulesFragment :=
  {| skills :=
       fold_left
         (fun sorted '(skillName, skillRule) => setField skillName skillRule sorted)
         (sortEntries (skills fragment)) [] |}.

(** The words that a template literal writes for the two scalars. *)
Definition enforcementWord (e : option Enforcement) : string :=
  match e with
  | Some suggest => "suggest"
  | Some block => "block"
  | Some warn => "warn"
  | None => "undefined"
  end.

Definition typeWord (t : option SkillType) : string :=
  match t with
  | Some domain => "domain"
  | Some guardrail => "guardrail"
  | None => "undefined"
  end.

(** The key [`${skillRule.enforcement}:${skillRule.type}`]. *)
Definition groupKey (skillRule : SkillRule) : string :=
  enforcementWord (enforcement skillRule) +:+ ":" +:+ typeWord (type skillRule).

(** The first loop of [validateMergedSkillRules]: the names of the skills
    under the key made of their enforcement and type. *)
Definition skillsByEnforcement (fragment : SkillRulesFragment)
  : list (string * list string) :=
  fold_left
    (fun groups '(skillName, skillRule) =>
       let key := groupKey skillRule in
       let groups :=
         match getField key groups with
         | Some _ => groups
         | None => setField key [] groups
         end in
       setField key (default [] (getField key groups) ++ [skillName]) groups)
    (skills fragment) [].

(** [arr?.length] as a condition: the array is there and not empty. *)
Definition hasLength (xs : option (list string)) : bool :=
  match xs with
  | Some (_ :: _) => true
  | _ => false
  end.

Definition hasPromptTriggers (skillRule : SkillRule) : bool :=
  hasLength (promptTriggers skillRule ≫= keywords) ||
  hasLength (promptTriggers skillRule ≫= intentPatterns).

Definition hasFileTriggers (skillRule : SkillRule) : bool :=
  hasLength (fileTriggers skillRule ≫= pathPatterns) ||
  hasLength (fileTriggers skillRule ≫= contentPatterns).

Definition guardrailsWarning (blockingGuardrails : list string) : string :=
  "Multiple blocking guardrails found: " +:+ join blockingGuardrails +:+
  ". This may cause conflicts.".

Definition triggersWarning (skillName : string) : string :=
  "Skill " +:+ dquote +:+ skillName +:+ dquote +:+
  " has no trigger patterns. It will never activate.".

(** Merger.validateMergedSkillRules; the result is [valid] and
    [warnings]. *)
Definition validateMergedSkillRules (fragment : SkillRulesFragment)
  : bool * list string :=
  let blockingGuardrails :=
    default [] (getField "block:guardrail" (skillsByEnforcement fragment)) in
  let warnings :=
    if (1 <? length blockingGuardrails)%nat
    then [guardrailsWarning blockingGuardrails] else [] in
  let warnings :=
    fold_left
      (fun warnings '(skillName, skillRule) =>
         if negb (hasPromptTriggers skillRule) && negb (hasFileTriggers skillRule)
         then warnings ++ [triggersWarning skillName] else warnings)
      (skills fragment) warnings in
  (bool_decide (length warnings = 0%nat), warnings).

(** A skill is a blocking guardrail. *)
Definition isBlockingGuardrail (skillRule : SkillRule) : bool :=
  match enforcement skillRule, type skillRule with
  | Some block, Some guardrail => true
  | _, _ => false
  end.

(** Three skills listed from the lowest priority up, one of them without
    a priority, and two of the same priority. *)
Definition ruleOf (p : option Priority) (kw : list string) : SkillRule :=
  {| type := Some domain; enforcement := Some suggest; priority := p;
     promptTriggers := Some {| keywords := Some kw; intentPatterns := None |};
     fileTriggers := None |}.

Definition unsortedFragment : SkillRulesFragment :=
  {| skills := [("notes", ruleOf None ["n"; "n"]);
                ("style", ruleOf (Some low) ["s"]);
                ("api", ruleOf (Some high) ["a"; "b"; "a"]);
                ("security", ruleOf (Some critical) ["c"]);
                ("routes", ruleOf (Some high) ["r"])] |}.

(** * Installer: the remaining methods *)

(** [s.startsWith(needle)] and [s.includes(needle)], on the units of the
    strings; the needle used below is ASCII. *)
Fixpoint startsWith (needle s : text) : bool :=
  match needle, s with
  | [], _ => true
  | c :: needle', d :: s' => Ascii.eqb c d && startsWith needle' s'
  | _ :: _, [] => false
  end.

Fixpoint includesText (needle s : text) : bool :=
  startsWith needle s ||
  match s with
  | [] => false
  | _ :: s' => includesText needle s'
  end.





Section InstallerFiles.
(** [path.extname] and the UTF-8 codec, as for [copyFile]. *)
Variable extname : string -> string.
Variable decode : list Byte.byte -> text.
Variable encode : text -> list Byte.byte.
(** [path.pathJoin] *)
Variable pathJoin : string -> string -> string.
(** [fs.pathExists] on a directory and [glob] for every file (no
    directory, dot files too) below a directory, relative to it; both read
    the file system as it is when they are called. *)
Variable pathExists : FileSystem -> string -> bool.
Variable glob : FileSystem -> string -> list string.
(** [this.projectRoot] *)
Variable projectRoot : string.

(** The loop of [copyDirectory]: the files are copied one after the
    other, and the first copy that throws ends the loop. *)
Fixpoint copyFiles (files : list string) (fs : FileSystem) (src dest : string)
    (context : TemplateContext) (options : InstallOptions)
  : outcome FileSystem :=
  match files with
  | [] => Return fs
  | file :: files' =>
      fs' ← copyFile extname decode encode fs
              (pathJoin src file) (pathJoin dest file) context options;
      copyFiles files' fs' src dest context options
  end.

(** Installer.copyDirectory *)
Definition copyDirectory (fs : FileSystem) (src dest : string)
    (context : TemplateContext) (options : InstallOptions)
  : outcome FileSystem :=
  if negb (pathExists fs src) then Return fs
  else copyFiles (glob fs src) fs src dest context options.

End InstallerFiles.

(** Stand-ins for [path.pathJoin], [fs.pathExists] and [glob] on the inputs
    used below: paths are joined with a slash, and a directory holds the
    files whose path starts with its own. *)
Definition slashJoin (a b : string) : string := a +:+ "/" +:+ b.

Definition filesBelow (fs : FileSystem) (dir : string) : list string :=
  omap (fun p =>
          let prefix := String.list_ascii_of_string (dir +:+ "/") in
          let units := String.list_ascii_of_string p in
          if startsWith prefix units
          then Some (String.string_of_list_ascii (drop (length prefix) units))
          else None)
       (map fst (map_to_list fs)).

Definition dirExists (fs : FileSystem) (dir : string) : bool :=
  bool_decide (filesBelow fs dir <> []).

(** The sample project once the hooks of the kit are copied into it. *)
Definition installedProject : FileSystem :=
  <[ ".claude/hooks/logo.png" := bytesOf "{{PROJECT_ROOT}}" ]> sampleProject.


(** * Template engine: values that cannot take part in a placeholder *)

(** The text [w] occurs inside a key of the context. *)
Definition completesKey (context : TemplateContext) (w : text) : bool :=
  existsb (fun key => includesText w (String.list_ascii_of_string key))
    (map_to_list context).*1.

(** A value that cannot take part in a placeholder of the replaced text
    whose name the context knows: it has no brace, and either one of its
    units is not a name character or it occurs inside no key of the
    context.  The empty value occurs inside every key. *)
Definition safeValue (context : TemplateContext) (v : string) : bool :=
  let w := String.list_ascii_of_string v in
  noBrace w &&
  (existsb (fun c => negb (isNameChar c)) w || negb (completesKey context w)).

Definition safeContext (context : TemplateContext) : Prop :=
  map_Forall (fun _ v => safeValue context v = true) context.

(** A context as [createDefaultContext] and the installer fill it. *)
Definition projectContext : TemplateContext :=
  {[ "PROJECT_ROOT" := "/Users/alice/app";
     "PROJECT_NAME" := "APP";
     "FRONTEND_DIR" := "app2";
     "BACKEND_DIR" := "my_app" ]}.

(** * Validator and detector: the remaining methods *)

(** The messages of [validateSkillRulesFragment]. *)
Definition intentPatternMessage (skillName pattern : string) : string :=
  "Invalid regex pattern in " +:+ skillName +:+
  ".promptTriggers.intentPatterns: " +:+ pattern.

Definition contentPatternMessage (skillName pattern : string) : string :=
  "Invalid regex pattern in " +:+ skillName +:+
  ".fileTriggers.contentPatterns: " +:+ pattern.

Section FragmentValidator.
(** The compiled schema validator [validateSkillRulesFragment] of Ajv:
    whether the fragment passes, and the [errors] left on the function. *)
Variable validateSchema : SkillRulesFragment -> bool * option (list ErrorObject).

(** [new RegExp(pattern)] returns instead of throwing. *)
Variable compiles : string -> bool.

(** The two inner loops, which push the errors of one skill. *)
Definition pushPatternErrors (additionalErrors : list string)
    (skillName : string) (skill : SkillRule) : list string :=
  let additionalErrors :=
    match promptTriggers skill ≫= intentPatterns with
    | Some patterns =>
        fold_left
          (fun additionalErrors pattern =>
             if compiles pattern then additionalErrors
             else additionalErrors ++ [intentPatternMessage skillName pattern])
          patterns additionalErrors
    | None => additionalErrors
    end in
  let additionalErrors :=
    match fileTriggers skill ≫= contentPatterns with
    | Some patterns =>
        fold_left
          (fun additionalErrors pattern =>
             if compiles pattern then additionalErrors
             else additionalErrors ++ [contentPatternMessage skillName pattern])
          patterns additionalErrors
    | None => additionalErrors
    end in
  additionalErrors.

(** PluginValidator.validateSkillRulesFragment *)
Definition validateSkillRulesFragment (fragment : SkillRulesFragment)
  : ValidationResult :=
  match validateSchema fragment with
  | (false, Some schemaErrors) =>
      {| valid := false; errors := Some (formatErrors schemaErrors) |}
  | _ =>
      let additionalErrors :=
        fold_left
          (fun additionalErrors '(skillName, skill) =>
             pushPatternErrors additionalErrors skillName skill)
          (skills fragment) [] in
      if (0 <? length additionalErrors)%nat then
        {| valid := false; errors := Some additionalErrors |}
      else {| valid := true; errors := None |}
  end.
End FragmentValidator.

(** The patterns of a rule that are handed to [RegExp]. *)
Definition regexPatterns (skill : SkillRule) : list string :=
  default [] (promptTriggers skill ≫= intentPatterns) ++
  default [] (fileTriggers skill ≫= contentPatterns).

(** A stand-in for [RegExp] on the inputs used below: a pattern fails to
    compile when it has an opening parenthesis and no closing one. *)
Definition balanced (pattern : string) : bool :=
  negb (includes pattern "(") || includes pattern ")".

Definition acceptAll (fragment : SkillRulesFragment)
  : bool * option (list ErrorObject) := (true, None).

Definition regexFragment : SkillRulesFragment :=
  {| skills :=
       [("api",
         {| type := Some domain; enforcement := Some suggest; priority := Some high;
            promptTriggers :=
              Some {| keywords := Some ["(route"];
                      intentPatterns := Some ["(create|add).*route"; "(unclosed"] |};
            fileTriggers :=
              Some {| pathPatterns := Some ["src/(api"];
                      pathExclusions := None;
                      contentPatterns := Some ["router\."] |} |})] |}.

(** ** Project detection (cli/src/core/detector.ts) *)

Module Frontend.
Inductive Framework := react | nextjs | vue | svelte | angular.

#[global] Instance Framework_eq_dec : EqDecision Framework.
Proof. solve_decision. Defined.

(** [FrontendInfo], with the properties that the two methods below read. *)
Record Info := {
framework : option Framework;
directory : string;
hasMUI : bool;
hasShadcn : bool;
}.
End Frontend.

Module Backend.
Inductive Framework := express | fastify | nextjsApi | nest | koa.

#[global] Instance Framework_eq_dec : EqDecision Framework.
Proof. solve_decision. Defined.

(** [BackendInfo], with the properties that the two methods below read. *)
Record Info := {
framework : option Framework;
directory : string;
hasPrisma : bool;
hasSentry : bool;
}.
End Backend.

Record DetectedProject := {
  frontend : option Frontend.Info;
  backend : option Backend.Info;
  rootPath : string;
}.

(** [plugins.includes(name)] *)
Definition includesName (plugins : list string) (pluginName : string) : bool :=
  existsb (String.eqb pluginName) plugins.

(** ProjectDetector.getRecommendedPlugins *)
Definition getRecommendedPlugins (project : DetectedProject) : list string :=
  let plugins : list string := [] in
  let plugins :=
    match frontend project with
    | Some f =>
        if bool_decide (Frontend.framework f = Some Frontend.react) &&
           Frontend.hasMUI f
        then plugins ++ ["react-mui"]
        else if bool_decide (Frontend.framework f = Some Frontend.nextjs)
        then plugins ++ ["nextjs"]
        else if bool_decide (Frontend.framework f = Some Frontend.react) &&
                Frontend.hasShadcn f
        then plugins ++ ["shadcn"]
        else if bool_decide (Frontend.framework f = Some Frontend.vue)
        then plugins ++ ["vue"]
        else if bool_decide (Frontend.framework f = Some Frontend.svelte)
        then plugins ++ ["svelte"]
        else plugins
    | None => plugins
    end in
  let plugins :=
    match backend project with
    | Some b =>
        if bool_decide (Backend.framework b = Some Backend.express)
        then plugins ++ ["express"]
        else if bool_decide (Backend.framework b = Some Backend.fastify)
        then plugins ++ ["fastify"]
        else if bool_decide (Backend.framework b = Some Backend.nextjsApi)
        then (if negb (includesName plugins "nextjs")
              then plugins ++ ["nextjs"] else plugins)
        else plugins
    | None => plugins
    end in
  let plugins :=
    if from_option Backend.hasSentry false (backend project) ||
       from_option Frontend.hasMUI false (frontend project)
    then plugins ++ ["sentry"] else plugins in
  let plugins :=
    if from_option Backend.hasPrisma false (backend project)
    then plugins ++ ["prisma"] else plugins in
  plugins.

(** A full-stack project: Next.js with MUI in front, its API routes and
    Prisma behind. *)
Definition fullstackProject : DetectedProject :=
  {| frontend := Some {| Frontend.framework := Some Frontend.nextjs;
                         Frontend.directory := "web";
                         Frontend.hasMUI := true; Frontend.hasShadcn := false |};
     backend := Some {| Backend.framework := Some Backend.nextjsApi;
                        Backend.directory := "web";
                        Backend.hasPrisma := true; Backend.hasSentry := false |};
     rootPath := "/srv/app" |}.

(** * Facts about the template engine *)

Lemma spanName_app s n r :
  spanName s = (n, r) -> s = n ++ r /\ forallb isNameChar n = true.
Proof.
  revert n r. induction s as [|c s IH]; intros n r; simpl.
  - intros [= <- <-]. done.
  - destruct (isNameChar c) eqn:Hc.
    + destruct (spanName s) as [n' r'] eqn:Hs. intros [= <- <-].
      destruct (IH _ _ eq_refl) as [-> Hn]. simpl. by rewrite Hc, Hn.
    + intros [= <- <-]. done.
Qed.

Lemma spanName_stop n r :
  forallb isNameChar n = true ->
  match r with c :: _ => isNameChar c = false | [] => True end ->
  spanName (n ++ r) = (n, r).
Proof.
  induction n as [|c n IH]; simpl; intros Hn Hr.
  - destruct r as [|c r]; [done|]. simpl. by rewrite Hr.
  - apply andb_prop in Hn as [-> Hn]. by rewrite IH.
Qed.

Lemma matchVariable_Some s n rest :
  matchVariable s = Some (n, rest) ->
  s = placeholder n ++ rest /\ isName n = true.
Proof.
  unfold matchVariable.
  destruct s as [|c1 [|c2 [|c s1]]]; try done.
  destruct (Ascii.eqb_spec c1 "{"%char) as [->|]; [|done].
  destruct (Ascii.eqb_spec c2 "{"%char) as [->|]; [|done].
  destruct (isNameStart c) eqn:Hc; [|done]. simpl.
  destruct (spanName s1) as [m [|d1 [|d2 r]]] eqn:Hs; try done.
  destruct (Ascii.eqb_spec d1 "}"%char) as [->|]; [|done].
  destruct (Ascii.eqb_spec d2 "}"%char) as [->|]; [|done].
  simpl. intros [= <- <-].
  destruct (spanName_app _ _ _ Hs) as [-> Hm].
  split; [|by simpl; rewrite Hc, Hm].
  unfold placeholder. simpl. by rewrite <- !app_assoc.
Qed.

Lemma matchVariable_placeholder n rest :
  isName n = true -> matchVariable (placeholder n ++ rest) = Some (n, rest).
Proof.
  destruct n as [|c n]; [done|]. simpl. intros [Hc Hn]%andb_prop.
  rewrite Hc. simpl. rewrite <- app_assoc.
  by rewrite (spanName_stop n (["}"; "}"]%char ++ rest)).
Qed.

Lemma scanFrom_drop k s : scanFrom k s = scan (drop k s).
Proof.
  revert s. induction k as [|k IH]; intros [|c s]; try done. simpl. apply IH.
Qed.

Lemma placeholder_length n : length (placeholder n) = (length n + 4)%nat.
Proof. unfold placeholder. simpl. rewrite length_app. simpl. lia. Qed.

(** The scan, one step at a time. *)
Lemma scan_cons c s :
  scan (c :: s) =
  match matchVariable (c :: s) with
  | Some (n, rest) => Match n :: scan rest
  | None => Unit c :: scan s
  end.
Proof.
  unfold scan at 1. cbn [scanFrom].
  destruct (matchVariable (c :: s)) as [[n rest]|] eqn:Hm; [|done].
  rewrite scanFrom_drop. f_equal. f_equal.
  apply matchVariable_Some in Hm as [Hs _].
  unfold placeholder in Hs. simpl in Hs. injection Hs as -> ->.
  change ("{" :: (n ++ ["}"; "}"]) ++ rest)%char
    with (["{"%char] ++ (n ++ ["}"; "}"]%char) ++ rest).
  rewrite !app_assoc, drop_app_length'; [done|].
  rewrite !length_app. simpl. lia.
Qed.

Lemma scan_nil : scan [] = [].
Proof. done. Qed.

Lemma scan_placeholder n rest :
  isName n = true -> scan (placeholder n ++ rest) = Match n :: scan rest.
Proof.
  intros Hn. pose proof (matchVariable_placeholder n rest Hn) as Hm.
  change (placeholder n ++ rest)
    with ("{"%char :: ("{"%char :: n ++ ["}"; "}"]%char) ++ rest) in *.
  by rewrite scan_cons, Hm.
Qed.

Lemma isNameStart_isNameChar c : isNameStart c = true -> isNameChar c = true.
Proof. unfold isNameChar. by intros ->. Qed.

Lemma spanName_app_stop p f :
  match f with c :: _ => isNameChar c = false | [] => True end ->
  spanName (p ++ f) = let '(n, r) := spanName p in (n, r ++ f).
Proof.
  intros Hf. induction p as [|c p IH]; simpl.
  - destruct f as [|d f]; [done|]. simpl. by rewrite Hf.
  - destruct (isNameChar c); [|done]. rewrite IH. by destruct (spanName p).
Qed.

Lemma matchVariable_app_stop p f :
  p <> [] -> stops f = true ->
  matchVariable (p ++ f) = (fun '(n, r) => (n, r ++ f)) <$> matchVariable p.
Proof.
  intros Hp Hf.
  assert (Hhead : match f with c :: _ => isNameChar c = false | [] => True end).
  { destruct f as [|d f]; [done|]. simpl in Hf.
    by destruct (isNameChar d). }
  destruct p as [|c1 [|c2 [|c p1]]]; [done| | |].
  - destruct f as [|d1 [|d2 f]]; try done. simpl in *.
    destruct (Ascii.eqb c1 "{"); [|done].
    destruct (Ascii.eqb d1 "{"); [|done].
    destruct (isNameStart d2); [|done].
    by rewrite !andb_true_r, andb_false_r in Hf.
  - destruct f as [|d1 f]; [done|]. simpl in *.
    destruct (isNameStart d1) eqn:Hd; [|by rewrite andb_false_r].
    apply isNameStart_isNameChar in Hd. congruence.
  - simpl. destruct (Ascii.eqb c1 "{" && Ascii.eqb c2 "{" && isNameStart c);
      [|done].
    rewrite (spanName_app_stop p1 f Hhead).
    destruct (spanName p1) as [n [|e1 [|e2 r]]]; simpl.
    + destruct f as [|d1 [|d2 f]]; try done. simpl in Hf.
      destruct (Ascii.eqb d1 "}"); [|done].
      by rewrite andb_false_r in Hf.
    + destruct f as [|d1 f]; [done|]. simpl in Hf.
      destruct (Ascii.eqb d1 "}"); [|by rewrite andb_false_r].
      by rewrite andb_false_r in Hf.
    + by destruct (Ascii.eqb e1 "}" && Ascii.eqb e2 "}").
Qed.

Lemma scan_app_stop p f :
  stops f = true -> scan (p ++ f) = scan p ++ scan f.
Proof.
  intros Hf. remember (length p) as k eqn:Hk.
  revert p Hk. induction k as [k IH] using lt_wf_ind. intros [|c p] Hk.
  - done.
  - change ((c :: p) ++ f) with (c :: p ++ f). rewrite !scan_cons.
    change (c :: p ++ f) with ((c :: p) ++ f).
    rewrite matchVariable_app_stop by done.
    destruct (matchVariable (c :: p)) as [[n r]|] eqn:Hm; simpl.
    + apply matchVariable_Some in Hm as [Hs _].
      rewrite (IH (length r)); [done| |done].
      subst k. rewrite Hs, length_app, placeholder_length. lia.
    + rewrite (IH (length p)); [done| |done]. subst k. simpl. lia.
Qed.

Lemma scan_inert c s : inert c = true -> scan (c :: s) = Unit c :: scan s.
Proof.
  intros Hc. rewrite scan_cons. unfold matchVariable.
  destruct s as [|c2 [|c3 s]]; try done.
  unfold inert in Hc. by destruct (Ascii.eqb c "{"); [rewrite andb_false_r in Hc|].
Qed.

Lemma scan_inert_app v s :
  forallb inert v = true -> scan (v ++ s) = (Unit <$> v) ++ scan s.
Proof.
  induction v as [|c v IH]; [done|]. simpl. intros [Hc Hv]%andb_prop.
  rewrite scan_inert by done. by rewrite IH.
Qed.

Lemma stops_inert c s : inert c = true -> stops (c :: s) = true.
Proof.
  unfold inert, stops. intros [[H1 H2]%andb_prop H3]%andb_prop.
  rewrite H1, H3. apply negb_true_iff in H2. by rewrite H2.
Qed.

Lemma stops_placeholder n s : stops (placeholder n ++ s) = true.
Proof. by destruct n. Qed.

Lemma elem_of_matchedNames x gs :
  x ∈ matchedNames gs <->
  exists n, Match n ∈ gs /\ x = String.string_of_list_ascii n.
Proof.
  unfold matchedNames. rewrite list_elem_of_omap. split.
  - intros [[c|n] [Hin Heq]]; [done|]. injection Heq as <-. eauto.
  - intros (n & Hin & ->). by exists (Match n).
Qed.

Lemma matchedNames_app gs hs :
  matchedNames (gs ++ hs) = matchedNames gs ++ matchedNames hs.
Proof. apply omap_app. Qed.

Lemma matchedNames_units v : matchedNames (Unit <$> v) = [].
Proof. by induction v. Qed.

(** A scan whose matches are all absent from the context is written back
    unit for unit. *)
Lemma replaceText_absent context s :
  Forall (segmentAbsent context) (scan s) -> replaceText s context = s.
Proof.
  unfold replaceText. remember (length s) as k eqn:Hk.
  revert s Hk. induction k as [k IH] using lt_wf_ind. intros [|c s] Hk; [done|].
  rewrite scan_cons.
  destruct (matchVariable (c :: s)) as [[n r]|] eqn:Hm.
  - intros [Hn Hr]%Forall_cons. simpl in Hn.
    apply matchVariable_Some in Hm as [Hs _]. rewrite Hs. simpl flat_map.
    unfold replacer. rewrite Hn. f_equal.
    apply (IH (length r)); [|done..].
    subst k. rewrite Hs, length_app, placeholder_length. lia.
  - intros [_ Hr]%Forall_cons. simpl. f_equal.
    apply (IH (length s)); [|done..]. subst k. simpl. lia.
Qed.

(** Every text either has no match that the context knows, or splits at
    the first such match. *)
Lemma scan_first_known (context : TemplateContext) s :
  Forall (segmentAbsent context) (scan s) \/
  exists p n q v,
    s = p ++ placeholder n ++ q /\
    context !! String.string_of_list_ascii n = Some v /\
    Forall (segmentAbsent context) (scan p) /\
    scan s = scan p ++ Match n :: scan q.
Proof.
  remember (length s) as k eqn:Hk.
  revert s Hk. induction k as [k IH] using lt_wf_ind. intros [|c s] Hk.
  { left. constructor. }
  rewrite scan_cons.
  destruct (matchVariable (c :: s)) as [[n r]|] eqn:Hm.
  - pose proof Hm as [Hs Hn]%matchVariable_Some.
    destruct (context !! String.string_of_list_ascii n) as [v|] eqn:Hv.
    + right. exists [], n, r, v. by rewrite scan_nil.
    + destruct (IH (length r)) with (s := r) as [Hall|(p & n' & q & v & -> & Hv' & Hp & Hq)];
        [subst k; rewrite Hs, length_app, placeholder_length; lia|done| |].
      * left. by constructor.
      * right. exists (placeholder n ++ p), n', q, v.
        rewrite scan_placeholder by done.
        split_and!; [by rewrite Hs, <- app_assoc|done|by constructor|].
        by rewrite Hq.
  - destruct (IH (length s)) with (s := s) as [Hall|(p & n' & q & v & -> & Hv' & Hp & Hq)];
      [subst k; simpl; lia|done| |].
    + left. by constructor.
    + right. exists (c :: p), n', q, v.
      assert (Hnone : matchVariable (c :: p) = None).
      { change (c :: p ++ placeholder n' ++ q)
          with ((c :: p) ++ placeholder n' ++ q) in Hm.
        rewrite matchVariable_app_stop in Hm
          by (done || apply stops_placeholder).
        by destruct (matchVariable (c :: p)). }
      rewrite scan_cons, Hnone.
      split_and!; [done|done|by constructor|]. by rewrite Hq.
Qed.

Lemma scan_replaceText_absent context s :
  inertContext context ->
  Forall (segmentAbsent context) (scan (replaceText s context)).
Proof.
  intros Hctx. remember (length s) as k eqn:Hk.
  revert s Hk. induction k as [k IH] using lt_wf_ind. intros s Hk.
  destruct (scan_first_known context s)
    as [Hall|(p & n & q & v & Hs & Hv & Hp & Hq)].
  - by rewrite replaceText_absent.
  - assert (Hrep : replaceText s context =
                   p ++ String.list_ascii_of_string v ++ replaceText q context).
    { unfold replaceText at 1. rewrite Hq, flat_map_app. simpl.
      unfold replacer. rewrite Hv. f_equal.
      by apply replaceText_absent. }
    rewrite Hrep. pose proof (Hctx _ _ Hv) as Hin. unfold inertValue in Hin.
    destruct (String.list_ascii_of_string v) as [|c w] eqn:Hw; [done|].
    simpl in Hin. apply andb_prop in Hin as [Hc Hin].
    rewrite scan_app_stop by (by apply stops_inert).
    rewrite (scan_inert_app (c :: w)) by (simpl; by rewrite Hc, Hin).
    rewrite !Forall_app. split_and!; [done| |].
    + apply Forall_fmap, Forall_true. done.
    + apply (IH (length q)); [|done].
      subst k. rewrite Hs, !length_app, placeholder_length. lia.
Qed.

Lemma elem_of_arrayFromSet_string x (xs : list string) :
  x ∈ arrayFromSet String.eqb xs <-> x ∈ xs.
Proof.
  induction xs as [|y xs IH]; simpl; [done|].
  rewrite !elem_of_cons, list_elem_of_filter, IH.
  destruct (String.eqb_spec y x) as [->|Hne]; simpl; [tauto|].
  split; [tauto|]. intros [->|Hx]; [by left|right]. done.
Qed.

(** A reported match is a well-formed placeholder of the text. *)
Lemma scan_Match_occurs n s :
  Match n ∈ scan s ->
  isName n = true /\ exists a b, s = a ++ placeholder n ++ b.
Proof.
  remember (length s) as k eqn:Hk.
  revert s Hk. induction k as [k IH] using lt_wf_ind. intros [|c s] Hk.
  { by intros ?%elem_of_nil. }
  rewrite scan_cons.
  destruct (matchVariable (c :: s)) as [[m r]|] eqn:Hm.
  - pose proof Hm as [Hs Hname]%matchVariable_Some.
    intros [[= ->]|Hin]%elem_of_cons.
    + split; [done|]. by exists [], r.
    + destruct (IH (length r)) with (s := r) as [Hn (a & b & ->)];
        [subst k; rewrite Hs, length_app, placeholder_length; lia|done..|].
      split; [done|]. exists (placeholder m ++ a), b.
      by rewrite Hs, <- app_assoc.
  - intros [[=]|Hin]%elem_of_cons.
    destruct (IH (length s)) with (s := s) as [Hn (a & b & ->)];
      [subst k; simpl; lia|done..|].
    split; [done|]. by exists (c :: a), b.
Qed.

(** Conversely every well-formed placeholder of the text is matched. *)
Lemma scan_finds_placeholder a n b :
  isName n = true -> Match n ∈ scan (a ++ placeholder n ++ b).
Proof.
  intros Hn. rewrite scan_app_stop by apply stops_placeholder.
  rewrite scan_placeholder by done. set_solver.
Qed.

Lemma hasVariables_false_iff s :
  hasVariables s = false <->
  forall a n b, isName n = true ->
    String.list_ascii_of_string s <> a ++ placeholder n ++ b.
Proof.
  unfold hasVariables. rewrite bool_decide_eq_false. split.
  - intros Hnil a n b Hn Hs. apply Hnil. intros Hempty.
    pose proof (scan_finds_placeholder a n b Hn) as Hin.
    rewrite <- Hs in Hin.
    assert (String.string_of_list_ascii n ∈
            matchedNames (scan (String.list_ascii_of_string s))) as Hx
      by (apply elem_of_matchedNames; eauto).
    rewrite Hempty in Hx. by apply elem_of_nil in Hx.
  - intros Hno Hne. apply Hne.
    destruct (matchedNames _) as [|x xs] eqn:Hx; [done|].
    assert (x ∈ matchedNames (scan (String.list_ascii_of_string s))) as Hin
      by (rewrite Hx; apply elem_of_cons; by left).
    apply elem_of_matchedNames in Hin as (n & Hin & _).
    apply scan_Match_occurs in Hin as [Hn (a & b & Hs)].
    by destruct (Hno a n b Hn).
Qed.

Lemma no_matches_absent context s :
  matchedNames (scan s) = [] -> Forall (segmentAbsent context) (scan s).
Proof.
  intros Hnil. apply Forall_forall. intros [c|n] Hin; [done|].
  assert (String.string_of_list_ascii n ∈ matchedNames (scan s)) as Hx
    by (apply elem_of_matchedNames; eauto).
  rewrite Hnil in Hx. by apply elem_of_nil in Hx.
Qed.

Lemma noBrace_spec w :
  noBrace w = true -> ("{"%char ∉ w) /\ ("}"%char ∉ w).
Proof.
  unfold noBrace. rewrite forallb_forall. intros Hw.
  split; intros Hin%list_elem_of_In%Hw; done.
Qed.

Lemma isNameChar_not_brace c :
  isNameChar c = true -> c <> "{"%char /\ c <> "}"%char.
Proof. intros Hc. split; intros ->; done. Qed.

Lemma name_noBrace n :
  forallb isNameChar n = true -> ("{"%char ∉ n) /\ ("}"%char ∉ n).
Proof.
  intros Hn. rewrite forallb_forall in Hn. split; intros Hin;
    apply list_elem_of_In, Hn, isNameChar_not_brace in Hin; tauto.
Qed.

Lemma app_closing_inj (w n x y : text) :
  "}"%char ∉ w -> "}"%char ∉ n ->
  w ++ "}"%char :: x = n ++ "}"%char :: y -> w = n.
Proof.
  revert n. induction w as [|c w IH]; intros [|d n] Hw Hn; simpl; try done.
  - intros [= <- _]. destruct Hn. by left.
  - intros [= -> _]. destruct Hw. by left.
  - intros [= -> Heq]. f_equal. apply IH; [| |done].
    + intros ?. apply Hw. by right.
    + intros ?. apply Hn. by right.
Qed.

(** Text between double braces that is not a name and holds no brace
    contains no placeholder. *)
Lemma braced_no_placeholder w a n b :
  noBrace w = true -> isName w = false -> isName n = true ->
  braced w <> a ++ placeholder n ++ b.
Proof.
  intros [Hl Hr]%noBrace_spec Hw Hn Heq. unfold braced, placeholder in Heq.
  assert (Hnb : ("{"%char ∉ n) /\ ("}"%char ∉ n)).
  { destruct n as [|c n]; [done|]. simpl in Hn.
    apply andb_prop in Hn as [Hc Hn]. apply name_noBrace. simpl.
    by rewrite (isNameStart_isNameChar c Hc), Hn. }
  destruct a as [|c1 [|c2 a]]; simpl in Heq.
  - injection Heq as Heq. rewrite <- app_assoc in Heq. simpl in Heq.
    apply app_closing_inj in Heq; [congruence|done|apply Hnb].
  - injection Heq as _ Heq. destruct w as [|d w]; [done|].
    injection Heq as -> _. destruct Hl. by left.
  - injection Heq as _ _ Heq.
    assert ("{"%char ∈ w ++ ["}"; "}"]%char) as [Hin|Hin]%elem_of_app.
    { rewrite Heq. apply elem_of_app. right. by left. }
    + done.
    + by repeat (apply elem_of_cons in Hin as [?|Hin]; [done|]);
        apply elem_of_nil in Hin.
Qed.

Lemma list_ascii_of_string_app (a b : string) :
  String.list_ascii_of_string (a +:+ b) =
  String.list_ascii_of_string a ++ String.list_ascii_of_string b.
Proof. induction a as [|c a IH]; [done|]. simpl. by rewrite IH. Qed.

Lemma string_of_list_ascii_app (v w : text) :
  String.string_of_list_ascii (v ++ w) =
  String.string_of_list_ascii v +:+ String.string_of_list_ascii w.
Proof. induction v as [|c v IH]; [done|]. simpl. by rewrite IH. Qed.

Lemma startsWith_app needle s : startsWith needle (needle ++ s) = true.
Proof.
  induction needle as [|c needle IH]; [done|]. simpl.
  by rewrite Ascii.eqb_refl, IH.
Qed.

Lemma includesText_startsWith needle s :
  startsWith needle s = true -> includesText needle s = true.
Proof. intros H. destruct s; simpl; by rewrite H. Qed.

Lemma includesText_app needle a b : includesText needle (a ++ needle ++ b) = true.
Proof.
  induction a as [|c a IH]; simpl.
  - apply includesText_startsWith, startsWith_app.
  - rewrite IH. apply orb_true_r.
Qed.

(** ** Values that cannot take part in a placeholder *)

Lemma noBrace_app v w : noBrace (v ++ w) = noBrace v && noBrace w.
Proof. apply forallb_app. Qed.

Lemma noBrace_elem w c : noBrace w = true -> c ∈ w -> c <> "{"%char /\ c <> "}"%char.
Proof.
  unfold noBrace. rewrite forallb_forall. intros Hw Hc%list_elem_of_In.
  apply Hw in Hc. apply andb_prop in Hc as [Ho Hc].
  split; intros ->; done.
Qed.

Lemma name_chars_noBrace v : forallb isNameChar v = true -> noBrace v = true.
Proof.
  unfold noBrace. rewrite !forallb_forall. intros Hv c Hc.
  destruct (isNameChar_not_brace c (Hv c Hc)) as [Ho Hcl].
  destruct (Ascii.eqb_spec c "{"), (Ascii.eqb_spec c "}"); done.
Qed.

Lemma isName_chars n : isName n = true -> forallb isNameChar n = true.
Proof.
  destruct n as [|c n]; [done|]. simpl. intros [Hc Hn]%andb_prop.
  by rewrite (isNameStart_isNameChar c Hc), Hn.
Qed.

(** An occurrence of [m] in a text cut in two lies before the cut, after
    it, or across it. *)
Lemma occurrence_cut (a m b x y : text) :
  a ++ m ++ b = x ++ y ->
  (exists b', x = a ++ m ++ b') \/
  (exists a', y = a' ++ m ++ b) \/
  (exists m1 m2, m1 <> [] /\ m2 <> [] /\ m = m1 ++ m2 /\
                 x = a ++ m1 /\ y = m2 ++ b).
Proof.
  intros [k [[-> ->]|[-> Hm]]]%app_eq_app.
  - right. left. by exists k.
  - apply app_eq_app in Hm as [k' [[-> ->]|[-> ->]]].
    + destruct k as [|c k].
      { right. left. by exists []. }
      destruct k' as [|c' k'].
      { left. exists []. by rewrite !app_nil_r. }
      right. right. by exists (c :: k), (c' :: k').
    + left. by exists k'.
Qed.

Lemma app_two_last (n l : text) (c d e : ascii) :
  n ++ [c; d] = l ++ [e] -> n ++ [c] = l /\ d = e.
Proof.
  change (n ++ [c; d]) with (n ++ [c] ++ [d]). rewrite (assoc_L (++)).
  apply app_inj_tail.
Qed.

Lemma noBrace_last w l c : noBrace w = true -> w <> [] -> l ++ w = c -> last c <> Some "}"%char.
Proof.
  intros Hw Hne <-. destruct w as [|d w _] using rev_ind; [done|].
  rewrite (assoc_L (++)), last_snoc. intros [= ->].
  rewrite noBrace_app in Hw. by apply andb_prop in Hw as [_ Hw].
Qed.

(** A text without braces inside a placeholder lies inside the name. *)
Lemma inside_placeholder (m1 v x n : text) :
  m1 <> [] -> x <> [] -> noBrace v = true ->
  placeholder n = m1 ++ v ++ x ->
  exists pre post, n = pre ++ v ++ post.
Proof.
  intros Hm1 Hx Hv Heq. destruct v as [|d v].
  { by exists [], n. }
  unfold placeholder in Heq.
  destruct m1 as [|c1 [|c2 m1]]; [done| |].
  { injection Heq as _ Heq. rewrite <- Heq in Hv. done. }
  injection Heq as _ _ Heq.
  destruct x as [|e x _] using rev_ind; [done|].
  assert (Heq1 : n ++ ["}"; "}"]%char = (m1 ++ (d :: v) ++ x) ++ [e])
    by (by rewrite <- !(assoc_L (++))).
  apply app_two_last in Heq1 as [Heq1 _].
  destruct x as [|e' x _] using rev_ind.
  - exfalso. rewrite app_nil_r in Heq1. symmetry in Heq1.
    apply (noBrace_last (d :: v) m1 _ Hv) in Heq1; [|done].
    by rewrite last_snoc in Heq1.
  - exists m1, x. rewrite !(assoc_L (++)) in Heq1.
    apply app_inj_tail in Heq1 as [Heq1 _].
    by rewrite <- (assoc_L (++)) in Heq1.
Qed.

Lemma placeholder_first n : exists rest, placeholder n = "{"%char :: rest.
Proof. by eexists. Qed.

Lemma placeholder_last n : exists rest, placeholder n = rest ++ ["}"%char].
Proof.
  exists ("{" :: "{" :: n ++ ["}"])%char. unfold placeholder. simpl.
  by rewrite <- (assoc_L (++)).
Qed.

Lemma elem_of_keys (context : TemplateContext) key value :
  context !! key = Some value -> key ∈ (map_to_list context).*1.
Proof.
  intros H. apply list_elem_of_fmap. exists (key, value).
  split; [done|]. by apply elem_of_map_to_list.
Qed.

(** In a text made of [p], a safe value and [r], a placeholder whose name
    the context knows lies in [p] or in [r]. *)
Lemma known_placeholder_safe (context : TemplateContext) a n b p v r value :
  safeValue context v = true -> isName n = true ->
  context !! String.string_of_list_ascii n = Some value ->
  a ++ placeholder n ++ b = p ++ String.list_ascii_of_string v ++ r ->
  (exists b', p = a ++ placeholder n ++ b') \/
  (exists a', r = a' ++ placeholder n ++ b).
Proof.
  unfold safeValue. cbv zeta. set (w := String.list_ascii_of_string v).
  intros [Hb Hsafe]%andb_prop Hn Hkey Heq.
  assert (Hw : forall c, c ∈ w -> c <> "{"%char /\ c <> "}"%char)
    by (intros c; by apply noBrace_elem).
  destruct (placeholder_first n) as [tl Hfirst].
  destruct (placeholder_last n) as [hd Hlast].
  apply occurrence_cut in Heq as [Hleft|[[a' Hright]|Hacross]]; [by left| |].
  - (* the placeholder starts in the value or after it *)
    symmetry in Hright.
    apply occurrence_cut in Hright as [[b' Hin]|[Hr|Hin]]; [|by right|].
    + exfalso. destruct (Hw "{"%char); [|done].
      rewrite Hin, Hfirst. apply elem_of_app. right. by left.
    + exfalso. destruct Hin as (m1 & m2 & Hm1 & _ & Hm & Hv & _).
      destruct m1 as [|c m1]; [done|]. rewrite Hfirst in Hm. injection Hm as <- _.
      destruct (Hw "{"%char); [|done].
      rewrite Hv. apply elem_of_app. right. by left.
  - (* the placeholder starts in [p] and ends after it *)
    destruct Hacross as (m1 & m2 & Hm1 & Hm2 & Hm & Hp & Hrest).
    symmetry in Hrest. apply app_eq_app in Hrest as [k [[Hm2v Hrk]|[Hwk Hbk]]].
    + (* the value lies inside the placeholder *)
      destruct k as [|e k].
      { exfalso. rewrite app_nil_r in Hm2v. subst m2.
        destruct w as [|d w' _] using rev_ind; [done|].
        rewrite (assoc_L (++)), Hlast in Hm. apply app_inj_tail in Hm as [_ <-].
        destruct (Hw "}"%char); [|done]. apply elem_of_app. right. by left. }
      subst m2.
      destruct (inside_placeholder m1 w (e :: k) n) as (pre & post & Hin);
        [done..|].
      exfalso. apply orb_prop in Hsafe as [Hex|Hno].
      * apply existsb_exists in Hex as (c & Hc & Hnc).
        pose proof (isName_chars n Hn) as Hall. rewrite forallb_forall in Hall.
        rewrite (Hall c) in Hnc; [done|].
        rewrite Hin. apply in_or_app. right. apply in_or_app. by left.
      * apply negb_true_iff in Hno.
        assert (completesKey context w = true) as Hyes; [|congruence].
        unfold completesKey. apply existsb_exists.
        exists (String.string_of_list_ascii n). split.
        -- apply list_elem_of_In. by eapply elem_of_keys.
        -- rewrite String.list_ascii_of_string_of_list_ascii, Hin.
           apply includesText_app.
    + (* the placeholder ends in the value *)
      exfalso. destruct m2 as [|c m2 _] using rev_ind; [done|].
      rewrite (assoc_L (++)), Hlast in Hm. apply app_inj_tail in Hm as [_ <-].
      destruct (Hw "}"%char); [|done].
      rewrite Hwk. apply elem_of_app. left. apply elem_of_app. right. by left.
Qed.

Lemma scan_replaceText_safe context s :
  safeContext context ->
  Forall (segmentAbsent context) (scan (replaceText s context)).
Proof.
  intros Hctx. remember (length s) as k eqn:Hk.
  revert s Hk. induction k as [k IH] using lt_wf_ind. intros s Hk.
  destruct (scan_first_known context s)
    as [Hall|(p & n & q & v & Hs & Hv & Hp & Hq)].
  - by rewrite replaceText_absent.
  - assert (Hrep : replaceText s context =
                   p ++ String.list_ascii_of_string v ++ replaceText q context).
    { unfold replaceText at 1. rewrite Hq, flat_map_app. simpl.
      unfold replacer. rewrite Hv. f_equal.
      by apply replaceText_absent. }
    assert (Hrest : Forall (segmentAbsent context) (scan (replaceText q context))).
    { apply (IH (length q)); [|done].
      subst k. rewrite Hs, !length_app, placeholder_length. lia. }
    rewrite Hrep. pose proof (Hctx _ _ Hv) as Hsafe. cbv beta in Hsafe.
    apply Forall_forall. intros [c|m] Hin; [done|]. simpl.
    apply scan_Match_occurs in Hin as [Hm (a & b & Heq)].
    destruct (context !! String.string_of_list_ascii m) as [value|] eqn:Hkey;
      [exfalso|done].
    symmetry in Heq.
    rewrite Forall_forall in Hp, Hrest.
    destruct (known_placeholder_safe _ _ _ _ _ _ _ _ Hsafe Hm Hkey Heq)
      as [[b' ->]|[a' Hr]].
    + pose proof (Hp (Match m) (scan_finds_placeholder a m b' Hm)) as Habs.
      simpl in Habs. congruence.
    + pose proof (Hrest (Match m)) as Habs. rewrite Hr in Habs.
      specialize (Habs (scan_finds_placeholder a' m b Hm)).
      simpl in Habs. congruence.
Qed.

Lemma dropUnits_zero s : dropUnits 0 s = s.
Proof. by destruct s. Qed.

Lemma dropUnits_suffix lastIndex s : exists before, s = before ++ dropUnits lastIndex s.
Proof.
  revert lastIndex. induction s as [|c s IH]; intros lastIndex; [by exists []|].
  destruct lastIndex as [|k]; [by exists []|]. cbn [dropUnits].
  destruct (IH (S k - codeUnits c)) as [before Hs].
  exists (c :: before). simpl. by rewrite <- Hs.
Qed.

Lemma elem_of_extractVariablesAt lastIndex s x :
  x ∈ extractVariablesAt lastIndex s ->
  exists n, x = String.string_of_list_ascii n /\ isName n = true /\
    exists a b, String.list_ascii_of_string s = a ++ placeholder n ++ b.
Proof.
  unfold extractVariablesAt. rewrite elem_of_arrayFromSet_string.
  intros (n & Hn & ->)%elem_of_matchedNames.
  apply scan_Match_occurs in Hn as [Hname (a & b & Heq)].
  exists n. split_and!; [done..|].
  destruct (dropUnits_suffix lastIndex (String.list_ascii_of_string s))
    as [before Hs].
  exists (before ++ a), b.
  by rewrite <- (assoc_L (++)), <- Heq.
Qed.

Lemma extractVariablesAt_zero s : extractVariablesAt 0 s = extractVariables s.
Proof. unfold extractVariablesAt. by rewrite dropUnits_zero. Qed.

Lemma extractVariablesAt_subseteq lastIndex s x :
  x ∈ extractVariablesAt lastIndex s -> x ∈ extractVariables s.
Proof.
  intros (n & -> & Hn & a & b & Heq)%elem_of_extractVariablesAt.
  unfold extractVariables. apply elem_of_arrayFromSet_string.
  apply elem_of_matchedNames. exists n. split; [|done].
  rewrite Heq. by apply scan_finds_placeholder.
Qed.

Lemma extractVariablesAt_nil lastIndex s :
  extractVariables s = [] -> extractVariablesAt lastIndex s = [].
Proof.
  intros Hnil. destruct (extractVariablesAt lastIndex s) as [|x xs] eqn:Hx; [done|].
  assert (x ∈ extractVariablesAt lastIndex s) as Hin%extractVariablesAt_subseteq
    by (rewrite Hx; apply elem_of_cons; by left).
  rewrite Hnil in Hin. by apply elem_of_nil in Hin.
Qed.

(** C9, as the code has it: the names left after a substitution are
    outside the context as soon as every value of the context holds no
    brace and either holds a character that is not a name character or
    occurs inside no key of the context (the empty value occurs inside
    every key), whatever [lastIndex] the pattern has when the names are
    extracted; and a text in which no well-formed placeholder occurs is
    returned unchanged. *)
Theorem extractVariables_replaceVariables (s : string) (context : TemplateContext) :
  (safeContext context ->
   forall lastIndex x,
     x ∈ extractVariablesAt lastIndex (replaceVariables s context) ->
     context !! x = None) /\
  ((forall a n b, isName n = true ->
      String.list_ascii_of_string s <> a ++ placeholder n ++ b) ->
   replaceVariables s context = s).
Proof.
  split.
  - intros Hctx lastIndex x
      (n & -> & Hn & a & b & Heq)%elem_of_extractVariablesAt.
    unfold replaceVariables in Heq.
    rewrite String.list_ascii_of_string_of_list_ascii in Heq.
    pose proof (scan_replaceText_safe context (String.list_ascii_of_string s) Hctx)
      as Hall.
    rewrite Forall_forall in Hall. apply (Hall (Match n)).
    rewrite Heq. by apply scan_finds_placeholder.
  - intros Hno. unfold replaceVariables.
    rewrite replaceText_absent; [apply String.string_of_list_ascii_of_string|].
    apply Forall_forall. intros [c|n] Hin; [done|].
    apply scan_Match_occurs in Hin as [Hn (a & b & Hs)].
    by destruct (Hno a n b Hn).
Qed.

Lemma extractVariables_replaceVariables_witness :
  safeContext projectContext /\
  extractVariablesAt 0
    (replaceVariables "{{PROJECT_{{PROJECT_NAME}}}} {{PROJECT_ROOT}}/{{FRONTEND_DIR}} {{CMD}}"
       projectContext)
  = ["PROJECT_APP"; "CMD"] /\
  projectContext !! "PROJECT_APP" = None /\
  replaceVariables "plain {text} {{lower}}" projectContext = "plain {text} {{lower}}".
Proof.
  assert (Hsafe : safeContext projectContext).
  { apply (bool_decide_unpack _). vm_compute. reflexivity. }
  split_and!.
  - exact Hsafe.
  - vm_compute. reflexivity.
  - destruct (extractVariables_replaceVariables
                "{{PROJECT_{{PROJECT_NAME}}}} {{PROJECT_ROOT}}/{{FRONTEND_DIR}} {{CMD}}"
                projectContext) as [H _].
    apply (H Hsafe 0%nat). vm_compute. apply elem_of_cons. by left.
  - destruct (extractVariables_replaceVariables
                "plain {text} {{lower}}" projectContext) as [_ H].
    apply H. intros a n b Hn Heq.
    assert (Hin : String.string_of_list_ascii n ∈
                  extractVariables "plain {text} {{lower}}").
    { unfold extractVariables. apply elem_of_arrayFromSet_string.
      apply elem_of_matchedNames. exists n. split; [|done].
      rewrite Heq. by apply scan_finds_placeholder. }
    vm_compute in Hin. by apply elem_of_nil in Hin.
Defined.

(** C9, as stated, fails when a value of the context can take part in a
    placeholder: a value may itself be a placeholder, two halves of a
    placeholder may close up around an erased one, and a value made of
    name characters may complete the name of a key. *)
Lemma extractVariables_replaceVariables_counterexample :
  ("A" ∈ extractVariables (replaceVariables "{{A}}" {[ "A" := "{{A}}" ]}) /\
   ({[ "A" := "{{A}}" ]} : TemplateContext) !! "A" = Some "{{A}}") /\
  ("A" ∈ extractVariables
           (replaceVariables "{{A{{B}}}}" {[ "A" := "x"; "B" := EmptyString ]}) /\
   ({[ "A" := "x"; "B" := EmptyString ]} : TemplateContext) !! "A" = Some "x") /\
  ("APP_DIR" ∈ extractVariables
           (replaceVariables "{{APP_{{KIND}}}}" {[ "APP_DIR" := "src"; "KIND" := "DIR" ]}) /\
   ({[ "APP_DIR" := "src"; "KIND" := "DIR" ]} : TemplateContext) !! "APP_DIR"
     = Some "src").
Proof.
  split_and!;
    first [reflexivity | vm_compute; apply elem_of_cons; by left].
Qed.

Lemma replaceVariables_first_known (p n q v : string) (context : TemplateContext) :
  isName (String.list_ascii_of_string n) = true ->
  context !! n = Some v ->
  (forall m a b, isName m = true ->
     String.list_ascii_of_string p = a ++ placeholder m ++ b ->
     context !! String.string_of_list_ascii m = None) ->
  replaceVariables (p +:+ "{{" +:+ n +:+ "}}" +:+ q) context =
  p +:+ v +:+ replaceVariables q context.
Proof.
  intros Hn Hv Hp.
  assert (Hs : String.list_ascii_of_string (p +:+ "{{" +:+ n +:+ "}}" +:+ q) =
               String.list_ascii_of_string p ++
               placeholder (String.list_ascii_of_string n) ++
               String.list_ascii_of_string q).
  { rewrite !list_ascii_of_string_app. unfold placeholder. simpl.
    by rewrite <- !app_assoc. }
  unfold replaceVariables, replaceText.
  rewrite Hs, scan_app_stop by apply stops_placeholder.
  rewrite scan_placeholder by done. rewrite flat_map_app. simpl.
  unfold replacer. rewrite String.string_of_list_ascii_of_string, Hv.
  fold (replaceText (String.list_ascii_of_string p) context).
  fold (replaceText (String.list_ascii_of_string q) context).
  rewrite replaceText_absent.
  - by rewrite !string_of_list_ascii_app, !String.string_of_list_ascii_of_string.
  - apply Forall_forall. intros [c|m] Hin; [done|]. simpl.
    apply scan_Match_occurs in Hin as [Hm (a & b & Heq)]. eauto.
Qed.

(** C10: only exact placeholders with a well-formed name are recognized.
    Whatever [lastIndex] the pattern has, every reported name is well
    formed and stands between double braces in the text.  A text is
    changed only through such placeholders: without a placeholder whose
    name the context knows it is returned as it is, whatever else the
    context holds; and up to the first placeholder whose name the context
    knows the text is written back verbatim, other brace-delimited text
    included, the placeholder gives way to its value, and the rest of the
    text is treated in the same way.  Other brace-delimited text is never
    reported. *)
Theorem only_exact_placeholders_recognized :
  (forall lastIndex s x, x ∈ extractVariablesAt lastIndex s ->
     exists n, x = String.string_of_list_ascii n /\ isName n = true /\
       exists a b, String.list_ascii_of_string s = a ++ placeholder n ++ b) /\
  (forall s (context : TemplateContext),
     (forall n a b, isName n = true ->
        String.list_ascii_of_string s = a ++ placeholder n ++ b ->
        context !! String.string_of_list_ascii n = None) ->
     replaceVariables s context = s) /\
  (forall (p n q v : string) (context : TemplateContext),
     isName (String.list_ascii_of_string n) = true ->
     context !! n = Some v ->
     (forall m a b, isName m = true ->
        String.list_ascii_of_string p = a ++ placeholder m ++ b ->
        context !! String.string_of_list_ascii m = None) ->
     replaceVariables (p +:+ "{{" +:+ n +:+ "}}" +:+ q) context =
     p +:+ v +:+ replaceVariables q context) /\
  (forall w (context : TemplateContext),
     noBrace w = true -> isName w = false ->
     replaceVariables (String.string_of_list_ascii (braced w)) context
       = String.string_of_list_ascii (braced w) /\
     forall lastIndex,
       extractVariablesAt lastIndex (String.string_of_list_ascii (braced w)) = []) /\
  (forall context : TemplateContext,
     replaceVariables "{{lowercase}}" context = "{{lowercase}}" /\
     replaceVariables "{{1BAD}}" context = "{{1BAD}}" /\
     replaceVariables "{{ SPACED }}" context = "{{ SPACED }}" /\
     forall lastIndex,
       extractVariablesAt lastIndex "{{lowercase}} {{1BAD}} {{ SPACED }}" = []) /\
  replaceVariables "{{lowercase}} {{APP}} {{1BAD}} {{ APP }}"
    {[ "APP" := "web"; "lowercase" := "no"; "1BAD" := "no"; " APP " := "no" ]}
  = "{{lowercase}} web {{1BAD}} {{ APP }}".
Proof.
  assert (Hverb : forall s (context : TemplateContext),
     (forall n a b, isName n = true ->
        String.list_ascii_of_string s = a ++ placeholder n ++ b ->
        context !! String.string_of_list_ascii n = None) ->
     replaceVariables s context = s).
  { intros s context Habs. unfold replaceVariables.
    rewrite replaceText_absent; [apply String.string_of_list_ascii_of_string|].
    apply Forall_forall. intros [c|n] Hin; [done|]. simpl.
    apply scan_Match_occurs in Hin as [Hn (a & b & Hs)]. eauto. }
  split_and!.
  - intros lastIndex s x. apply elem_of_extractVariablesAt.
  - exact Hverb.
  - apply replaceVariables_first_known.
  - intros w context Hw Hname. split.
    + apply Hverb. intros n a b Hn.
      rewrite String.list_ascii_of_string_of_list_ascii. intros Heq.
      by destruct (braced_no_placeholder w a n b).
    + intros lastIndex. apply extractVariablesAt_nil.
      unfold extractVariables.
      rewrite String.list_ascii_of_string_of_list_ascii.
      destruct (matchedNames (scan (braced w))) as [|x xs] eqn:Hx; [done|].
      assert (x ∈ matchedNames (scan (braced w))) as Hin
        by (rewrite Hx; apply elem_of_cons; by left).
      apply elem_of_matchedNames in Hin as (n & Hin & _).
      apply scan_Match_occurs in Hin as [Hn (a & b & Heq)].
      by destruct (braced_no_placeholder w a n b).
  - intros context. split_and!; try done.
    intros lastIndex. by apply extractVariablesAt_nil.
  - by vm_compute.
Qed.

Lemma only_exact_placeholders_recognized_witness :
  (exists n, "X" = String.string_of_list_ascii n /\ isName n = true /\
     exists a b, String.list_ascii_of_string "{{y}} {{X}} {{X}}" = a ++ placeholder n ++ b) /\
  replaceVariables "{{lower}} {{UP}}" {[ "lower" := "a" ]} = "{{lower}} {{UP}}" /\
  replaceVariables ("{{lower}} {{ UP }} {{DOWN}} " +:+ "{{" +:+ "UP" +:+ "}}" +:+ " {{x}}")
    {[ "UP" := "1"; "lower" := "a" ]}
  = "{{lower}} {{ UP }} {{DOWN}} " +:+ "1" +:+ " {{x}}" /\
  replaceVariables "{{Mixed-1}}" {[ "Mixed-1" := "a" ]} = "{{Mixed-1}}".
Proof.
  destruct only_exact_placeholders_recognized as (H1 & H2 & H3 & H4 & _).
  assert (Hnames : forall s n a b, isName n = true ->
            String.list_ascii_of_string s = a ++ placeholder n ++ b ->
            String.string_of_list_ascii n ∈ extractVariables s).
  { intros s n a b Hn Heq. unfold extractVariables.
    apply elem_of_arrayFromSet_string, elem_of_matchedNames.
    exists n. split; [|done]. rewrite Heq. by apply scan_finds_placeholder. }
  split_and!.
  - apply (H1 8%nat "{{y}} {{X}} {{X}}"). vm_compute. apply elem_of_cons. by left.
  - apply (H2 "{{lower}} {{UP}}"). intros n a b Hn Hocc.
    apply lookup_singleton_None. intros Heq.
    assert (n = String.list_ascii_of_string "lower") as ->
      by (by rewrite Heq, String.list_ascii_of_string_of_list_ascii).
    done.
  - rewrite (H3 "{{lower}} {{ UP }} {{DOWN}} " "UP" " {{x}}" "1"); [|done|done|].
    + by vm_compute.
    + intros m a b Hm Hocc. pose proof (Hnames _ _ _ _ Hm Hocc) as Hin.
      assert (extractVariables "{{lower}} {{ UP }} {{DOWN}} " = ["DOWN"]) as Hex
        by (vm_compute; reflexivity).
      rewrite Hex in Hin. apply list_elem_of_singleton in Hin as ->. done.
  - apply (H4 (String.list_ascii_of_string "Mixed-1")); reflexivity.
Defined.

(** * Facts about dependency resolution *)

Lemma outcome_bind_Return {A B} (m : outcome A) (k : A -> outcome B) b :
  m ≫= k = Return b -> exists a, m = Return a /\ k a = Return b.
Proof. destruct m; simpl; [eauto|done..]. Qed.

Lemma tc_inv_first {A} (R : relation A) x z :
  tc R x z -> exists y, R x y /\ rtc R y z.
Proof.
  intros H. destruct H as [x z H|x y z H H'].
  - by exists z.
  - exists y. split; [done|]. by apply tc_rtc.
Qed.

Section Resolution.
Variable pluginsDir : PluginsDir.

Local Abbreviation depsOf := (depsOf pluginsDir).
Local Abbreviation dependsOn := (dependsOn pluginsDir).
Local Abbreviation allValid := (allValid pluginsDir).
Local Abbreviation cycleFree := (cycleFree pluginsDir).
Local Abbreviation namedDeps := (namedDeps pluginsDir).
Local Abbreviation checkDeps := (checkDeps pluginsDir).
Local Abbreviation sorted := (sorted pluginsDir).
Local Abbreviation consistent := (consistent pluginsDir).
Local Abbreviation stackAbove := (stackAbove pluginsDir).
Local Abbreviation pushes := (pushes pluginsDir).

Lemma namedDeps_depsOf n : namedDeps -> EmptyString ∉ depsOf n.
Proof.
  intros Hnamed. unfold depsOf.
  destruct (pluginsDir !! n) as [f|] eqn:Hn; simpl.
  - by apply (Hnamed n f).
  - by intros ?%elem_of_nil.
Qed.

Lemma checkCircularDependencies_S fuel n V :
  checkCircularDependencies pluginsDir (S fuel) n V =
  if decide (n ∈ V) then Return (Some n, V)
  else
    deps ← getPluginDependencies pluginsDir n;
    '(found, V') ← checkDeps fuel deps (V ∪ {[n]});
    match found with
    | Some circular => Return (Some circular, V')
    | None => Return (None, V' ∖ {[n]})
    end.
Proof. reflexivity. Qed.

Lemma getPluginDependencies_Return n ds :
  getPluginDependencies pluginsDir n = Return ds -> ds = depsOf n.
Proof.
  unfold getPluginDependencies, getPlugin, depsOf.
  destruct (pluginsDir !! n) as [[m|msg]|]; simpl; [|done|congruence].
  destruct (dependencies m) as [[[ps|] ?]|]; simpl; congruence.
Qed.

Lemma getPluginDependencies_valid n :
  allValid -> getPluginDependencies pluginsDir n = Return (depsOf n).
Proof.
  intros Hvalid. unfold getPluginDependencies, getPlugin, depsOf.
  destruct (pluginsDir !! n) as [[m|msg]|] eqn:Hn; simpl;
    [|by pose proof (Hvalid n _ Hn)|done].
  by destruct (dependencies m) as [[[ps|] ?]|].
Qed.

Lemma depsOf_dom n d : d ∈ depsOf n -> n ∈ dom pluginsDir.
Proof.
  unfold depsOf. rewrite elem_of_dom.
  destruct (pluginsDir !! n); [eauto|]. by intros ?%elem_of_nil.
Qed.

(** A falsy result hands the set back as it was received. *)
Lemma checkCircularDependencies_restores fuel :
  forall n V r V',
    checkCircularDependencies pluginsDir fuel n V = Return (r, V') ->
    truthy r = false -> V' = V.
Proof.
  induction fuel as [|fuel IH]; intros n V r V'; [done|].
  rewrite checkCircularDependencies_S. case_decide as Hin.
  { by intros [= <- <-]. }
  intros (ds & _ & Hloop)%outcome_bind_Return.
  apply outcome_bind_Return in Hloop as ([found V1] & Hloop & Hret).
  assert (Hinv : found = None -> V1 = V ∪ {[n]}).
  { clear Hret. revert Hloop. generalize (V ∪ {[n]}) as W.
    induction ds as [|d ds IHds]; intros W; simpl.
    - by intros [= <- <-].
    - intros ([c W'] & Hd & Hrest)%outcome_bind_Return.
      destruct (truthy c) eqn:Hc.
      + injection Hrest as <- <-. intros ->. done.
      + rewrite (IH _ _ _ _ Hd Hc) in Hrest. eauto. }
  destruct found as [c|].
  - injection Hret as <- <-. intros Hc.
    clear Hinv. exfalso. revert Hloop. generalize (V ∪ {[n]}) as W.
    induction ds as [|d ds IHds]; intros W; simpl; [done|].
    intros ([c' W'] & Hd & Hrest)%outcome_bind_Return.
    destruct (truthy c') eqn:Hc'; [|eauto].
    injection Hrest as -> ->. congruence.
  - injection Hret as <- <-. intros _. rewrite Hinv by done. set_solver.
Qed.

(** What a run over the dependencies of a plugin amounts to. *)
Lemma checkDeps_Return fuel ds V r V' :
  checkDeps fuel ds V = Return (r, V') ->
  (r = None /\ V' = V /\
   forall d, d ∈ ds -> exists r',
     checkCircularDependencies pluginsDir fuel d V = Return (r', V) /\
     truthy r' = false) \/
  (truthy r = true /\ exists d, d ∈ ds /\
     checkCircularDependencies pluginsDir fuel d V = Return (r, V')).
Proof.
  induction ds as [|d ds IH]; simpl.
  - intros [= <- <-]. left. split_and!; [done..|]. by intros ? ?%elem_of_nil.
  - intros ([c W] & Hd & Hrest)%outcome_bind_Return.
    destruct (truthy c) eqn:Hc.
    + injection Hrest as <- <-. right. split; [done|]. exists d.
      split; [by left|done].
    + pose proof (checkCircularDependencies_restores _ _ _ _ _ Hd Hc) as ->.
      destruct (IH Hrest) as [(-> & -> & Hall)|(Ht & d' & Hin & Hd')].
      * left. split_and!; [done..|].
        intros d' [->|Hin]%elem_of_cons; eauto.
      * right. split; [done|]. exists d'. split; [by right|done].
Qed.

(** Soundness of the check: a reported name lies on a cycle reachable
    from the plugin checked. *)
Lemma checkCircularDependencies_sound fuel :
  forall n V c V',
    (forall s, s ∈ V -> tc dependsOn s n) ->
    checkCircularDependencies pluginsDir fuel n V = Return (Some c, V') ->
    tc dependsOn c c /\ rtc dependsOn n c.
Proof.
  induction fuel as [|fuel IH]; intros n V c V' Hstack; [done|].
  rewrite checkCircularDependencies_S. case_decide as Hin.
  { intros [= <- <-]. split; [by apply Hstack|done]. }
  intros (ds & Hds & Hloop)%outcome_bind_Return.
  apply getPluginDependencies_Return in Hds as ->.
  apply outcome_bind_Return in Hloop as ([found V1] & Hloop & Hret).
  destruct found as [c'|]; [|done]. injection Hret as -> ->.
  apply checkDeps_Return in Hloop as [(? & _)|(_ & d & Hd & Hcheck)]; [done|].
  apply IH in Hcheck as [Hcyc Hreach].
  - split; [done|]. by apply rtc_l with d.
  - intros s [Hs| ->%elem_of_singleton]%elem_of_union.
    + eapply tc_r; [by apply Hstack|done].
    + by apply tc_once.
Qed.

(** Completeness of the check: a falsy result means that no cycle can be
    reached. *)
Lemma checkCircularDependencies_complete fuel :
  namedDeps ->
  forall n V r V',
    n <> EmptyString \/ n ∉ V ->
    checkCircularDependencies pluginsDir fuel n V = Return (r, V') ->
    truthy r = false ->
    (forall m, rtc dependsOn n m -> m ∉ V) /\ cycleFree n.
Proof.
  intros Hnamed.
  induction fuel as [|fuel IH]; intros n V r V' Hn; [done|].
  rewrite checkCircularDependencies_S. case_decide as Hin.
  { intros [= <- <-]. simpl. destruct Hn as [Hn|Hn]; [|done].
    destruct (String.eqb_spec n EmptyString); done. }
  intros (ds & Hds & Hloop)%outcome_bind_Return.
  apply getPluginDependencies_Return in Hds as ->.
  apply outcome_bind_Return in Hloop as ([found V1] & Hloop & Hret).
  intros Hr.
  apply checkDeps_Return in Hloop as [(-> & -> & Hall)|(Ht & _)]; last first.
  { destruct found; [injection Hret as <- <-; congruence|done]. }
  assert (Hdeps : forall d, d ∈ depsOf n ->
            (forall m, rtc dependsOn d m -> m ∉ V ∪ {[n]}) /\ cycleFree d).
  { intros d Hd. destruct (Hall d Hd) as (r' & Hcheck & Hr').
    apply (IH d _ _ _) in Hcheck; [done| |done].
    left. intros ->. by apply (namedDeps_depsOf n). }
  split.
  - intros m Hm. destruct (rtc_inv _ _ Hm) as [<-|(d & Hd & Hdm)]; [done|].
    destruct (Hdeps d Hd) as [Hout _]. specialize (Hout m Hdm). set_solver.
  - intros c Hc Hcyc. destruct (rtc_inv _ _ Hc) as [<-|(d & Hd & Hdc)].
    + apply tc_inv_first in Hcyc as (d & Hd & Hdn).
      destruct (Hdeps d Hd) as [Hout _]. specialize (Hout n Hdn). set_solver.
    + destruct (Hdeps d Hd) as [_ Hfree]. by apply (Hfree c).
Qed.

Lemma checkCircularDependencies_total fuel :
  allValid ->
  forall n V, size (dom pluginsDir ∖ V) < fuel ->
    exists r V', checkCircularDependencies pluginsDir fuel n V = Return (r, V').
Proof.
  intros Hvalid. induction fuel as [|fuel IH]; intros n V Hsize; [lia|].
  rewrite checkCircularDependencies_S. case_decide as Hin; [eauto|].
  rewrite getPluginDependencies_valid by done. simpl.
  assert (Hloop : exists r W, checkDeps fuel (depsOf n) (V ∪ {[n]}) = Return (r, W)).
  { destruct (depsOf n) as [|d0 ds0] eqn:Hds; [simpl; eauto|].
    assert (Hdom : n ∈ dom pluginsDir).
    { apply (depsOf_dom n d0). rewrite Hds. by left. }
    assert (Hsize' : size (dom pluginsDir ∖ (V ∪ {[n]})) < fuel).
    { assert (dom pluginsDir ∖ (V ∪ {[n]}) ⊂ dom pluginsDir ∖ V) as Hsub
        by set_solver.
      apply subset_size in Hsub. lia. }
    generalize (d0 :: ds0) as ds. clear Hds.
    induction ds as [|d ds IHds]; simpl; [eauto|].
    destruct (IH d _ Hsize') as (r & W & Hd). rewrite Hd. simpl.
    destruct (truthy r) eqn:Hr; [eauto|].
    by rewrite (checkCircularDependencies_restores _ _ _ _ _ Hd Hr). }
  destruct Hloop as ([c|] & W & ->); simpl; eauto.
Qed.

(** ** The traversal *)

Lemma visit_S cf fuel n order V :
  visit pluginsDir cf (S fuel) n (order, V) =
  if decide (n ∈ V) then Return (order, V)
  else
    '(circular, _) ← checkCircularDependencies pluginsDir cf n ∅;
    if truthy circular then
      Throw (CircularDependency n (default EmptyString circular))
    else
      deps ← getPluginDependencies pluginsDir n;
      '(order', V') ← visitAll pluginsDir cf fuel deps (order, V ∪ {[n]});
      Return (order' ++ [n], V').
Proof. reflexivity. Qed.

Lemma visitAll_cons cf fuel n ns st :
  visitAll pluginsDir cf fuel (n :: ns) st =
  visit pluginsDir cf fuel n st ≫= visitAll pluginsDir cf fuel ns.
Proof. reflexivity. Qed.

Lemma visitAll_app cf fuel ns ms st :
  visitAll pluginsDir cf fuel (ns ++ ms) st =
  visitAll pluginsDir cf fuel ns st ≫= visitAll pluginsDir cf fuel ms.
Proof.
  revert st. induction ns as [|n ns IH]; intros st; [done|].
  simpl app. rewrite !visitAll_cons.
  destruct (visit pluginsDir cf fuel n st); simpl; [apply IH|done..].
Qed.

Lemma before_app_l l k a b : before l a b -> before (l ++ k) a b.
Proof.
  intros (i & j & Hi & Hj & Hij). exists i, j.
  split_and!; [by apply lookup_app_l_Some..|done].
Qed.

Lemma before_app l k a b : a ∈ l -> b ∈ k -> before (l ++ k) a b.
Proof.
  intros (i & Hi)%list_elem_of_lookup (j & Hj)%list_elem_of_lookup.
  exists i, (length l + j). split_and!.
  - by apply lookup_app_l_Some.
  - rewrite lookup_app_r by lia. by replace (length l + j - length l) with j by lia.
  - apply lookup_lt_Some in Hi. lia.
Qed.

Lemma before_trans l a b c :
  NoDup l -> before l a b -> before l b c -> before l a c.
Proof.
  intros Hnd (i & j & Hi & Hj & Hij) (j' & k & Hj' & Hk & Hjk).
  assert (j = j') as <- by (by eapply NoDup_lookup). exists i, k.
  split_and!; [done..|lia].
Qed.

Lemma sorted_tc l p d :
  sorted l -> p ∈ l -> tc dependsOn p d -> before l d p.
Proof.
  intros [Hnd Hs] Hp Htc. induction Htc as [p d Hd|p m d Hm Htc IH].
  - by apply Hs.
  - pose proof (Hs p m Hp Hm) as Hmp.
    assert (m ∈ l) as Hml.
    { destruct Hmp as (i & _ & Hi & _). apply list_elem_of_lookup. eauto. }
    eapply before_trans; [done|by apply IH|done].
Qed.

Lemma sorted_closed l p d : sorted l -> p ∈ l -> rtc dependsOn p d -> d ∈ l.
Proof.
  intros Hs Hp Hrtc. induction Hrtc as [p|p m d Hm _ IH]; [done|].
  apply IH. destruct Hs as [_ Hs].
  destruct (Hs p m Hp Hm) as (i & _ & Hi & _).
  apply list_elem_of_lookup. eauto.
Qed.

Lemma cycleFree_rtc n m : cycleFree n -> rtc dependsOn n m -> cycleFree m.
Proof. intros Hn Hnm c Hc. apply Hn. by etrans. Qed.

Lemma visitAll_pushes cf fuel :
  (forall n order V,
     size (dom pluginsDir ∖ V) < fuel -> cycleFree n ->
     consistent order V -> stackAbove order V n ->
     pushes [n] order V (visit pluginsDir cf fuel n (order, V))) ->
  forall ns order V,
    (ns <> [] -> size (dom pluginsDir ∖ V) < fuel) ->
    (forall n, n ∈ ns -> cycleFree n) ->
    consistent order V ->
    (forall n, n ∈ ns -> stackAbove order V n) ->
    pushes ns order V (visitAll pluginsDir cf fuel ns (order, V)).
Proof.
  intros Hvisit. induction ns as [|n ns IH]; intros order V Hsize Hfree Hcons Hstack.
  { exists []. simpl. rewrite app_nil_r, union_empty_r_L.
    split_and!; [done|apply Hcons| |]; by intros ? ?%elem_of_nil. }
  rewrite visitAll_cons.
  destruct (Hvisit n order V) as (new1 & -> & Hsorted1 & Hin1 & Hnew1);
    [by apply Hsize|apply Hfree; by left|done|apply Hstack; by left|].
  simpl.
  destruct (IH (order ++ new1) (V ∪ list_to_set new1))
    as (new2 & -> & Hsorted2 & Hin2 & Hnew2).
  - intros _. eapply Nat.le_lt_trans; [|by apply Hsize].
    apply subseteq_size. set_solver.
  - intros m Hm. apply Hfree. by right.
  - split; [|done]. intros x [Hx|Hx]%elem_of_app; [|set_solver].
    apply elem_of_union_l. by apply Hcons.
  - intros m Hm s Hs Hout. apply (Hstack m); [by right| |set_solver].
    rewrite elem_of_union, elem_of_list_to_set in Hs. set_solver.
  - exists (new1 ++ new2).
    rewrite list_to_set_app_L, !(assoc_L (++)), !(assoc_L (∪)).
    split_and!; [done|done| |].
    + intros m [->|Hm]%elem_of_cons; [|by apply Hin2].
      apply elem_of_app. left. apply Hin1. by left.
    + intros x [Hx|Hx]%elem_of_app.
      * destruct (Hnew1 x Hx) as [Hout (m & ->%list_elem_of_singleton & Hreach)].
        split; [done|]. exists n. split; [by left|done].
      * destruct (Hnew2 x Hx) as [Hout (m & Hm & Hreach)].
        split; [set_solver|]. exists m. split; [by right|done].
Qed.

Lemma visit_pushes cf :
  allValid -> size (dom pluginsDir) < cf ->
  forall fuel n order V,
    size (dom pluginsDir ∖ V) < fuel -> cycleFree n ->
    consistent order V -> stackAbove order V n ->
    pushes [n] order V (visit pluginsDir cf fuel n (order, V)).
Proof.
  intros Hvalid Hcf. induction fuel as [|fuel IH];
    intros n order V Hsize Hfree Hcons Hstack; [lia|].
  rewrite visit_S. case_decide as Hin.
  { exists []. simpl. rewrite app_nil_r, union_empty_r_L.
    split_and!; [done|apply Hcons| |by intros ? ?%elem_of_nil].
    intros ? ->%list_elem_of_singleton.
    destruct (decide (n ∈ order)) as [|Hout]; [done|].
    destruct (Hfree n); [done|by apply Hstack]. }
  destruct (checkCircularDependencies_total cf Hvalid n ∅) as (r & W & Hcheck).
  { eapply Nat.le_lt_trans; [|done]. apply subseteq_size. set_solver. }
  rewrite Hcheck. simpl. destruct r as [c|].
  { apply checkCircularDependencies_sound in Hcheck as [Hcyc Hreach];
      [|set_solver]. by destruct (Hfree c). }
  simpl. rewrite getPluginDependencies_valid by done. simpl.
  destruct (visitAll_pushes cf fuel (IH) (depsOf n) order (V ∪ {[n]}))
    as (new & -> & Hsorted & Hdeps & Hnew).
  - intros Hne. destruct (depsOf n) as [|d ds] eqn:Hds; [done|].
    assert (n ∈ dom pluginsDir) as Hdom.
    { apply (depsOf_dom n d). rewrite Hds. by left. }
    assert (dom pluginsDir ∖ (V ∪ {[n]}) ⊂ dom pluginsDir ∖ V) as Hsub
      by set_solver.
    apply subset_size in Hsub. lia.
  - intros d Hd. apply (cycleFree_rtc n); [done|]. by apply rtc_once.
  - split; [|apply Hcons]. intros x Hx. apply elem_of_union_l. by apply Hcons.
  - intros d Hd s [Hs| ->%elem_of_singleton]%elem_of_union Hout.
    + eapply tc_r; [by apply Hstack|done].
    + by apply tc_once.
  - simpl. exists (new ++ [n]).
    assert (Hfresh : n ∉ order ++ new).
    { intros [Hx|Hx]%elem_of_app.
      - apply Hin. by apply Hcons.
      - destruct (Hnew n Hx) as [Hout _]. set_solver. }
    rewrite list_to_set_app_L, !(assoc_L (++)). split_and!.
    + f_equal. f_equal. set_solver.
    + destruct Hsorted as [Hnd Hbefore]. split.
      * apply NoDup_app. split_and!; [done| |apply NoDup_singleton].
        intros x Hx ->%list_elem_of_singleton. done.
      * intros p d [Hp| ->%list_elem_of_singleton]%elem_of_app Hd.
        -- apply before_app_l. by apply Hbefore.
        -- apply before_app; [by apply Hdeps|by left].
    + intros ? ->%list_elem_of_singleton. apply elem_of_app. right. by left.
    + intros x [Hx| ->%list_elem_of_singleton]%elem_of_app.
      * destruct (Hnew x Hx) as [Hout (d & Hd & Hreach)].
        split; [set_solver|]. exists n. split; [by left|].
        by apply rtc_l with d.
      * split; [done|]. exists n. split; [by left|done].
Qed.

Lemma depthBound_dom : size (dom pluginsDir) < depthBound pluginsDir.
Proof. unfold depthBound. rewrite size_dom. lia. Qed.

Lemma visitAll_top cf fuel ns order :
  allValid -> size (dom pluginsDir) < cf -> size (dom pluginsDir) < fuel ->
  (forall n, n ∈ ns -> cycleFree n) -> sorted order ->
  pushes ns order (list_to_set order)
    (visitAll pluginsDir cf fuel ns (order, list_to_set order)).
Proof.
  intros Hvalid Hcf Hfuel Hfree Hsorted.
  apply visitAll_pushes; [by apply visit_pushes| |done| |].
  - intros _. eapply Nat.le_lt_trans; [|done]. apply subseteq_size. set_solver.
  - split; [|done]. intros x Hx. by apply elem_of_list_to_set.
  - intros n _ s Hs Hout. by apply elem_of_list_to_set in Hs.
Qed.

Lemma sorted_nil : sorted [].
Proof. split; [constructor|]. by intros ? ? ?%elem_of_nil. Qed.

(** Resolution over plugins from which no cycle can be reached. *)
Lemma resolution_cycleFree names :
  allValid -> (forall r, r ∈ names -> cycleFree r) ->
  exists order,
    getInstallationOrder pluginsDir names = Return order /\
    sorted order /\
    (forall p, p ∈ order <-> exists r, r ∈ names /\ rtc dependsOn r p) /\
    (forall l1 p l2 q,
       names = l1 ++ p :: l2 -> q ∈ l2 ->
       (forall r, r ∈ l1 ++ [p] -> ~ rtc dependsOn r q) ->
       before order p q).
Proof.
  intros Hvalid Hfree. pose proof depthBound_dom as Hb.
  destruct (visitAll_top _ _ names [] Hvalid Hb Hb Hfree sorted_nil)
    as (order & Hrun & Hsorted & Hin & Hnew).
  simpl in Hrun, Hsorted, Hin. exists order.
  unfold getInstallationOrder. rewrite Hrun. simpl.
  split_and!; [done|done| |].
  - intros p. split.
    + intros Hp. by destruct (Hnew p Hp) as [_ ?].
    + intros (r & Hr & Hreach). eapply sorted_closed; [done|by apply Hin|done].
  - intros l1 p l2 q -> Hq Hindep.
    assert (Hfree1 : forall n, n ∈ l1 ++ [p] -> cycleFree n).
    { intros n Hn. apply Hfree. rewrite (cons_middle p), (assoc_L (++)).
      apply elem_of_app. by left. }
    assert (Hfree2 : forall n, n ∈ l2 -> cycleFree n).
    { intros n Hn. apply Hfree. apply elem_of_app. right. by right. }
    rewrite (cons_middle p), (assoc_L (++)), visitAll_app in Hrun.
    destruct (visitAll_top _ _ (l1 ++ [p]) [] Hvalid Hb Hb Hfree1 sorted_nil)
      as (new1 & Hrun1 & Hsorted1 & Hin1 & Hnew1).
    simpl in Hrun1, Hsorted1, Hin1. rewrite Hrun1 in Hrun. simpl in Hrun.
    rewrite union_empty_l_L in Hrun.
    destruct (visitAll_top _ _ l2 new1 Hvalid Hb Hb Hfree2 Hsorted1)
      as (new2 & Hrun2 & Hsorted2 & Hin2 & Hnew2).
    rewrite Hrun2 in Hrun. injection Hrun as <- _.
    apply before_app.
    + apply Hin1. apply elem_of_app. right. by left.
    + pose proof (Hin2 q Hq) as [Hq1|Hq2]%elem_of_app; [|done].
      destruct (Hnew1 q Hq1) as [_ (r & Hr & Hreach)].
      by destruct (Hindep r Hr).
Qed.

(** Resolution when a cycle can be reached from a requested plugin. *)
Lemma visitAll_cyclic cf fuel :
  allValid -> namedDeps ->
  size (dom pluginsDir) < cf -> size (dom pluginsDir) < fuel ->
  forall ns order,
    sorted order -> (forall x, x ∈ order -> cycleFree x) ->
    (exists r c, r ∈ ns /\ rtc dependsOn r c /\ tc dependsOn c c) ->
    exists r c,
      visitAll pluginsDir cf fuel ns (order, list_to_set order)
        = Throw (CircularDependency r c) /\
      r ∈ ns /\ rtc dependsOn r c /\ tc dependsOn c c.
Proof.
  intros Hvalid Hnamed Hcf Hfuel.
  induction ns as [|n ns IH]; intros order Hsorted Hfree (r & c & Hr & Hreach & Hcyc).
  { by apply elem_of_nil in Hr. }
  assert (Hrest : cycleFree n ->
            exists r c, r ∈ ns /\ rtc dependsOn r c /\ tc dependsOn c c).
  { intros Hn. apply elem_of_cons in Hr as [->|Hr]; [|eauto].
    by destruct (Hn c). }
  rewrite visitAll_cons. destruct fuel as [|fuel]; [lia|].
  destruct (decide (n ∈ (list_to_set order : gset string))) as [Hin|Hout].
  - rewrite visit_S, decide_True by done. simpl.
    apply elem_of_list_to_set in Hin.
    destruct (IH order Hsorted Hfree (Hrest (Hfree n Hin)))
      as (r' & c' & Hrun & Hr' & Hc').
    exists r', c'. split_and!; [done|by right|apply Hc'..].
  - destruct (checkCircularDependencies_total cf Hvalid n ∅) as (r0 & W & Hcheck).
    { eapply Nat.le_lt_trans; [|done]. apply subseteq_size. set_solver. }
    destruct (truthy r0) eqn:Htruthy.
    + rewrite visit_S, decide_False, Hcheck by done. simpl. rewrite Htruthy.
      destruct r0 as [c0|]; [|done]. simpl.
      apply checkCircularDependencies_sound in Hcheck as [Hcyc0 Hreach0];
        [|set_solver].
      exists n, c0. split_and!; [done|by left|done..].
    + apply checkCircularDependencies_complete in Hcheck as [_ Hn];
        [|done|by right|done].
      destruct (visit_pushes cf Hvalid Hcf (S fuel) n order (list_to_set order))
        as (new & -> & Hsorted' & _ & Hnew); [|done| | |].
      * eapply Nat.le_lt_trans; [|done]. apply subseteq_size. set_solver.
      * split; [|done]. intros x Hx. by apply elem_of_list_to_set.
      * intros s Hs Hnot. by apply elem_of_list_to_set in Hs.
      * simpl. rewrite <- list_to_set_app_L.
        destruct (IH (order ++ new) Hsorted') as (r' & c' & Hrun & Hr' & Hc').
        -- intros x [Hx|Hx]%elem_of_app; [by apply Hfree|].
           destruct (Hnew x Hx) as [_ (m & ->%list_elem_of_singleton & Hm)].
           by apply (cycleFree_rtc n).
        -- by apply Hrest.
        -- exists r', c'. split_and!; [done|by right|apply Hc'..].
Qed.

Lemma resolution_cyclic names :
  allValid -> namedDeps ->
  (exists r c, r ∈ names /\ rtc dependsOn r c /\ tc dependsOn c c) ->
  exists r c,
    getInstallationOrder pluginsDir names = Throw (CircularDependency r c) /\
    r ∈ names /\ rtc dependsOn r c /\ tc dependsOn c c.
Proof.
  intros Hvalid Hnamed Hcyc. pose proof depthBound_dom as Hb.
  destruct (visitAll_cyclic _ _ Hvalid Hnamed Hb Hb names [] sorted_nil)
    as (r & c & Hrun & Hrest); [by intros ? ?%elem_of_nil|done|].
  exists r, c. split; [|done]. unfold getInstallationOrder.
  simpl in Hrun. by rewrite Hrun.
Qed.

(** ** Repeated requests *)

Lemma extends_trans o V o1 V1 o2 V2 :
  extends o V o1 V1 -> extends o1 V1 o2 V2 -> extends o V o2 V2.
Proof.
  intros (_ & _ & Hsub1 & Hnew1) (Hnd & Hin & Hsub2 & Hnew2).
  split_and!; [done|done|set_solver|].
  intros x Hx. destruct (Hnew2 x Hx) as [Hx1|Hx1]; [by apply Hnew1|].
  right. set_solver.
Qed.

Lemma visitAll_extends cf fuel :
  (forall n o V o' V', NoDup o -> (forall x, x ∈ o -> x ∈ V) ->
     visit pluginsDir cf fuel n (o, V) = Return (o', V') ->
     extends o V o' V' /\ n ∈ V') ->
  forall ns o V o' V', NoDup o -> (forall x, x ∈ o -> x ∈ V) ->
    visitAll pluginsDir cf fuel ns (o, V) = Return (o', V') ->
    extends o V o' V'.
Proof.
  intros Hvisit. induction ns as [|n ns IH]; intros o V o' V' Hnd Hin.
  - intros [= <- <-]. split_and!; [done|done|done|by left].
  - rewrite visitAll_cons. intros ([o1 V1] & Hv & Hrest)%outcome_bind_Return.
    destruct (Hvisit _ _ _ _ _ Hnd Hin Hv) as [Hext _].
    eapply extends_trans; [done|]. apply (IH _ _ _ _) in Hrest; [done|..];
      apply Hext.
Qed.

Lemma visit_extends cf fuel :
  forall n o V o' V', NoDup o -> (forall x, x ∈ o -> x ∈ V) ->
    visit pluginsDir cf fuel n (o, V) = Return (o', V') ->
    extends o V o' V' /\ n ∈ V'.
Proof.
  induction fuel as [|fuel IH]; intros n o V o' V' Hnd Hin; [done|].
  rewrite visit_S. case_decide as Hn.
  { intros [= <- <-]. split; [|done]. split_and!; [done|done|done|by left]. }
  intros ([r W] & _ & Hrest)%outcome_bind_Return.
  destruct (truthy r); [done|].
  apply outcome_bind_Return in Hrest as (ds & _ & Hrest).
  apply outcome_bind_Return in Hrest as ([o1 V1] & Hloop & [= <- <-]).
  apply (visitAll_extends cf fuel IH) in Hloop as (Hnd1 & Hin1 & Hsub1 & Hnew1);
    [|done|set_solver].
  assert (n ∉ o1) as Hfresh.
  { intros Hx. destruct (Hnew1 n Hx) as [Ho|Ho]; [|set_solver].
    apply Hn. by apply Hin. }
  split; [|set_solver]. split_and!.
  - apply NoDup_app. split_and!; [done| |apply NoDup_singleton].
    by intros x Hx ->%list_elem_of_singleton.
  - intros x [Hx| ->%list_elem_of_singleton]%elem_of_app; [by apply Hin1|].
    set_solver.
  - set_solver.
  - intros x [Hx| ->%list_elem_of_singleton]%elem_of_app; [|by right].
    destruct (Hnew1 x Hx) as [Ho|Ho]; [by left|right; set_solver].
Qed.

(** A name that is already marked is passed over. *)
Lemma visitAll_skip cf fuel n :
  forall ns o V, n ∈ V -> NoDup o -> (forall x, x ∈ o -> x ∈ V) ->
    visitAll pluginsDir cf (S fuel) ns (o, V) =
    visitAll pluginsDir cf (S fuel)
      (filter (fun y => negb (String.eqb n y)) ns) (o, V).
Proof.
  induction ns as [|m ns IH]; intros o V Hn Hnd Hin; [done|].
  rewrite filter_cons. destruct (String.eqb_spec n m) as [<-|Hne].
  - rewrite decide_False by (by intros ?).
    rewrite visitAll_cons, visit_S, decide_True by done. by apply IH.
  - rewrite decide_True by done. rewrite !visitAll_cons.
    destruct (visit pluginsDir cf (S fuel) m (o, V)) as [[o1 V1]| |] eqn:Hv;
      simpl; [|done..].
    apply visit_extends in Hv as [(Hnd1 & Hin1 & Hsub & _) _]; [|done..].
    apply IH; [set_solver|done..].
Qed.

Lemma visitAll_arrayFromSet cf fuel :
  forall ns o V, NoDup o -> (forall x, x ∈ o -> x ∈ V) ->
    visitAll pluginsDir cf (S fuel) ns (o, V) =
    visitAll pluginsDir cf (S fuel) (arrayFromSet String.eqb ns) (o, V).
Proof.
  induction ns as [|n ns IH]; intros o V Hnd Hin; [done|].
  simpl arrayFromSet. rewrite !visitAll_cons.
  destruct (visit pluginsDir cf (S fuel) n (o, V)) as [[o1 V1]| |] eqn:Hv;
    simpl; [|done..].
  apply visit_extends in Hv as [(Hnd1 & Hin1 & _ & _) Hn]; [|done..].
  rewrite IH by done. by apply visitAll_skip.
Qed.
(** ** Termination *)

(** The recursion budget is never exhausted, whatever the directory. *)
Lemma checkCircularDependencies_terminates fuel :
  forall n V, size (dom pluginsDir ∖ V) < fuel ->
    checkCircularDependencies pluginsDir fuel n V <> OutOfFuel.
Proof.
  induction fuel as [|fuel IH]; intros n V Hsize; [lia|].
  rewrite checkCircularDependencies_S. case_decide as Hin; [done|].
  destruct (getPluginDependencies pluginsDir n) as [ds| |] eqn:Hds; simpl;
    [|done|].
  - apply getPluginDependencies_Return in Hds as ->.
    assert (checkDeps fuel (depsOf n) (V ∪ {[n]}) <> OutOfFuel) as Hloop.
    { destruct (depsOf n) as [|d0 ds0] eqn:Hds; [done|].
      assert (Hdom : n ∈ dom pluginsDir).
      { apply (depsOf_dom n d0). rewrite Hds. by left. }
      assert (Hsize' : size (dom pluginsDir ∖ (V ∪ {[n]})) < fuel).
      { assert (dom pluginsDir ∖ (V ∪ {[n]}) ⊂ dom pluginsDir ∖ V) as Hsub
          by set_solver.
        apply subset_size in Hsub. lia. }
      generalize (d0 :: ds0) as ds. clear Hds.
      induction ds as [|d ds IHds]; [done|]. simpl.
      pose proof (IH d _ Hsize') as Hd.
      destruct (checkCircularDependencies pluginsDir fuel d (V ∪ {[n]}))
        as [[r W]| |] eqn:Hrun; simpl; [|done..].
      destruct (truthy r) eqn:Hr; [done|].
      by rewrite (checkCircularDependencies_restores _ _ _ _ _ Hrun Hr). }
    destruct (checkDeps fuel (depsOf n) (V ∪ {[n]})) as [[[c|] W]| |];
      simpl; done.
  - unfold getPluginDependencies, getPlugin in Hds.
    destruct (pluginsDir !! n) as [[m|msg]|]; simpl in Hds; [|done..].
    by destruct (dependencies m) as [[[ps|] ?]|].
Qed.

Lemma visit_terminates cf :
  size (dom pluginsDir) < cf ->
  forall fuel n o V,
    size (dom pluginsDir ∖ V) < fuel ->
    NoDup o -> (forall x, x ∈ o -> x ∈ V) ->
    visit pluginsDir cf fuel n (o, V) <> OutOfFuel.
Proof.
  intros Hcf. induction fuel as [|fuel IH]; intros n o V Hsize Hnd Hin; [lia|].
  rewrite visit_S. case_decide as Hn; [done|].
  assert (checkCircularDependencies pluginsDir cf n ∅ <> OutOfFuel) as Hcheck.
  { apply checkCircularDependencies_terminates.
    eapply Nat.le_lt_trans; [|done]. apply subseteq_size. set_solver. }
  destruct (checkCircularDependencies pluginsDir cf n ∅) as [[r W]| |];
    simpl; [|done..].
  destruct (truthy r); [done|].
  destruct (getPluginDependencies pluginsDir n) as [ds| |] eqn:Hds; simpl;
    [|done|].
  - apply getPluginDependencies_Return in Hds as ->.
    assert (visitAll pluginsDir cf fuel (depsOf n) (o, V ∪ {[n]}) <> OutOfFuel)
      as Hloop.
    { destruct (depsOf n) as [|d0 ds0] eqn:Hds; [done|].
      assert (Hdom : n ∈ dom pluginsDir).
      { apply (depsOf_dom n d0). rewrite Hds. by left. }
      assert (Hsize' : size (dom pluginsDir ∖ (V ∪ {[n]})) < fuel).
      { assert (dom pluginsDir ∖ (V ∪ {[n]}) ⊂ dom pluginsDir ∖ V) as Hsub
          by set_solver.
        apply subset_size in Hsub. lia. }
      assert (Hin' : forall x, x ∈ o -> x ∈ V ∪ {[n]}) by set_solver.
      revert Hsize' Hnd Hin'. generalize (V ∪ {[n]}) as W'.
      generalize o as o'. generalize (d0 :: ds0) as ds. clear Hds.
      induction ds as [|d ds IHds]; intros o' W' Hsize' Hnd' Hin';
        [done|].
      rewrite visitAll_cons.
      pose proof (IH d o' W' Hsize' Hnd' Hin') as Hd.
      destruct (visit pluginsDir cf fuel d (o', W')) as [[o1 W1]| |] eqn:Hrun;
        simpl; [|done..].
      apply visit_extends in Hrun as [(Hnd1 & Hin1 & Hsub & _) _]; [|done..].
      apply IHds; [|done..].
      eapply Nat.le_lt_trans; [|exact Hsize'].
      apply subseteq_size. set_solver. }
    destruct (visitAll pluginsDir cf fuel (depsOf n) (o, V ∪ {[n]}))
      as [[o1 V1]| |]; simpl; done.
  - unfold getPluginDependencies, getPlugin in Hds.
    destruct (pluginsDir !! n) as [[m|msg]|]; simpl in Hds; [|done..].
    by destruct (dependencies m) as [[[ps|] ?]|].
Qed.

Lemma visitAll_terminates cf fuel :
  size (dom pluginsDir) < cf -> size (dom pluginsDir) < fuel ->
  forall ns o V, NoDup o -> (forall x, x ∈ o -> x ∈ V) ->
    visitAll pluginsDir cf fuel ns (o, V) <> OutOfFuel.
Proof.
  intros Hcf Hfuel. induction ns as [|n ns IH]; intros o V Hnd Hin; [done|].
  rewrite visitAll_cons.
  assert (visit pluginsDir cf fuel n (o, V) <> OutOfFuel) as Hn.
  { apply visit_terminates; [done| |done..].
    eapply Nat.le_lt_trans; [|done]. apply subseteq_size. set_solver. }
  destruct (visit pluginsDir cf fuel n (o, V)) as [[o1 V1]| |] eqn:Hrun;
    simpl; [|done..].
  apply visit_extends in Hrun as [(Hnd1 & Hin1 & _ & _) _]; [|done..].
  by apply IH.
Qed.

Lemma getInstallationOrder_terminates names :
  getInstallationOrder pluginsDir names <> OutOfFuel.
Proof.
  unfold getInstallationOrder. pose proof depthBound_dom as Hb.
  pose proof (visitAll_terminates _ _ Hb Hb names [] ∅) as Hrun.
  destruct (visitAll pluginsDir _ _ names ([], ∅)) as [[o V]| |]; simpl;
    [done|done|].
  intros _. apply Hrun; [constructor|by intros ? ?%elem_of_nil|done].
Qed.
End Resolution.

Section ResolutionClaims.
Variable pluginsDir : PluginsDir.

(** C1, as the code has it.  When no cycle can be reached from a
    requested plugin, [getInstallationOrder] returns an order without
    repetition that holds exactly the plugins reachable from the request,
    every plugin after all of its transitive dependencies (so before
    every plugin that depends on it); a requested plugin [p] precedes a
    requested plugin [q] whenever [p] is requested first and [q] is not
    a dependency, direct or not, of [p] or of a plugin requested before
    [p].  When a cycle can be reached from a requested plugin, the call
    throws and names a plugin on a cycle reachable from a requested one. *)
Theorem getInstallationOrder_order (names : list string) :
  allValid pluginsDir ->
  ((forall r, r ∈ names -> cycleFree pluginsDir r) ->
   exists order,
     getInstallationOrder pluginsDir names = Return order /\
     NoDup order /\
     (forall p, p ∈ order <->
                exists r, r ∈ names /\ rtc (dependsOn pluginsDir) r p) /\
     (forall p d, p ∈ order -> tc (dependsOn pluginsDir) p d ->
                  before order d p) /\
     (forall l1 p l2 q,
        names = l1 ++ p :: l2 -> q ∈ l2 ->
        (forall r, r ∈ l1 ++ [p] -> ~ rtc (dependsOn pluginsDir) r q) ->
        before order p q)) /\
  (namedDeps pluginsDir ->
   (exists r c, r ∈ names /\ rtc (dependsOn pluginsDir) r c /\
                tc (dependsOn pluginsDir) c c) ->
   exists r c,
     getInstallationOrder pluginsDir names = Throw (CircularDependency r c) /\
     r ∈ names /\ rtc (dependsOn pluginsDir) r c /\
     tc (dependsOn pluginsDir) c c).
Proof.
  intros Hvalid. split.
  - intros Hfree.
    destruct (resolution_cycleFree pluginsDir names Hvalid Hfree)
      as (order & Hrun & Hsorted & Hmem & Hties).
    exists order. split_and!; [done|apply Hsorted|done| |done].
    intros p d Hp Hd. by apply (sorted_tc pluginsDir).
  - intros Hnamed Hcyc. by apply resolution_cyclic.
Qed.

(** C2, as the code has it: a dependency that is not in the plugin
    directory is resolved like a plugin without dependencies, and the
    returned order holds it before the plugin that requires it. *)
Theorem missing_dependency_ordered (names : list string) (requester missing : string) :
  allValid pluginsDir ->
  (forall r, r ∈ names -> cycleFree pluginsDir r) ->
  requester ∈ names ->
  missing ∈ depsOf pluginsDir requester ->
  pluginsDir !! missing = None ->
  exists order,
    getInstallationOrder pluginsDir names = Return order /\
    depsOf pluginsDir missing = [] /\
    before order missing requester.
Proof.
  intros Hvalid Hfree Hreq Hdep Hnone.
  destruct (resolution_cycleFree pluginsDir names Hvalid Hfree)
    as (order & Hrun & Hsorted & Hmem & _).
  exists order. split_and!; [done| |].
  - unfold depsOf. by rewrite Hnone.
  - apply (sorted_tc pluginsDir); [done| |by apply tc_once].
    apply Hmem. by exists requester.
Qed.

(** C3, as the code has it: a name requested again is passed over, so
    the call ends with the outcome of the request without the
    repetitions, and a returned order holds no plugin twice. *)
Theorem duplicate_requests_ignored (names : list string) :
  getInstallationOrder pluginsDir names <> OutOfFuel /\
  getInstallationOrder pluginsDir names =
    getInstallationOrder pluginsDir (arrayFromSet String.eqb names) /\
  (forall order,
     getInstallationOrder pluginsDir names = Return order -> NoDup order).
Proof.
  split; [apply getInstallationOrder_terminates|].
  unfold getInstallationOrder, depthBound. split.
  - rewrite <- visitAll_arrayFromSet; [done|constructor|].
    by intros ? ?%elem_of_nil.
  - intros order ([o V] & Hrun & [= <-])%outcome_bind_Return.
    eapply visitAll_extends in Hrun as [Hnd _];
      [done|apply visit_extends|constructor|by intros ? ?%elem_of_nil].
Qed.
End ResolutionClaims.

Lemma dirChain_cycleFree r : cycleFree dirChain r.
Proof.
  assert (Hedge : forall x y, dependsOn dirChain x y -> x = "b" /\ y = "a").
  { intros x y. unfold dependsOn, depsOf, dirChain.
    destruct (decide (x = "a")) as [->|Ha]; [by intros ?%elem_of_nil|].
    destruct (decide (x = "b")) as [->|Hb].
    - intros Hy. vm_compute in Hy. apply list_elem_of_singleton in Hy. done.
    - rewrite lookup_insert_ne, lookup_singleton_ne by done.
      by intros ?%elem_of_nil. }
  intros c _ Hcyc. apply tc_inv_first in Hcyc as (y & [-> ->]%Hedge & Hback).
  apply rtc_inv in Hback as [?|(z & [? _]%Hedge & _)]; done.
Qed.

Lemma getInstallationOrder_order_witness :
  (exists order,
     getInstallationOrder dirChain ["b"; "a"] = Return order /\
     NoDup order /\
     (forall p, p ∈ order <->
                exists r, r ∈ ["b"; "a"] /\ rtc (dependsOn dirChain) r p) /\
     (forall p d, p ∈ order -> tc (dependsOn dirChain) p d -> before order d p) /\
     (forall l1 p l2 q,
        ["b"; "a"] = l1 ++ p :: l2 -> q ∈ l2 ->
        (forall r, r ∈ l1 ++ [p] -> ~ rtc (dependsOn dirChain) r q) ->
        before order p q)) /\
  (exists r c,
     getInstallationOrder dirCycle ["a"; "b"] = Throw (CircularDependency r c) /\
     r ∈ ["a"; "b"] /\ rtc (dependsOn dirCycle) r c /\ tc (dependsOn dirCycle) c c).
Proof.
  split.
  - apply (getInstallationOrder_order dirChain ["b"; "a"]).
    + apply (bool_decide_unpack _). by vm_compute.
    + intros r _. apply dirChain_cycleFree.
  - apply (getInstallationOrder_order dirCycle ["a"; "b"]).
    + apply (bool_decide_unpack _). by vm_compute.
    + apply (bool_decide_unpack _). by vm_compute.
    + assert (dependsOn dirCycle "a" "b") as Hab
        by (vm_compute; apply elem_of_cons; by left).
      assert (dependsOn dirCycle "b" "a") as Hba
        by (vm_compute; apply elem_of_cons; by left).
      exists "a", "a". split_and!; [apply elem_of_cons; by left|done|].
      eapply tc_l; [exact Hab|]. by apply tc_once.
Defined.

(** C1, as stated, fails on the ties: [a] is requested before [b] and
    neither depends on the other, but [b] was pushed as a dependency of
    [c], which was requested first. *)
Lemma getInstallationOrder_order_counterexample :
  getInstallationOrder dirShared ["c"; "a"; "b"] = Return ["b"; "c"; "a"] /\
  depsOf dirShared "a" = [] /\ depsOf dirShared "b" = [] /\
  before ["b"; "c"; "a"] "b" "a".
Proof.
  split_and!; [by vm_compute..|]. exists 0, 2. split_and!; [done..|lia].
Qed.

Lemma missing_dependency_ordered_witness :
  exists order,
    getInstallationOrder dirMissing ["b"] = Return order /\
    depsOf dirMissing "zz" = [] /\
    before order "zz" "b".
Proof.
  apply (missing_dependency_ordered dirMissing ["b"] "b" "zz").
  - apply (bool_decide_unpack _). by vm_compute.
  - assert (Hedge : forall x y, dependsOn dirMissing x y -> x = "b" /\ y = "zz").
    { intros x y. unfold dependsOn, depsOf, dirMissing.
      destruct (decide (x = "b")) as [->|Hb].
      - intros Hy. vm_compute in Hy. apply list_elem_of_singleton in Hy. done.
      - rewrite lookup_singleton_ne by done. by intros ?%elem_of_nil. }
    intros r _ c _ Hcyc. apply tc_inv_first in Hcyc as (y & [-> ->]%Hedge & Hback).
    apply rtc_inv in Hback as [?|(z & [? _]%Hedge & _)]; done.
  - apply elem_of_cons. by left.
  - vm_compute. apply elem_of_cons. by left.
  - reflexivity.
Defined.

(** C2, as stated, fails: the missing dependency is put in the order. *)
Lemma missing_dependency_counterexample :
  dirMissing !! "zz" = None /\
  "zz" ∈ depsOf dirMissing "b" /\
  getInstallationOrder dirMissing ["b"] = Return ["zz"; "b"].
Proof.
  split_and!; [done| |by vm_compute]. vm_compute. apply elem_of_cons. by left.
Qed.

Lemma duplicate_requests_ignored_witness :
  getInstallationOrder dirChain ["b"; "a"; "b"] =
    getInstallationOrder dirChain (arrayFromSet String.eqb ["b"; "a"; "b"]) /\
  NoDup ["a"; "b"].
Proof.
  destruct (duplicate_requests_ignored dirChain ["b"; "a"; "b"])
    as (_ & Heq & Hnd).
  split; [exact Heq|]. apply Hnd. by vm_compute.
Defined.

(** C3, as stated, fails: a selection that names a plugin twice is
    resolved, not rejected. *)
Lemma duplicate_requests_counterexample :
  getInstallationOrder dirChain ["a"; "a"] = Return ["a"].
Proof. by vm_compute. Qed.

(** * Facts about [Array.from(new Set(...))] *)

Lemma filter_all {A} (P : A -> Prop) `{!forall x, Decision (P x)} (l : list A) :
  (forall x, x ∈ l -> P x) -> filter P l = l.
Proof.
  induction l as [|x l IH]; [done|]. intros Hall.
  rewrite filter_cons_True by (apply Hall; by left). f_equal.
  apply IH. intros y Hy. apply Hall. by right.
Qed.

Lemma filter_none {A} (P : A -> Prop) `{!forall x, Decision (P x)} (l : list A) :
  (forall x, x ∈ l -> ~ P x) -> filter P l = [].
Proof.
  induction l as [|x l IH]; [done|]. intros Hall.
  rewrite filter_cons_False by (apply Hall; by left).
  apply IH. intros y Hy. apply Hall. by right.
Qed.

Section ArrayFromSet.
Context {A : Type} (same : A -> A -> bool).

Local Abbreviation notIn := (notIn same).
Local Abbreviation distinct := (distinct same).

Hypothesis same_refl : forall x, same x x = true.
Hypothesis same_sym : forall x y, same x y = same y x.
Hypothesis same_trans :
  forall x y z, same x y = true -> same y z = true -> same x z = true.

Lemma same_congr_l x y z : same x y = true -> same x z = same y z.
Proof.
  intros Hxy. destruct (same y z) eqn:Hyz.
  - by apply (same_trans x y z).
  - destruct (same x z) eqn:Hxz; [|done].
    rewrite <- Hyz. symmetry. apply (same_trans y x z); [|done].
    by rewrite same_sym.
Qed.

Lemma arrayFromSet_cons x l :
  arrayFromSet same (x :: l) =
  x :: filter (fun y => negb (same x y)) (arrayFromSet same l).
Proof. done. Qed.

Lemma elem_of_arrayFromSet_1 x l : x ∈ arrayFromSet same l -> x ∈ l.
Proof.
  induction l as [|y l IH]; simpl; [done|].
  rewrite !elem_of_cons, list_elem_of_filter. tauto.
Qed.

Lemma filter_arrayFromSet (P : A -> bool) l :
  (forall x y, same x y = true -> P x = P y) ->
  filter P (arrayFromSet same l) = arrayFromSet same (filter P l).
Proof.
  intros HP. induction l as [|x l IH]; [done|].
  rewrite arrayFromSet_cons, !filter_cons.
  destruct (P x) eqn:Hx.
  - rewrite !decide_True by done. rewrite arrayFromSet_cons. f_equal.
    rewrite <- IH, !list_filter_filter. apply list_filter_iff. tauto.
  - rewrite !decide_False by (by intros ?). rewrite <- IH.
    rewrite list_filter_filter. apply list_filter_iff. intros y.
    split; [tauto|]. intros Hy. split; [done|].
    destruct (same x y) eqn:Hxy; [|done].
    rewrite <- (HP x y Hxy), Hx in Hy. done.
Qed.

Lemma notIn_congr l x y : same x y = true -> notIn l x = notIn l y.
Proof.
  intros Hxy. unfold notIn. induction l as [|z l IH]; [done|]. simpl.
  rewrite IH. f_equal. f_equal.
  rewrite (same_sym z x), (same_sym z y). by apply same_congr_l.
Qed.

Lemma arrayFromSet_app l k :
  arrayFromSet same (l ++ k) =
  arrayFromSet same l ++ filter (notIn l) (arrayFromSet same k).
Proof.
  induction l as [|x l IH].
  - simpl. symmetry. by apply filter_all.
  - simpl app. rewrite !arrayFromSet_cons, IH, filter_app. simpl. f_equal.
    f_equal. rewrite list_filter_filter. apply list_filter_iff.
    intros y. simpl. destruct (same x y), (notIn l y); simpl; tauto.
Qed.

Lemma arrayFromSet_idemp l :
  arrayFromSet same (arrayFromSet same l) = arrayFromSet same l.
Proof.
  induction l as [|x l IH]; [done|].
  rewrite !arrayFromSet_cons. f_equal.
  rewrite <- filter_arrayFromSet, IH.
  - rewrite list_filter_filter. apply list_filter_iff. tauto.
  - intros y z Hyz. f_equal. rewrite (same_sym x y), (same_sym x z).
    by apply same_congr_l.
Qed.

Lemma notIn_arrayFromSet l y : notIn (arrayFromSet same l) y = notIn l y.
Proof.
  induction l as [|x l IH]; [done|]. rewrite arrayFromSet_cons.
  simpl. destruct (same x y) eqn:Hxy; [done|]. simpl. rewrite <- IH.
  unfold notIn. generalize (arrayFromSet same l) as k.
  induction k as [|z k IHk]; [done|].
  destruct (same x z) eqn:Hxz.
  - rewrite filter_cons_False by (rewrite Hxz; by intros ?).
    rewrite IHk. simpl. destruct (same z y) eqn:Hzy; [|done].
    by rewrite (same_trans x z y) in Hxy.
  - rewrite filter_cons_True by (by rewrite Hxz). simpl. by rewrite IHk.
Qed.

(** The three ways of merging three arrays. *)
Lemma arrayFromSet_app_l l k :
  arrayFromSet same (arrayFromSet same l ++ k) = arrayFromSet same (l ++ k).
Proof.
  rewrite !arrayFromSet_app, arrayFromSet_idemp. f_equal.
  apply list_filter_iff. intros y. by rewrite notIn_arrayFromSet.
Qed.

Lemma arrayFromSet_app_r l k :
  arrayFromSet same (l ++ arrayFromSet same k) = arrayFromSet same (l ++ k).
Proof. by rewrite !arrayFromSet_app, arrayFromSet_idemp. Qed.

Lemma arrayFromSet_distinct l :
  distinct l = true -> arrayFromSet same l = l.
Proof.
  induction l as [|x l IH]; [done|]. simpl.
  intros [Hx Hl]%andb_prop. rewrite IH by done. f_equal.
  apply filter_all. intros y Hy. unfold notIn in Hx.
  rewrite forallb_forall in Hx. apply list_elem_of_In, Hx in Hy.
  rewrite same_sym. by destruct (same y x).
Qed.

Lemma arrayFromSet_twice l :
  arrayFromSet same (l ++ l) = arrayFromSet same l.
Proof.
  rewrite arrayFromSet_app.
  assert (filter (notIn l) (arrayFromSet same l) = []) as ->;
    [|by rewrite app_nil_r].
  apply filter_none. intros y Hy%elem_of_arrayFromSet_1 Hnot.
  unfold notIn in Hnot. apply Is_true_true in Hnot.
  rewrite forallb_forall in Hnot.
  apply list_elem_of_In, Hnot in Hy. by rewrite same_refl in Hy.
Qed.

Lemma distinct_arrayFromSet l : distinct (arrayFromSet same l) = true.
Proof.
  induction l as [|x l IH]; [done|]. rewrite arrayFromSet_cons. simpl.
  apply andb_true_intro. split.
  - unfold notIn. apply forallb_forall. intros y Hy%list_elem_of_In.
    apply list_elem_of_filter in Hy as [Hy _]. rewrite same_sym.
    by destruct (same x y).
  - revert IH. generalize (arrayFromSet same l) as k.
    induction k as [|z k IHk]; [done|]. simpl. intros [Hz Hk]%andb_prop.
    rewrite filter_cons. case_decide; [|by apply IHk]. simpl.
    rewrite IHk by done. rewrite andb_true_r.
    unfold notIn in *. apply forallb_forall. intros y Hy%list_elem_of_In.
    apply list_elem_of_filter in Hy as [_ Hy].
    rewrite forallb_forall in Hz. by apply Hz, list_elem_of_In.
Qed.
End ArrayFromSet.

(** * Facts about [deepMerge] *)

Lemma scalar_eqb_eq a b : scalar_eqb a b = true <-> a = b.
Proof.
  destruct a as [|x|x|x], b as [|y|y|y]; simpl; try (split; congruence).
  - rewrite Bool.eqb_true_iff. split; congruence.
  - rewrite Z.eqb_eq. split; congruence.
  - rewrite String.eqb_eq. split; congruence.
Qed.

Lemma sameValueZero_refl x : sameValueZero x x = true.
Proof.
  destruct x as [s|r v]; simpl; [by apply scalar_eqb_eq|apply Pos.eqb_refl].
Qed.

Lemma sameValueZero_sym x y : sameValueZero x y = sameValueZero y x.
Proof.
  destruct x as [s|r v], y as [s'|r' v']; simpl; try done.
  - destruct (scalar_eqb s s') eqn:H1, (scalar_eqb s' s) eqn:H2; try done.
    + apply scalar_eqb_eq in H1 as ->.
      by rewrite (proj2 (scalar_eqb_eq s' s')) in H2.
    + apply scalar_eqb_eq in H2 as ->.
      by rewrite (proj2 (scalar_eqb_eq s s)) in H1.
  - apply Pos.eqb_sym.
Qed.

Lemma sameValueZero_trans x y z :
  sameValueZero x y = true -> sameValueZero y z = true ->
  sameValueZero x z = true.
Proof.
  destruct x as [s|r v], y as [s'|r' v'], z as [s''|r'' v'']; simpl; try done.
  - by intros ->%scalar_eqb_eq.
  - by intros ->%Pos.eqb_eq.
Qed.

Lemma deepMerge_obj t s : deepMerge (VObj t) (VObj s) = VObj (mergeFields s t).
Proof.
  reflexivity.
Qed.

Lemma deepMerge_arr t s :
  deepMerge (VArr t) (VArr s) = VArr (arrayFromSet sameValueZero (t ++ s)).
Proof. done. Qed.

Lemma getField_setField k' k (v : value) m :
  getField k' (setField k v m) =
  if String.eqb k' k then Some v else getField k' m.
Proof.
  induction m as [|[j w] m IH]; simpl.
  - by destruct (String.eqb k' k).
  - destruct (String.eqb_spec k j) as [->|Hkj]; simpl.
    + by destruct (String.eqb k' j).
    + rewrite IH. destruct (String.eqb_spec k' j) as [->|]; [|done].
      by destruct (String.eqb_spec j k) as [->|].
Qed.

Lemma keys_setField k (v : value) m :
  keys (setField k v m) = if decide (k ∈ keys m) then keys m else keys m ++ [k].
Proof.
  unfold keys. induction m as [|[j w] m IH]; [done|]. cbn [setField].
  destruct (String.eqb_spec k j) as [->|Hkj]; rewrite !fmap_cons; cbn [fst].
  - rewrite decide_True; [done|by left].
  - rewrite IH. destruct (decide (k ∈ m.*1)) as [Hin|Hout].
    + rewrite decide_True; [done|by right].
    + rewrite decide_False; [done|]. by intros [?|?]%elem_of_cons.
Qed.

Lemma getField_None k (m : list (string * value)) :
  getField k m = None <-> k ∉ keys m.
Proof.
  unfold keys. induction m as [|[j w] m IH]; simpl.
  - split; [by intros _ ?%elem_of_nil|done].
  - rewrite not_elem_of_cons. destruct (String.eqb_spec k j) as [->|]; [|tauto].
    split; [done|tauto].
Qed.

Lemma getField_Some_elem k m (v : value) : getField k m = Some v -> (k, v) ∈ m.
Proof.
  induction m as [|[j w] m IH]; simpl; [done|].
  destruct (String.eqb_spec k j) as [->|]; [intros [= ->]; by left|].
  intros ?. right. eauto.
Qed.

Lemma getField_mergeFields k s m :
  NoDup (keys s) ->
  getField k (mergeFields s m) =
  match getField k s with
  | Some sv => Some (fieldMerge (getField k m) sv)
  | None => getField k m
  end.
Proof.
  revert m. induction s as [|[j sv] s IH]; intros m; [done|].
  unfold keys. simpl. intros [Hj Hs]%NoDup_cons.
  rewrite IH by done. rewrite getField_setField.
  destruct (String.eqb_spec k j) as [->|Hkj]; [|done].
  by rewrite (proj2 (getField_None j s) Hj).
Qed.

Lemma keys_mergeFields s m :
  NoDup (keys s) ->
  keys (mergeFields s m) = keys m ++ filter (fun k => k ∉ keys m) (keys s).
Proof.
  revert m. induction s as [|[j sv] s IH]; intros m.
  { simpl. by rewrite app_nil_r. }
  unfold keys at 1. simpl. intros [Hj Hs]%NoDup_cons.
  rewrite IH by done. rewrite keys_setField.
  unfold keys at 6. simpl. rewrite filter_cons.
  destruct (decide (j ∈ keys m)) as [Hin|Hout].
  - by rewrite decide_False by tauto.
  - rewrite decide_True by done. rewrite <- app_assoc. simpl. f_equal. f_equal.
    transitivity (filter (fun k => k ∉ keys m ++ [j]) (filter (fun k => k ≠ j) s.*1)).
    + f_equal. symmetry. apply filter_all. intros x Hx ->. done.
    + rewrite list_filter_filter.
      transitivity (filter (fun k => k ∉ keys m) (filter (fun k => k ≠ j) s.*1)).
      * rewrite list_filter_filter. apply list_filter_iff. intros x.
        rewrite not_elem_of_app, list_elem_of_singleton. tauto.
      * f_equal. apply filter_all. intros x Hx ->. done.
Qed.

Lemma fields_ext (l l' : list (string * value)) :
  NoDup (keys l) -> keys l = keys l' ->
  (forall k, getField k l = getField k l') -> l = l'.
Proof.
  unfold keys. revert l'. induction l as [|[k v] l IH]; intros [|[k' v'] l']; try done.
  rewrite !fmap_cons. cbn [fst].
  intros [Hk Hl]%NoDup_cons [= <- Hkeys] Hget. f_equal.
  - specialize (Hget k). simpl in Hget. rewrite String.eqb_refl in Hget.
    congruence.
  - apply IH; [done..|]. intros j. destruct (decide (j = k)) as [->|Hne].
    + rewrite (proj2 (getField_None k l)) by done.
      rewrite (proj2 (getField_None k l')); [done|]. unfold keys.
      by rewrite <- Hkeys.
    + specialize (Hget j). simpl in Hget.
      by destruct (String.eqb_spec j k).
Qed.

Lemma wellFormed_obj fields :
  wellFormed (VObj fields) = true <->
  NoDup (keys fields) /\ forall k v, (k, v) ∈ fields -> wellFormed v = true.
Proof.
  simpl. rewrite andb_true_iff, bool_decide_eq_true.
  apply and_iff_compat_l. induction fields as [|[j w] fs IH].
  - split; [by intros _ ? ? ?%elem_of_nil|done].
  - rewrite andb_true_iff, IH. split.
    + intros [Hw Hfs] k v [[= -> ->]|Hin]%elem_of_cons; eauto.
    + intros Hall. split; [apply (Hall j); by left|].
      intros k v Hin. apply (Hall k). by right.
Qed.

Lemma distinctArrays_obj fields :
  distinctArrays (VObj fields) = true <->
  forall k v, (k, v) ∈ fields -> distinctArrays v = true.
Proof.
  simpl. induction fields as [|[j w] fs IH].
  - split; [by intros _ ? ? ?%elem_of_nil|done].
  - rewrite andb_true_iff, IH. split.
    + intros [Hw Hfs] k v [[= -> ->]|Hin]%elem_of_cons; eauto.
    + intros Hall. split; [apply (Hall j); by left|].
      intros k v Hin. apply (Hall k). by right.
Qed.

Lemma vsize_field k v fields : (k, v) ∈ fields -> vsize v < vsize (VObj fields).
Proof.
  simpl. induction fields as [|[j w] fs IH]; [by intros ?%elem_of_nil|].
  intros [[= <- <-]|Hin]%elem_of_cons; [lia|]. specialize (IH Hin). lia.
Qed.

Lemma mergeFields_NoDup s m :
  NoDup (keys s) -> NoDup (keys m) -> NoDup (keys (mergeFields s m)).
Proof.
  intros Hs Hm. rewrite keys_mergeFields by done. apply NoDup_app.
  split_and!; [done| |by apply NoDup_filter].
  by intros k Hk [Hout _]%list_elem_of_filter.
Qed.

Lemma fieldMerge_wellFormed_gen n :
  (forall t s, vsize s < n -> wellFormed t = true -> wellFormed s = true ->
               wellFormed (deepMerge t s) = true) ->
  forall old sv, vsize sv < n ->
    (forall v, old = Some v -> wellFormed v = true) -> wellFormed sv = true ->
    wellFormed (fieldMerge old sv) = true.
Proof.
  intros IH old sv Hsize Hold Hsv.
  destruct sv as [c|elems|fields]; [done|..]; unfold fieldMerge;
    (apply IH; [done| |done]); (destruct old as [v|]; simpl; [|done]);
    (destruct (truthyValue v); [by apply Hold|done]).
Qed.

Lemma deepMerge_wellFormed t s :
  wellFormed t = true -> wellFormed s = true ->
  wellFormed (deepMerge t s) = true.
Proof.
  remember (S (vsize s)) as n eqn:Hn. assert (vsize s < n) as Hsize by lia.
  clear Hn. revert t s Hsize. induction n as [|n IH]; intros t s Hsize; [lia|].
  destruct t as [c|te|tf], s as [c'|se|sf]; try done.
  rewrite deepMerge_obj. intros [Htk Htv]%wellFormed_obj Hs.
  pose proof Hs as [Hsk Hsv]%wellFormed_obj.
  apply wellFormed_obj. split; [by apply mergeFields_NoDup|].
  intros k v Hin.
  assert (getField k (mergeFields sf tf) = Some v) as Hget.
  { pose proof (mergeFields_NoDup sf tf Hsk Htk) as Hnd.
    clear -Hin Hnd. induction (mergeFields sf tf) as [|[j w] l IHl];
      [by apply elem_of_nil in Hin|].
    unfold keys in Hnd. rewrite fmap_cons in Hnd. apply NoDup_cons in Hnd as [Hj Hl].
    simpl. apply elem_of_cons in Hin as [[= <- <-]|Hin].
    - by rewrite String.eqb_refl.
    - destruct (String.eqb_spec k j) as [->|]; [|by apply IHl].
      destruct Hj. apply list_elem_of_fmap. by exists (j, v). }
  rewrite getField_mergeFields in Hget by done.
  destruct (getField k sf) as [sv|] eqn:Hsf.
  - injection Hget as <-.
    apply (fieldMerge_wellFormed_gen n).
    + intros t' s' Hs' Ht' Hs''. by apply IH.
    + apply getField_Some_elem, vsize_field in Hsf. lia.
    + intros w Hw%getField_Some_elem. eauto.
    + apply getField_Some_elem in Hsf. eauto.
  - apply getField_Some_elem in Hget. eauto.
Qed.

Lemma elem_getField k (v : value) l :
  NoDup (keys l) -> (k, v) ∈ l -> getField k l = Some v.
Proof.
  induction l as [|[j w] l IH]; [by intros _ ?%elem_of_nil|].
  unfold keys. rewrite fmap_cons. intros [Hj Hl]%NoDup_cons.
  simpl. intros [[= <- <-]|Hin]%elem_of_cons.
  - by rewrite String.eqb_refl.
  - destruct (String.eqb_spec k j) as [->|]; [|by apply IH].
    destruct Hj. apply list_elem_of_fmap. by exists (j, v).
Qed.

(** C4, as the code has it: a tree merged into itself is unchanged when no
    array that the merge reaches holds the same element twice (objects
    have each key once). *)
Theorem deepMerge_idempotent (x : value) :
  wellFormed x = true -> distinctArrays x = true -> deepMerge x x = x.
Proof.
  remember (S (vsize x)) as n eqn:Hn. assert (vsize x < n) as Hsize by lia.
  clear Hn. revert x Hsize. induction n as [|n IH]; intros x Hsize; [lia|].
  destruct x as [c|elems|fields]; [done| |].
  - intros _ Hd. simpl in Hd. rewrite deepMerge_arr. f_equal.
    rewrite arrayFromSet_twice
      by (apply sameValueZero_refl || apply sameValueZero_sym ||
          apply sameValueZero_trans).
    apply arrayFromSet_distinct; [apply sameValueZero_sym|done].
  - intros [Hk Hv]%wellFormed_obj Hd. rewrite deepMerge_obj. f_equal.
    symmetry. apply fields_ext; [done| |].
    + rewrite keys_mergeFields by done.
      rewrite filter_none; [by rewrite app_nil_r|]. by intros k Hin Hout.
    + intros k. rewrite getField_mergeFields by done.
      destruct (getField k fields) as [sv|] eqn:Hget; [|done].
      apply getField_Some_elem in Hget. f_equal. symmetry.
      assert (deepMerge sv sv = sv) as Hself.
      { apply IH; [|by eapply Hv|].
        - apply vsize_field in Hget. lia.
        - rewrite distinctArrays_obj in Hd. by eapply Hd. }
      destruct sv as [c|se|sf]; [done|exact Hself|exact Hself].
Qed.


Lemma sameKinds_empty_l b : sameKinds (VObj []) (VObj b) = true.
Proof. done. Qed.



Lemma arrayFromSet_sameValueZero_idemp (c : list element) :
  arrayFromSet sameValueZero (arrayFromSet sameValueZero c) =
  arrayFromSet sameValueZero c.
Proof.
  apply arrayFromSet_idemp; [apply sameValueZero_sym|apply sameValueZero_trans].
Qed.


Lemma deepMerge_empty_r a : deepMerge (VObj a) (VObj []) = VObj a.
Proof. done. Qed.



Lemma orElse_None d : orElse None d = d.
Proof. done. Qed.

Lemma fieldMerge_arr old l :
  fieldMerge old (VArr l) = deepMerge (orElse old (VArr [])) (VArr l).
Proof. done. Qed.

Lemma fieldMerge_obj old f :
  fieldMerge old (VObj f) = deepMerge (orElse old (VObj [])) (VObj f).
Proof. done. Qed.



(** * Facts about the merge of skill rules *)

Lemma NoDup_arrayFromSet_string (xs : list string) :
  NoDup (arrayFromSet String.eqb xs).
Proof.
  induction xs as [|x xs IH]; simpl; [constructor|].
  apply NoDup_cons. split; [|by apply NoDup_filter].
  intros [Hx _]%list_elem_of_filter. by rewrite String.eqb_refl in Hx.
Qed.

Lemma mergeArrays_unionOf a b : unionOf a b (mergeArrays a b).
Proof.
  unfold unionOf, mergeArrays.
  assert (forall l k : list string,
            NoDup (arrayFromSet String.eqb (l ++ k)) /\
            forall x, x ∈ arrayFromSet String.eqb (l ++ k) <-> x ∈ l \/ x ∈ k)
    as Hset.
  { intros l k. split; [apply NoDup_arrayFromSet_string|]. intros x.
    by rewrite elem_of_arrayFromSet_string, elem_of_app. }
  destruct a as [l|], b as [k|]; unfold valuesOf; cbn [default].
  - apply (Hset l k).
  - apply (Hset l []).
  - apply (Hset [] k).
  - split; [constructor|]. intros x. split; [by intros ?%elem_of_nil|tauto].
Qed.

Lemma keywordsOf_merge e i :
  keywordsOf (mergeSkillRules e i) = mergeArrays (keywordsOf e) (keywordsOf i).
Proof. unfold keywordsOf. by destruct e as [? ? ? [?|] ?], i as [? ? ? [?|] ?]. Qed.

Lemma intentPatternsOf_merge e i :
  intentPatternsOf (mergeSkillRules e i) =
  mergeArrays (intentPatternsOf e) (intentPatternsOf i).
Proof.
  unfold intentPatternsOf. by destruct e as [? ? ? [?|] ?], i as [? ? ? [?|] ?].
Qed.

Lemma pathPatternsOf_merge e i :
  pathPatternsOf (mergeSkillRules e i) =
  mergeArrays (pathPatternsOf e) (pathPatternsOf i).
Proof.
  unfold pathPatternsOf. by destruct e as [? ? ? ? [?|]], i as [? ? ? ? [?|]].
Qed.

Lemma pathExclusionsOf_merge e i :
  pathExclusionsOf (mergeSkillRules e i) =
  mergeArrays (pathExclusionsOf e) (pathExclusionsOf i).
Proof.
  unfold pathExclusionsOf. by destruct e as [? ? ? ? [?|]], i as [? ? ? ? [?|]].
Qed.

Lemma contentPatternsOf_merge e i :
  contentPatternsOf (mergeSkillRules e i) =
  mergeArrays (contentPatternsOf e) (contentPatternsOf i).
Proof.
  unfold contentPatternsOf. by destruct e as [? ? ? ? [?|]], i as [? ? ? ? [?|]].
Qed.

(** C5: when two fragments define a skill, the later one gives the type,
    the enforcement and the priority it has, each trigger array is the
    union without repetition of the two arrays, and the fragments of the
    scenario merge to the expected rule set. *)
Theorem mergeSkillRules_last_writer_and_union (existing incoming : SkillRule) :
  let merged := mergeSkillRules existing incoming in
  ((forall t, type incoming = Some t -> type merged = Some t) /\
   (type incoming = None -> type merged = type existing)) /\
  ((forall e, enforcement incoming = Some e -> enforcement merged = Some e) /\
   (enforcement incoming = None -> enforcement merged = enforcement existing)) /\
  ((forall p, priority incoming = Some p -> priority merged = Some p) /\
   (priority incoming = None -> priority merged = priority existing)) /\
  unionOf (keywordsOf existing) (keywordsOf incoming) (keywordsOf merged) /\
  unionOf (intentPatternsOf existing) (intentPatternsOf incoming)
          (intentPatternsOf merged) /\
  unionOf (pathPatternsOf existing) (pathPatternsOf incoming)
          (pathPatternsOf merged) /\
  unionOf (pathExclusionsOf existing) (pathExclusionsOf incoming)
          (pathExclusionsOf merged) /\
  unionOf (contentPatternsOf existing) (contentPatternsOf incoming)
          (contentPatternsOf merged) /\
  (forall context,
     mergeSkillRulesFragments [scenarioFirst; scenarioSecond] context
     = scenarioMerged).
Proof.
  intros merged. subst merged. split_and!.
  - intros t Ht. simpl. by rewrite Ht.
  - intros Ht. simpl. by rewrite Ht.
  - intros t Ht. simpl. by rewrite Ht.
  - intros Ht. simpl. by rewrite Ht.
  - intros t Ht. simpl. by rewrite Ht.
  - intros Ht. simpl. by rewrite Ht.
  - rewrite keywordsOf_merge. apply mergeArrays_unionOf.
  - rewrite intentPatternsOf_merge. apply mergeArrays_unionOf.
  - rewrite pathPatternsOf_merge. apply mergeArrays_unionOf.
  - rewrite pathExclusionsOf_merge. apply mergeArrays_unionOf.
  - rewrite contentPatternsOf_merge. apply mergeArrays_unionOf.
  - by intros [context|].
Qed.

Lemma mergeSkillRules_last_writer_and_union_witness :
  enforcement (mergeSkillRules
                 {| type := Some guardrail; enforcement := Some suggest;
                    priority := Some low; promptTriggers := None;
                    fileTriggers := None |}
                 {| type := None; enforcement := Some block;
                    priority := None; promptTriggers := None;
                    fileTriggers := None |}) = Some block /\
  type (mergeSkillRules
          {| type := Some guardrail; enforcement := Some suggest;
             priority := Some low; promptTriggers := None;
             fileTriggers := None |}
          {| type := None; enforcement := Some block;
             priority := None; promptTriggers := None;
             fileTriggers := None |}) = Some guardrail.
Proof.
  destruct (mergeSkillRules_last_writer_and_union
              {| type := Some guardrail; enforcement := Some suggest;
                 priority := Some low; promptTriggers := None;
                 fileTriggers := None |}
              {| type := None; enforcement := Some block;
                 priority := None; promptTriggers := None;
                 fileTriggers := None |})
    as ([_ Htype] & [Henf _] & _).
  split; [by apply Henf|by apply Htype].
Defined.

Lemma deepMerge_idempotent_witness :
  deepMerge settingsBase settingsBase = settingsBase.
Proof. apply (deepMerge_idempotent settingsBase); reflexivity. Defined.

(** C4, as stated, fails: the array [[1, 1]] merged into itself is
    [[1]]. *)
Lemma deepMerge_idempotent_counterexample :
  deepMerge repeatedArray repeatedArray = VArr [EScalar (SNum 1)] /\
  deepMerge repeatedArray repeatedArray <> repeatedArray.
Proof. split; [reflexivity|discriminate]. Qed.



(** * Facts about manifest validation *)

Section ValidatorFacts.
Variable validatePluginManifest :
  PluginManifest -> bool * option (list ErrorObject).
Variable isValidVersionRange : string -> bool.

(** C6, as the code has it: validation has two stages.  When the schema
    check fails, every schema violation is returned, formatted, and no
    semantic check is run.  When it passes, the violations of the three
    semantic checks are returned together, and the manifest is valid
    only if there is none: the check of the author format is as fatal
    as the two range checks. *)
Theorem validateManifest_two_stages (manifest : PluginManifest) :
  let result :=
    validateManifest validatePluginManifest isValidVersionRange manifest in
  let claudeRange := claudeCode (compatibility manifest) in
  let nodeRange := node (compatibility manifest) in
  (forall schemaErrors,
     validatePluginManifest manifest = (false, Some schemaErrors) ->
     result = {| valid := false;
                 errors := Some (formatErrors schemaErrors) |}) /\
  (fst (validatePluginManifest manifest) = true ->
   (forall msg,
      msg ∈ default [] (errors result) <->
      (msg = "Invalid claudeCode version range: " +:+ claudeRange /\
       isValidVersionRange claudeRange = false) \/
      (msg = "Invalid node version range: " +:+ nodeRange /\
       isValidVersionRange nodeRange = false) \/
      (msg = authorMessage /\
       includes (author manifest) "<" = false /\
       includes (author manifest) "@" = false)) /\
   (valid result = true <->
      isValidVersionRange claudeRange = true /\
      isValidVersionRange nodeRange = true /\
      (includes (author manifest) "<" = true \/
       includes (author manifest) "@" = true))).
Proof.
  intros result claudeRange nodeRange. subst result claudeRange nodeRange.
  unfold validateManifest. split.
  - by intros schemaErrors ->.
  - destruct (validatePluginManifest manifest) as [[] errs]; [|done].
    intros _.
    destruct (isValidVersionRange (claudeCode (compatibility manifest))),
             (isValidVersionRange (node (compatibility manifest))),
             (includes (author manifest) "<"),
             (includes (author manifest) "@"); simpl;
      (split; [intros msg; rewrite ?elem_of_cons, ?elem_of_nil|]);
      intuition congruence.
Qed.
End ValidatorFacts.

Lemma validateManifest_two_stages_witness :
  validateManifest namePatternCheck knownRange
    (manifestOf "Express Kit" "Kit" "banana" ">=18.0.0")
  = {| valid := false;
       errors := Some (formatErrors
                         [{| instancePath := "/name";
                             message := Some ("must match pattern " +:+ dquote +:+
                                              namePattern +:+ dquote);
                             keyword := Pattern namePattern |}]) |} /\
  (valid (validateManifest namePatternCheck knownRange
            (manifestOf "express" "Kit <kit@example.com>" ">=1.0.0" ">=18.0.0"))
   = true <->
   knownRange ">=1.0.0" = true /\ knownRange ">=18.0.0" = true /\
   (includes "Kit <kit@example.com>" "<" = true \/
    includes "Kit <kit@example.com>" "@" = true)).
Proof.
  split.
  - apply (validateManifest_two_stages namePatternCheck knownRange
             (manifestOf "Express Kit" "Kit" "banana" ">=18.0.0")).
    reflexivity.
  - apply (validateManifest_two_stages namePatternCheck knownRange
             (manifestOf "express" "Kit <kit@example.com>" ">=1.0.0" ">=18.0.0")).
    reflexivity.
Defined.

(** C6, as stated, fails twice: with a schema violation the invalid range
    is not reported, and a manifest whose only issue is the author format
    is invalid. *)
Lemma validateManifest_counterexample :
  (knownRange "banana" = false /\
   errors (validateManifest namePatternCheck knownRange
             (manifestOf "Express Kit" "Kit <kit@example.com>" "banana" ">=18.0.0"))
   = Some ["/name: must match pattern " +:+ dquote +:+ namePattern +:+ dquote +:+
           " (expected pattern: " +:+ namePattern +:+ ")"]) /\
  validateManifest namePatternCheck knownRange
    (manifestOf "express" "Kit" ">=1.0.0" ">=18.0.0")
  = {| valid := false; errors := Some [authorMessage] |}.
Proof. split; [split|]; reflexivity. Qed.

(** * Facts about the installer *)

Section InstallerFacts.
Variable extname : string -> string.
Variable decode : list Byte.byte -> text.
Variable encode : text -> list Byte.byte.

(** What [copyFile] does, case by case.  An existing destination is
    left as it is unless [force] is set, and a dry run changes no file.
    Otherwise the destination receives what was read, with the
    variables substituted when the extension is one of the text
    formats, encoded again; no other file changes. *)
Lemma copyFile_cases (fs : FileSystem) (src dest : string)
    (context : TemplateContext) (options : InstallOptions) :
  let run := copyFile extname decode encode fs src dest context options in
  (is_Some (fs !! dest) -> force options = false -> run = Return fs) /\
  (dryRun options = true -> run = Return fs) /\
  (dryRun options = false ->
   force options = true \/ fs !! dest = None ->
   forall bytes, fs !! src = Some bytes ->
     exists fs',
       run = Return fs' /\
       (forall p, p <> dest -> fs' !! p = fs !! p) /\
       (extname src ∈ textExtensions ->
        fs' !! dest = Some (encode (replaceText (decode bytes) context))) /\
       (extname src ∉ textExtensions ->
        fs' !! dest = Some (encode (decode bytes)))).
Proof.
  intros run. subst run. unfold copyFile. split_and!.
  - intros Hdest ->. by rewrite bool_decide_eq_true_2.
  - intros ->. by destruct (_ && _).
  - intros -> Hwrite bytes Hsrc.
    assert (bool_decide (is_Some (fs !! dest)) && negb (force options) = false)
      as ->.
    { destruct Hwrite as [->|Hnone]; [apply andb_false_r|].
      rewrite bool_decide_eq_false_2; [done|]. rewrite Hnone.
      by intros [? ?]. }
    rewrite Hsrc. eexists. split; [done|]. split_and!.
    + intros p Hp. by rewrite lookup_insert_ne.
    + intros Hext. by rewrite bool_decide_eq_true_2, lookup_insert_eq.
    + intros Hext. by rewrite bool_decide_eq_false_2, lookup_insert_eq.
Qed.
End InstallerFacts.

(** C7: a file whose extension is not in the list of text formats is not
    copied byte for byte.  [copyFile] reads and writes every file as
    UTF-8 text, so the first byte of a PNG file, 89, which no UTF-8 text
    holds, reaches the destination as the three bytes ef bf bd of the
    replacement character; the bytes of a UTF-8 text are copied as they
    are. *)
Theorem copyFile_not_byte_for_byte :
  pictureProject !! ".claude/hooks/logo.png" = None /\
  (extensionOf "core/hooks/logo.png" ∉ textExtensions) /\
  (exists fs',
     copyFile extensionOf utf8Decode utf8Encode pictureProject
       "core/hooks/logo.png" ".claude/hooks/logo.png" sampleContext
       {| force := false; dryRun := false; verbose := false |} = Return fs' /\
     fs' !! ".claude/hooks/logo.png" =
       Some [Byte.xef; Byte.xbf; Byte.xbd;
             Byte.x50; Byte.x4e; Byte.x47; Byte.x0d; Byte.x0a; Byte.x1a; Byte.x0a] /\
     fs' !! ".claude/hooks/logo.png" <> pictureProject !! "core/hooks/logo.png") /\
  utf8Encode (utf8Decode accentedText) = accentedText.
Proof.
  split_and!.
  - reflexivity.
  - intros Hin. vm_compute in Hin.
    repeat (apply elem_of_cons in Hin as [Hin|Hin]; [discriminate Hin|]).
    by apply elem_of_nil in Hin.
  - eexists. split; [reflexivity|]. split; [by vm_compute|].
    vm_compute. discriminate.
  - by vm_compute.
Qed.

(** * Template engine: further properties *)

Lemma string_list_roundtrip (w : text) :
  String.list_ascii_of_string (String.string_of_list_ascii w) = w.
Proof. apply String.list_ascii_of_string_of_list_ascii. Qed.

(** What is left to match after a replacement under an inert context: the
    matches of the text that the context does not know, in their order. *)
Lemma matchedNames_replaceText context s :
  inertContext context ->
  matchedNames (scan (replaceText s context)) =
  filter (fun v => context !! v = None) (matchedNames (scan s)).
Proof.
  intros Hctx. remember (length s) as k eqn:Hk.
  revert s Hk. induction k as [k IH] using lt_wf_ind. intros s Hk.
  assert (Habs : forall p, Forall (segmentAbsent context) (scan p) ->
            filter (fun v => context !! v = None) (matchedNames (scan p))
            = matchedNames (scan p)).
  { intros p Hp. apply filter_all. intros x Hx.
    apply elem_of_matchedNames in Hx as (n & Hn & ->).
    rewrite Forall_forall in Hp. apply (Hp _ Hn). }
  destruct (scan_first_known context s)
    as [Hall|(p & n & q & v & Hs & Hv & Hp & Hq)].
  - rewrite replaceText_absent by done. by rewrite Habs.
  - assert (Hrep : replaceText s context =
                   p ++ String.list_ascii_of_string v ++ replaceText q context).
    { unfold replaceText at 1. rewrite Hq, flat_map_app. simpl.
      unfold replacer. rewrite Hv. f_equal.
      by apply replaceText_absent. }
    rewrite Hrep. pose proof (Hctx _ _ Hv) as Hin. unfold inertValue in Hin.
    destruct (String.list_ascii_of_string v) as [|c w] eqn:Hw; [done|].
    simpl in Hin. apply andb_prop in Hin as [Hc Hin].
    rewrite scan_app_stop by (by apply stops_inert).
    rewrite (scan_inert_app (c :: w)) by (simpl; by rewrite Hc, Hin).
    rewrite Hq, !matchedNames_app, matchedNames_units. simpl.
    rewrite filter_app, filter_cons_False by (by rewrite Hv).
    rewrite Habs by done. f_equal.
    apply (IH (length q)); [|done].
    subst k. rewrite Hs, !length_app, placeholder_length. lia.
Qed.

Lemma extractVariables_replaceVariables_missing s context :
  inertContext context ->
  extractVariables (replaceVariables s context) =
  filter (fun v => context !! v = None) (extractVariables s).
Proof.
  intros Hctx. unfold extractVariables, replaceVariables.
  rewrite string_list_roundtrip, matchedNames_replaceText by done.
  set (P := fun v : string => bool_decide (context !! v = None)).
  rewrite (list_filter_iff _ P) by (intros x; unfold P; by rewrite bool_decide_spec).
  rewrite (list_filter_iff (fun v => context !! v = None) P)
    by (intros x; unfold P; by rewrite bool_decide_spec).
  symmetry. apply filter_arrayFromSet.
  intros x y Hxy%String.eqb_eq. by subst.
Qed.

Lemma replaceText_agree s (c1 c2 : TemplateContext) :
  (forall x, x ∈ matchedNames (scan s) -> c1 !! x = c2 !! x) ->
  replaceText s c1 = replaceText s c2.
Proof.
  unfold replaceText. induction (scan s) as [|g gs IH]; [done|].
  intros Hagree. simpl. f_equal.
  - destruct g as [c|n]; [done|]. simpl. unfold replacer.
    rewrite (Hagree (String.string_of_list_ascii n)); [done|].
    simpl. apply elem_of_cons. by left.
  - apply IH. intros x Hx. apply Hagree. destruct g; simpl; [done|].
    apply elem_of_cons. by right.
Qed.

(** X1.  Under a context whose values are inert, replacing twice is
    replacing once: the text that [replaceVariables] returns is left as it
    is by a second pass with the same context. *)
Theorem replaceVariables_idempotent (s : string) (context : TemplateContext) :
  inertContext context ->
  replaceVariables (replaceVariables s context) context =
  replaceVariables s context.
Proof.
  intros Hctx. unfold replaceVariables at 1 2.
  rewrite string_list_roundtrip.
  by rewrite (replaceText_absent context (replaceText _ _))
    by (by apply scan_replaceText_absent).
Qed.

Lemma replaceVariables_idempotent_witness :
  inertContext templateContext /\
  replaceVariables (replaceVariables "{{FRONTEND_DIR}}/{{BACKEND_DIR}}" templateContext)
    templateContext = "web/{{BACKEND_DIR}}".
Proof.
  assert (H : inertContext templateContext).
  { apply (bool_decide_unpack _). vm_compute. reflexivity. }
  split; [exact H|].
  rewrite (replaceVariables_idempotent _ _ H). vm_compute. reflexivity.
Defined.

Lemma execFrom_None skip index s :
  execFrom skip index s = None <-> matchedNames (scan (dropUnits skip s)) = [].
Proof.
  revert skip index. induction s as [|c s IH]; intros skip index; [done|].
  destruct skip as [|k]; cbn [execFrom dropUnits]; [|apply IH].
  rewrite scan_cons.
  destruct (matchVariable (c :: s)) as [[n r]|]; [done|].
  simpl. rewrite (IH 0%nat). by rewrite dropUnits_zero.
Qed.

Lemma hasVariablesAt_zero s : (hasVariablesAt 0 s).1 = hasVariables s.
Proof.
  unfold hasVariablesAt, hasVariables.
  pose proof (execFrom_None 0 0 (String.list_ascii_of_string s)) as H.
  rewrite dropUnits_zero in H.
  destruct (execFrom 0 0 _) as [[n e]|]; simpl; symmetry.
  - apply bool_decide_eq_true. intros Hnil. by apply H in Hnil.
  - apply bool_decide_eq_false. intros Hne. apply Hne. by apply H.
Qed.

Lemma dropUnits_app lastIndex a rest :
  lastIndex <= jsLength a -> exists a', dropUnits lastIndex (a ++ rest) = a' ++ rest.
Proof.
  revert lastIndex. induction a as [|c a IH]; intros lastIndex Hle.
  - simpl in Hle. assert (lastIndex = 0%nat) as -> by lia.
    exists []. apply dropUnits_zero.
  - destruct lastIndex as [|k]; [by exists (c :: a)|].
    cbn [dropUnits app]. apply IH. simpl in Hle. lia.
Qed.

Lemma dropUnits_finds_placeholder lastIndex a n b :
  isName n = true -> lastIndex <= jsLength a ->
  Match n ∈ scan (dropUnits lastIndex (a ++ placeholder n ++ b)).
Proof.
  intros Hn Hle. destruct (dropUnits_app lastIndex a (placeholder n ++ b) Hle)
    as [a' ->].
  by apply scan_finds_placeholder.
Qed.

(** X2.  On a pattern whose [lastIndex] is 0, and under a context whose
    values are inert, the variables found in the replaced text are exactly
    the ones [validateContext] reports as missing, in the same order; so
    the context is valid for a text exactly when [hasVariables] finds no
    variable in the replaced text. *)
Theorem validateContext_missing_remain (s : string) (context : TemplateContext) :
  inertContext context ->
  extractVariablesAt 0 (replaceVariables s context) =
    (validateContextAt 0 s context).2 /\
  ((validateContextAt 0 s context).1 = true <->
   (hasVariablesAt 0 (replaceVariables s context)).1 = false).
Proof.
  intros Hctx. rewrite hasVariablesAt_zero. unfold validateContextAt.
  rewrite !extractVariablesAt_zero.
  change (extractVariables (replaceVariables s context) =
            (validateContext s context).2 /\
          ((validateContext s context).1 = true <->
           hasVariables (replaceVariables s context) = false)).
  split.
  { by apply extractVariables_replaceVariables_missing. }
  unfold validateContext. cbn [fst].
  rewrite <- extractVariables_replaceVariables_missing by done.
  unfold hasVariables, extractVariables.
  rewrite bool_decide_eq_true, bool_decide_eq_false.
  destruct (matchedNames _) as [|x xs]; simpl; [tauto|].
  split; [lia|]. intros H. by destruct H.
Qed.

Lemma validateContext_missing_remain_witness :
  inertContext templateContext /\
  extractVariablesAt 0
    (replaceVariables "{{BACKEND_DIR}} {{FRONTEND_DIR}} {{KEY}}" templateContext)
  = ["BACKEND_DIR"; "KEY"].
Proof.
  assert (H : inertContext templateContext).
  { apply (bool_decide_unpack _). vm_compute. reflexivity. }
  split; [exact H|].
  destruct (validateContext_missing_remain
              "{{BACKEND_DIR}} {{FRONTEND_DIR}} {{KEY}}" _ H) as [-> _].
  vm_compute. reflexivity.
Defined.

(** X3.  The result of [replaceVariables] depends on the context only
    through the variables that [extractVariables], on a pattern whose
    [lastIndex] is 0, finds in the text: two contexts that agree on them
    give the same text, whatever else they hold. *)
Theorem replaceVariables_only_extracted (s : string) (c1 c2 : TemplateContext) :
  (forall x, x ∈ extractVariablesAt 0 s -> c1 !! x = c2 !! x) ->
  replaceVariables s c1 = replaceVariables s c2.
Proof.
  intros Hagree. unfold replaceVariables. f_equal.
  apply replaceText_agree. intros x Hx. apply Hagree.
  rewrite extractVariablesAt_zero. unfold extractVariables.
  by apply elem_of_arrayFromSet_string.
Qed.

Lemma replaceVariables_only_extracted_witness :
  replaceVariables "{{FRONTEND_DIR}}/src" templateContext =
  replaceVariables "{{FRONTEND_DIR}}/src" {[ "FRONTEND_DIR" := "web" ]}.
Proof.
  apply replaceVariables_only_extracted.
  intros x Hx. vm_compute in Hx.
  apply list_elem_of_singleton in Hx as ->. reflexivity.
Defined.

(** X4.  A well-formed placeholder is found wherever it stands: its name
    is among the extracted variables as long as the [lastIndex] of the
    pattern is not beyond the index at which the placeholder starts, and
    when the context knows the name the placeholder is replaced by the
    value while the text before it and the text after it are replaced on
    their own. *)
Theorem replaceVariables_at_placeholder
    (a n b value : string) (context : TemplateContext) :
  isName (String.list_ascii_of_string n) = true ->
  (forall lastIndex, lastIndex <= jsLength (String.list_ascii_of_string a) ->
     n ∈ extractVariablesAt lastIndex (a +:+ "{{" +:+ n +:+ "}}" +:+ b)) /\
  (context !! n = Some value ->
   replaceVariables (a +:+ "{{" +:+ n +:+ "}}" +:+ b) context =
   replaceVariables a context +:+ value +:+ replaceVariables b context).
Proof.
  intros Hn.
  assert (Hs : String.list_ascii_of_string (a +:+ "{{" +:+ n +:+ "}}" +:+ b) =
               String.list_ascii_of_string a ++
               placeholder (String.list_ascii_of_string n) ++
               String.list_ascii_of_string b).
  { rewrite !list_ascii_of_string_app. unfold placeholder. simpl.
    by rewrite <- !app_assoc. }
  assert (Hscan : scan (String.list_ascii_of_string (a +:+ "{{" +:+ n +:+ "}}" +:+ b)) =
                  scan (String.list_ascii_of_string a) ++
                  Match (String.list_ascii_of_string n) ::
                  scan (String.list_ascii_of_string b)).
  { rewrite Hs, scan_app_stop by apply stops_placeholder.
    by rewrite scan_placeholder. }
  split.
  - intros lastIndex Hle. unfold extractVariablesAt.
    apply elem_of_arrayFromSet_string, elem_of_matchedNames.
    exists (String.list_ascii_of_string n).
    split; [|by rewrite String.string_of_list_ascii_of_string].
    rewrite Hs. by apply dropUnits_finds_placeholder.
  - intros Hv. unfold replaceVariables, replaceText.
    rewrite Hscan, flat_map_app. simpl. unfold replacer.
    rewrite String.string_of_list_ascii_of_string, Hv.
    by rewrite !string_of_list_ascii_app, String.string_of_list_ascii_of_string.
Qed.

Lemma replaceVariables_at_placeholder_witness :
  "FRONTEND_DIR" ∈
    extractVariablesAt 3 ("{{{" +:+ "{{" +:+ "FRONTEND_DIR" +:+ "}}" +:+ "}/x") /\
  replaceVariables ("{{{" +:+ "{{" +:+ "FRONTEND_DIR" +:+ "}}" +:+ "}/x") templateContext
  = "{{{web}/x".
Proof.
  destruct (replaceVariables_at_placeholder "{{{" "FRONTEND_DIR" "}/x" "web"
              templateContext eq_refl) as [H1 H2].
  split; [apply H1; simpl; lia|]. rewrite H2 by reflexivity. vm_compute. reflexivity.
Defined.

Lemma mergeContexts_snoc cs c : mergeContexts (cs ++ [c]) = c ∪ mergeContexts cs.
Proof. unfold mergeContexts. by rewrite fold_left_app. Qed.

Lemma mergeContexts_app cs1 cs2 :
  mergeContexts (cs1 ++ cs2) = mergeContexts cs2 ∪ mergeContexts cs1.
Proof.
  induction cs2 as [|c cs2 IH] using rev_ind.
  - rewrite app_nil_r. unfold mergeContexts at 2. simpl.
    by rewrite (left_id_L ∅ (∪)).
  - by rewrite app_assoc, !mergeContexts_snoc, IH, (assoc_L (∪)).
Qed.

Lemma mergeContexts_lookup_None cs k :
  mergeContexts cs !! k = None <-> forall c, c ∈ cs -> c !! k = None.
Proof.
  induction cs as [|c cs IH] using rev_ind.
  - split; [by intros _ c ?%elem_of_nil|done].
  - rewrite mergeContexts_snoc, lookup_union_None, IH. split.
    + intros [Hc Hcs] c' [?| ->%list_elem_of_singleton]%elem_of_app; auto.
    + intros H. split; [|intros c' Hc']; apply H; apply elem_of_app;
        [right; by apply list_elem_of_singleton|by left].
Qed.

(** X5.  On contexts that have no property named [__proto__],
    [mergeContexts] gives every key the value of the last context that
    defines it; a key that no context defines, and that is not a name of
    [Object.prototype], stays undefined; and merging the merged halves of
    a list is merging the list. *)
Theorem mergeContexts_last_wins
    (before after : list TemplateContext) (c : TemplateContext) (k v : string) :
  Forall noProto (before ++ c :: after) ->
  c !! k = Some v ->
  (forall c', c' ∈ after -> c' !! k = None) ->
  mergeContexts (before ++ c :: after) !! k = Some v /\
  (forall cs k', Forall noProto cs -> inheritedName k' = false ->
     (mergeContexts cs !! k' = None <-> forall c', c' ∈ cs -> c' !! k' = None)) /\
  (forall cs1 cs2, Forall noProto (cs1 ++ cs2) ->
     mergeContexts [mergeContexts cs1; mergeContexts cs2] =
     mergeContexts (cs1 ++ cs2)).
Proof.
  intros _ Hc Hafter. split_and!.
  - rewrite mergeContexts_app.
    change (c :: after) with ([c] ++ after). rewrite mergeContexts_app.
    apply lookup_union_Some_l. apply lookup_union_Some_raw. right.
    split; [by apply mergeContexts_lookup_None|].
    change [c] with ([] ++ [c]). rewrite mergeContexts_snoc.
    by apply lookup_union_Some_l.
  - intros cs k' _ _. apply mergeContexts_lookup_None.
  - intros cs1 cs2 _. rewrite mergeContexts_app.
    unfold mergeContexts at 1. simpl. by rewrite (right_id_L ∅ (∪)).
Qed.

Lemma mergeContexts_last_wins_witness :
  mergeContexts ([createDefaultContext "/srv/app"] ++
                 {[ "PROJECT_NAME" := "shop" ]} :: [templateContext])
    !! "PROJECT_NAME" = Some "shop".
Proof.
  apply (mergeContexts_last_wins [createDefaultContext "/srv/app"] [templateContext]
           {[ "PROJECT_NAME" := "shop" ]} "PROJECT_NAME" "shop").
  - repeat constructor.
  - reflexivity.
  - intros c' ->%list_elem_of_singleton. reflexivity.
Defined.

Lemma splitFrom_app piece v s :
  forallb (fun c => negb (isSeparator c)) v = true ->
  splitFrom piece (v ++ s) = splitFrom (piece ++ v) s.
Proof.
  revert piece. induction v as [|c v IH]; intros piece.
  - by rewrite app_nil_r.
  - simpl. intros [Hc Hv]%andb_prop. apply negb_true_iff in Hc. rewrite Hc.
    rewrite IH by done. by rewrite <- app_assoc.
Qed.

Lemma last_splitFrom_is_Some piece s : is_Some (last (splitFrom piece s)).
Proof.
  revert piece. induction s as [|c s IH]; intros piece; simpl; [by eexists|].
  destruct (isSeparator c); [|apply IH].
  rewrite last_cons. by destruct (last (splitFrom [] s)).
Qed.

Lemma last_splitFrom_sep piece dir c s :
  isSeparator c = true ->
  last (splitFrom piece (dir ++ c :: s)) = last (splitFrom [] s).
Proof.
  intros Hc. revert piece. induction dir as [|d dir IH]; intros piece; simpl.
  - rewrite Hc, last_cons.
    by destruct (last_splitFrom_is_Some [] s) as [x ->].
  - destruct (isSeparator d); [|apply IH].
    rewrite last_cons, IH.
    by destruct (last_splitFrom_is_Some [] s) as [x ->].
Qed.

Lemma projectName_plain (name : text) :
  forallb (fun c => negb (isSeparator c)) name = true ->
  last (splitFrom [] name) = Some name.
Proof.
  intros Hname. rewrite <- (app_nil_r name) at 1.
  by rewrite splitFrom_app.
Qed.

Lemma last_splitFrom_noSeparator piece s p :
  forallb (fun x => negb (isSeparator x)) piece = true ->
  last (splitFrom piece s) = Some p ->
  forallb (fun x => negb (isSeparator x)) p = true.
Proof.
  revert piece. induction s as [|c s IH]; intros piece Hpiece; simpl.
  - by intros [= <-].
  - destruct (isSeparator c) eqn:Hc.
    + rewrite last_cons.
      destruct (last_splitFrom_is_Some [] s) as [x Hx]. rewrite Hx.
      intros [= <-]. by apply (IH []).
    + apply IH. rewrite forallb_app, Hpiece. simpl. by rewrite Hc.
Qed.

Lemma string_of_list_ascii_nonempty c w :
  String.string_of_list_ascii (c :: w) <> EmptyString.
Proof. done. Qed.

(** X6.  [createDefaultContext] names the project after what follows the
    last separator of the root, a slash or a backslash, and after the
    whole root when it has none; when nothing follows, the name is
    'project'.  The name is thus never empty and holds no separator. *)
Theorem createDefaultContext_projectName (dir name : string) (c : ascii) :
  forallb (fun x => negb (isSeparator x)) (String.list_ascii_of_string name) = true ->
  isSeparator c = true ->
  let expected := match name with EmptyString => "project" | _ => name end in
  createDefaultContext name !! "PROJECT_NAME" = Some expected /\
  createDefaultContext (dir +:+ String c name) !! "PROJECT_NAME" = Some expected /\
  (forall root, exists projectName,
     createDefaultContext root !! "PROJECT_NAME" = Some projectName /\
     projectName <> EmptyString /\
     forallb (fun x => negb (isSeparator x))
       (String.list_ascii_of_string projectName) = true).
Proof.
  intros Hname Hc expected.
  assert (Hlook : forall root,
            createDefaultContext root !! "PROJECT_NAME" = Some (projectName root)).
  { intros root. unfold createDefaultContext.
    rewrite lookup_insert_ne by done. by rewrite lookup_insert_eq. }
  assert (Hplain : projectName name = expected).
  { unfold projectName, splitPieces. rewrite projectName_plain by done.
    destruct (String.list_ascii_of_string name) as [|d w] eqn:Hw.
    - assert (Hnil : name = EmptyString)
        by (by rewrite <- (String.string_of_list_ascii_of_string name), Hw).
      subst expected. by rewrite Hnil.
    - rewrite <- Hw, String.string_of_list_ascii_of_string.
      subst expected. by destruct name. }
  split_and!.
  - by rewrite Hlook, Hplain.
  - rewrite Hlook, <- Hplain. f_equal. unfold projectName, splitPieces.
    rewrite list_ascii_of_string_app. simpl.
    by rewrite last_splitFrom_sep, projectName_plain by done.
  - intros root. exists (projectName root). split; [apply Hlook|].
    unfold projectName, splitPieces.
    destruct (last_splitFrom_is_Some [] (String.list_ascii_of_string root))
      as [p Hp].
    rewrite Hp. apply last_splitFrom_noSeparator in Hp; [|done].
    destruct p as [|d p]; [done|]. split; [done|].
    by rewrite string_list_roundtrip.
Qed.

Lemma createDefaultContext_projectName_witness :
  createDefaultContext ("C:\work" +:+ String "\" "shop") !! "PROJECT_NAME" = Some "shop" /\
  createDefaultContext ("/srv/app" +:+ String "/" EmptyString) !! "PROJECT_NAME"
    = Some "project".
Proof.
  split.
  - apply (createDefaultContext_projectName "C:\work" "shop" "\"); reflexivity.
  - apply (createDefaultContext_projectName "/srv/app" EmptyString "/"); reflexivity.
Defined.

Lemma isSpecial_backslash : isSpecial "\" = true.
Proof. reflexivity. Qed.

Lemma escapeText_inj s t : escapeText s = escapeText t -> s = t.
Proof.
  revert t. induction s as [|c s IH]; intros [|d t]; simpl.
  - done.
  - by destruct (isSpecial d).
  - by destruct (isSpecial c).
  - destruct (isSpecial c) eqn:Hc, (isSpecial d) eqn:Hd; simpl.
    + intros [= -> Hst]. f_equal. by apply IH.
    + intros [= <- Hst]. by rewrite isSpecial_backslash in Hd.
    + intros [= -> Hst]. by rewrite isSpecial_backslash in Hc.
    + intros [= -> Hst]. f_equal. by apply IH.
Qed.

(** X7.  [escapeRegex] loses nothing: two strings with the same escaped
    form are the same string.  A string without special characters is
    its own escaped form, and escaping at most doubles the length. *)
Theorem escapeRegex_injective :
  (forall s t, escapeRegex s = escapeRegex t -> s = t) /\
  (forall s, forallb (fun c => negb (isSpecial c)) (String.list_ascii_of_string s) = true ->
             escapeRegex s = s) /\
  (forall s, String.length s <= String.length (escapeRegex s) <= 2 * String.length s).
Proof.
  split_and!.
  - intros s t H. unfold escapeRegex in H.
    apply (f_equal String.list_ascii_of_string) in H.
    rewrite !string_list_roundtrip in H. apply escapeText_inj in H.
    apply (f_equal String.string_of_list_ascii) in H.
    by rewrite !String.string_of_list_ascii_of_string in H.
  - intros s Hs. unfold escapeRegex.
    rewrite <- (String.string_of_list_ascii_of_string s) at 2. f_equal.
    induction (String.list_ascii_of_string s) as [|c w IH]; [done|].
    simpl in *. apply andb_prop in Hs as [Hc Hw].
    apply negb_true_iff in Hc. rewrite Hc. simpl. f_equal. by apply IH.
  - intros s. unfold escapeRegex.
    rewrite <- (String.string_of_list_ascii_of_string s) at 1 4.
    induction (String.list_ascii_of_string s) as [|c w IH]; [simpl; lia|].
    simpl. destruct (isSpecial c); simpl; lia.
Qed.

(** ** The deep methods *)

Lemma json_ind' (P : json -> Prop) :
  (forall s, P (JString s)) -> (forall n, P (JNumber n)) ->
  (forall b, P (JBool b)) -> P JNull ->
  (forall items, Forall P items -> P (JArray items)) ->
  (forall entries, Forall (fun e => P e.2) entries -> P (JObject entries)) ->
  forall j, P j.
Proof.
  intros HS HN HB H0 HA HO. fix IH 1.
  intros [s|n|b| |items|entries]; [apply HS|apply HN|apply HB|apply H0| |].
  - apply HA. induction items as [|x xs IHxs]; constructor; [apply IH|apply IHxs].
  - apply HO. induction entries as [|[k x] xs IHxs]; constructor;
      [apply IH|apply IHxs].
Qed.

Lemma setField_fresh {A} k (v : A) (m : list (string * A)) :
  k ∉ m.*1 -> setField k v m = m ++ [(k, v)].
Proof.
  induction m as [|[j w] m IH]; [done|]. simpl.
  intros [Hj Hm]%not_elem_of_cons.
  destruct (String.eqb_spec k j) as [->|]; [done|]. by rewrite IH.
Qed.

(** Filling a fresh object by assignment, key after key, gives the
    entries back when no key occurs twice. *)
Lemma fold_setField {A} (l acc : list (string * A)) :
  NoDup (acc.*1 ++ l.*1) ->
  fold_left (fun result '(key, value) => setField key value result) l acc
  = acc ++ l.
Proof.
  revert acc. induction l as [|[k v] l IH]; intros acc Hnd; simpl.
  - by rewrite app_nil_r.
  - simpl in Hnd. rewrite setField_fresh.
    + rewrite IH; [by rewrite <- app_assoc|].
      rewrite fmap_app. simpl. by rewrite <- app_assoc.
    + apply NoDup_app in Hnd as (_ & Hd & _). intros Hk.
      apply (Hd _ Hk). apply elem_of_cons. by left.
Qed.

Lemma keys_replaced (entries : list (string * json)) context :
  (map (fun '(key, value) =>
          (key, replaceVariablesInObject value context)) entries).*1
  = entries.*1.
Proof. induction entries as [|[k v] l IH]; [done|]. simpl. f_equal. apply IH. Qed.

Lemma replaceVariablesInObject_obj entries context :
  NoDup entries.*1 ->
  replaceVariablesInObject (JObject entries) context =
  JObject (map (fun '(key, value) =>
                  (key, replaceVariablesInObject value context)) entries).
Proof.
  intros Hnd. cbn [replaceVariablesInObject]. f_equal.
  rewrite fold_setField; [done|]. rewrite keys_replaced. exact Hnd.
Qed.

Lemma uniqueKeys_obj entries :
  uniqueKeys (JObject entries) = true <->
  NoDup entries.*1 /\ Forall (fun e => uniqueKeys e.2 = true) entries.
Proof.
  cbn [uniqueKeys]. rewrite andb_true_iff, bool_decide_eq_true.
  rewrite forallb_forall, Forall_forall.
  split; intros [H1 H2]; (split; [done|]).
  - intros [k v] Hin%list_elem_of_In. apply (H2 _ Hin).
  - intros [k v] Hin%list_elem_of_In. apply (H2 _ Hin).
Qed.

Lemma uniqueKeys_arr items :
  uniqueKeys (JArray items) = true <-> Forall (fun x => uniqueKeys x = true) items.
Proof.
  cbn [uniqueKeys]. rewrite forallb_forall, Forall_forall.
  split; intros H x Hx; apply H; by apply list_elem_of_In.
Qed.

(** The strings of the result are the replaced strings of the argument,
    and the result lists no key twice either. *)
Lemma stringsOf_replaceVariablesInObject obj context :
  uniqueKeys obj = true ->
  stringsOf (replaceVariablesInObject obj context) =
    map (fun s => replaceVariables s context) (stringsOf obj) /\
  uniqueKeys (replaceVariablesInObject obj context) = true.
Proof.
  induction obj as [s|n|b| |items IH|entries IH] using json_ind'; try done.
  - intros Hu%uniqueKeys_arr. cbn [replaceVariablesInObject stringsOf].
    rewrite uniqueKeys_arr.
    induction items as [|x xs IHxs]; [done|].
    apply Forall_cons in IH as [Hx Hxs]. apply Forall_cons in Hu as [Hux Huxs].
    destruct (Hx Hux) as [Hx1 Hx2]. destruct (IHxs Hxs Huxs) as [H1 H2].
    simpl. split; [by rewrite map_app, Hx1, H1|by constructor].
  - intros [Hnd Hu]%uniqueKeys_obj.
    rewrite replaceVariablesInObject_obj by done.
    rewrite uniqueKeys_obj, keys_replaced. cbn [stringsOf].
    cut (flat_map (fun '(_, v) => stringsOf v)
           (map (fun '(key, value) =>
                   (key, replaceVariablesInObject value context)) entries)
         = map (fun s => replaceVariables s context)
             (flat_map (fun '(_, v) => stringsOf v) entries) /\
         Forall (fun e => uniqueKeys e.2 = true)
           (map (fun '(key, value) =>
                   (key, replaceVariablesInObject value context)) entries));
      [tauto|].
    clear Hnd. induction entries as [|[k x] xs IHxs]; [done|].
    apply Forall_cons in IH as [Hx Hxs]. apply Forall_cons in Hu as [Hux Huxs].
    destruct (Hx Hux) as [Hx1 Hx2].
    destruct (IHxs Hxs Huxs) as (H1 & H2). simpl in *.
    split; [by rewrite map_app, Hx1, H1|by constructor].
Qed.

Lemma replaceVariablesInObject_fixed obj context :
  uniqueKeys obj = true ->
  (forall s, s ∈ stringsOf obj -> replaceVariables s context = s) ->
  replaceVariablesInObject obj context = obj.
Proof.
  induction obj as [s|n|b| |items IH|entries IH] using json_ind'; try done.
  - intros _ Hs. simpl. f_equal. apply Hs. simpl. apply elem_of_cons. by left.
  - intros Hu%uniqueKeys_arr Hs. cbn [replaceVariablesInObject]. f_equal.
    cbn [stringsOf] in Hs.
    induction items as [|x xs IHxs]; [done|].
    apply Forall_cons in IH as [Hx Hxs]. apply Forall_cons in Hu as [Hux Huxs].
    simpl in *. f_equal.
    + apply Hx; [done|]. intros s Hin. apply Hs, elem_of_app. by left.
    + apply IHxs; [done..|]. intros s Hin. apply Hs, elem_of_app. by right.
  - intros [Hnd Hu]%uniqueKeys_obj Hs.
    rewrite replaceVariablesInObject_obj by done. f_equal.
    cbn [stringsOf] in Hs. clear Hnd.
    induction entries as [|[k x] xs IHxs]; [done|].
    apply Forall_cons in IH as [Hx Hxs]. apply Forall_cons in Hu as [Hux Huxs].
    simpl in *. f_equal.
    + f_equal. apply Hx; [done|]. intros s Hin. apply Hs, elem_of_app. by left.
    + apply IHxs; [done..|]. intros s Hin. apply Hs, elem_of_app. by right.
Qed.

Lemma elem_of_existsb_eqb v (variables : list string) :
  existsb (String.eqb v) variables = true <-> v ∈ variables.
Proof.
  rewrite existsb_exists. split.
  - intros (x & Hx%list_elem_of_In & ->%String.eqb_eq). done.
  - intros Hv. exists v. split; [by apply list_elem_of_In|apply String.eqb_refl].
Qed.

(** Adding the elements of [xs] to a set, one after the other. *)
Lemma fold_setAdd xs variables :
  fold_left setAdd xs variables =
  variables ++ filter (fun x => x ∉ variables) (arrayFromSet String.eqb xs).
Proof.
  revert variables. induction xs as [|x xs IH]; intros variables; simpl.
  - by rewrite app_nil_r.
  - rewrite IH. unfold setAdd.
    assert (Hneq : forall l : list string,
              filter (fun y => negb (String.eqb x y)) l = filter (fun y => y <> x) l).
    { intros l. apply list_filter_iff. intros y.
      destruct (String.eqb_spec x y) as [->|]; simpl; naive_solver. }
    rewrite Hneq.
    destruct (existsb (String.eqb x) variables) eqn:Hx.
    + apply elem_of_existsb_eqb in Hx.
      rewrite filter_cons_False by (intros H; by apply H).
      f_equal. rewrite list_filter_filter. apply list_filter_iff.
      intros y. split; [|tauto]. intros Hy. split; [done|]. by intros ->.
    + assert (Hx' : x ∉ variables).
      { intros Hin%elem_of_existsb_eqb. by rewrite Hin in Hx. }
      rewrite filter_cons_True by done. rewrite <- app_assoc. simpl.
      do 2 f_equal. rewrite list_filter_filter. apply list_filter_iff.
      intros y. rewrite not_elem_of_app, list_elem_of_singleton. tauto.
Qed.

Lemma extract_stringsOf obj variables :
  extract obj variables =
  fold_left setAdd (flat_map extractVariables (stringsOf obj)) variables.
Proof.
  revert variables.
  induction obj as [s|n|b| |items IH|entries IH] using json_ind';
    intros variables; try done.
  - simpl. by rewrite app_nil_r.
  - cbn [extract stringsOf]. revert variables.
    induction items as [|x xs IHxs]; intros variables; [done|].
    apply Forall_cons in IH as [Hx Hxs]. simpl.
    rewrite flat_map_app, fold_left_app, <- Hx. by apply IHxs.
  - cbn [extract stringsOf]. revert variables.
    induction entries as [|[k x] xs IHxs]; intros variables; [done|].
    apply Forall_cons in IH as [Hx Hxs]. simpl in *.
    rewrite flat_map_app, fold_left_app, <- Hx. by apply IHxs.
Qed.

Lemma extractVariablesFromObject_stringsOf obj :
  extractVariablesFromObject obj =
  arrayFromSet String.eqb (flat_map extractVariables (stringsOf obj)).
Proof.
  unfold extractVariablesFromObject. rewrite extract_stringsOf, fold_setAdd.
  simpl. apply filter_all. intros x _. apply not_elem_of_nil.
Qed.

Lemma replaceVariables_absent s (context : TemplateContext) :
  (forall x, x ∈ extractVariables s -> context !! x = None) ->
  replaceVariables s context = s.
Proof.
  intros Habs. unfold replaceVariables.
  rewrite replaceText_absent; [apply String.string_of_list_ascii_of_string|].
  apply Forall_forall. intros [c|n] Hin; simpl; [done|].
  apply Habs. unfold extractVariables. apply elem_of_arrayFromSet_string.
  apply elem_of_matchedNames. by exists n.
Qed.

(** X8.  [extractVariablesFromObject] reports a variable exactly when it
    occurs in one of the string values of the data, at any depth, and
    reports it once; the keys of objects are not scanned. *)
Theorem extractVariablesFromObject_spec (obj : json) :
  NoDup (extractVariablesFromObject obj) /\
  (forall x, x ∈ extractVariablesFromObject obj <->
             exists s, s ∈ stringsOf obj /\ x ∈ extractVariables s) /\
  (forall key, extractVariablesFromObject (JObject [(key, JNull)]) = []).
Proof.
  rewrite extractVariablesFromObject_stringsOf. split_and!.
  - apply NoDup_arrayFromSet_string.
  - intros x. rewrite elem_of_arrayFromSet_string, list_elem_of_In, in_flat_map.
    split; intros (s & H1 & H2); exists s; split.
    all: by apply list_elem_of_In.
  - done.
Qed.

Lemma extractAt_zero obj variables : extractAt 0 obj variables = extract obj variables.
Proof.
  revert variables.
  induction obj as [s|n|b| |items IH|entries IH] using json_ind';
    intros variables; try done.
  - simpl. by rewrite extractVariablesAt_zero.
  - cbn [extractAt extract]. revert variables.
    induction items as [|x xs IHxs]; intros variables; [done|].
    apply Forall_cons in IH as [Hx Hxs]. simpl. rewrite Hx. by apply IHxs.
  - cbn [extractAt extract]. revert variables.
    induction entries as [|[k x] xs IHxs]; intros variables; [done|].
    apply Forall_cons in IH as [Hx Hxs]. simpl in *. rewrite Hx. by apply IHxs.
Qed.

Lemma extractVariablesFromObjectAt_zero obj :
  extractVariablesFromObjectAt 0 obj = extractVariablesFromObject obj.
Proof. apply extractAt_zero. Qed.

(** X9.  On data without a property named [__proto__]: when the context
    defines none of the variables that [extractVariablesFromObject], on a
    pattern whose [lastIndex] is 0, finds in the data, as the empty context
    does, [replaceVariablesInObject] returns the data as they are. *)
Theorem replaceVariablesInObject_unknown (obj : json) (context : TemplateContext) :
  uniqueKeys obj = true ->
  noProtoKey obj = true ->
  (forall x, x ∈ extractVariablesFromObjectAt 0 obj -> context !! x = None) ->
  replaceVariablesInObject obj context = obj.
Proof.
  intros Hu _ Habs. apply replaceVariablesInObject_fixed; [done|].
  intros s Hs. apply replaceVariables_absent. intros x Hx. apply Habs.
  rewrite extractVariablesFromObjectAt_zero.
  rewrite extractVariablesFromObject_stringsOf, elem_of_arrayFromSet_string.
  rewrite list_elem_of_In, in_flat_map. exists s.
  by rewrite <- !list_elem_of_In.
Qed.

Lemma replaceVariablesInObject_unknown_witness :
  replaceVariablesInObject templateSettings {[ "OTHER" := "x"; "KEY" := "y" ]}
  = templateSettings.
Proof.
  apply replaceVariablesInObject_unknown; [reflexivity..|].
  intros x Hx. vm_compute in Hx.
  repeat (apply elem_of_cons in Hx as [->|Hx]; [reflexivity|]).
  by apply elem_of_nil in Hx.
Defined.

(** X10.  On data without a property named [__proto__] and a pattern whose
    [lastIndex] is 0: under a context whose values are inert, the
    variables left in the data that [replaceVariablesInObject] returns are
    the variables of the argument that the context does not define, in the
    same order, and a second pass with the same context changes nothing. *)
Theorem replaceVariablesInObject_replaces_all (obj : json) (context : TemplateContext) :
  uniqueKeys obj = true ->
  noProtoKey obj = true ->
  inertContext context ->
  extractVariablesFromObjectAt 0 (replaceVariablesInObject obj context) =
    filter (fun v => context !! v = None) (extractVariablesFromObjectAt 0 obj) /\
  replaceVariablesInObject (replaceVariablesInObject obj context) context =
    replaceVariablesInObject obj context.
Proof.
  intros Hu _ Hctx. rewrite !extractVariablesFromObjectAt_zero.
  destruct (stringsOf_replaceVariablesInObject obj context Hu) as [Hstr Hu'].
  split.
  - rewrite !extractVariablesFromObject_stringsOf, Hstr.
    set (P := fun v : string => bool_decide (context !! v = None)).
    rewrite (list_filter_iff (fun v => context !! v = None) P)
      by (intros x; unfold P; by rewrite bool_decide_spec).
    rewrite filter_arrayFromSet by (intros x y Hxy%String.eqb_eq; by subst).
    f_equal. clear Hstr. induction (stringsOf obj) as [|s l IH]; [done|].
    simpl. rewrite filter_app, IH. f_equal.
    rewrite extractVariables_replaceVariables_missing by done.
    apply list_filter_iff. intros x. unfold P. by rewrite bool_decide_spec.
  - apply replaceVariablesInObject_fixed; [done|].
    intros s Hs. rewrite Hstr in Hs.
    apply list_elem_of_In, in_map_iff in Hs as (s0 & <- & _).
    unfold replaceVariables at 1 2. rewrite string_list_roundtrip.
    by rewrite (replaceText_absent context (replaceText _ _))
      by (by apply scan_replaceText_absent).
Qed.

Lemma replaceVariablesInObject_replaces_all_witness :
  extractVariablesFromObjectAt 0 (replaceVariablesInObject templateSettings templateContext)
  = ["BACKEND_DIR"].
Proof.
  assert (H : inertContext templateContext).
  { apply (bool_decide_unpack _). vm_compute. reflexivity. }
  destruct (replaceVariablesInObject_replaces_all templateSettings templateContext
              eq_refl eq_refl H) as [-> _].
  vm_compute. reflexivity.
Defined.

(** * Merger: further properties *)

Lemma arrayFromSet_string_props :
  (forall x : string, String.eqb x x = true) /\
  (forall x y : string, String.eqb x y = String.eqb y x) /\
  (forall x y z : string, String.eqb x y = true -> String.eqb y z = true ->
                          String.eqb x z = true).
Proof.
  split_and!.
  - apply String.eqb_refl.
  - apply String.eqb_sym.
  - intros x y z ->%String.eqb_eq ->%String.eqb_eq. apply String.eqb_refl.
Qed.

Lemma mergeArrays_assoc a b c :
  mergeArrays (mergeArrays a b) c = mergeArrays a (mergeArrays b c).
Proof.
  destruct arrayFromSet_string_props as (Hr & Hs & Ht).
  destruct a as [x|], b as [y|], c as [z|]; simpl; try done; f_equal;
    rewrite ?app_nil_r;
    rewrite ?arrayFromSet_app_l, ?arrayFromSet_app_r, ?arrayFromSet_idemp,
      ?app_assoc by done; done.
Qed.

Lemma mergeArrays_self a : mergeArrays a a = dedupe a.
Proof.
  destruct arrayFromSet_string_props as (Hr & Hs & Ht).
  destruct a as [x|]; simpl; [|done]. f_equal. by apply arrayFromSet_twice.
Qed.

Lemma dedupe_mergeArrays a b : dedupe (mergeArrays a b) = mergeArrays a b.
Proof.
  destruct arrayFromSet_string_props as (Hr & Hs & Ht).
  destruct a as [x|], b as [y|]; simpl; try done; f_equal;
    by apply arrayFromSet_idemp.
Qed.

Lemma dedupe_idemp a : dedupe (dedupe a) = dedupe a.
Proof.
  destruct arrayFromSet_string_props as (Hr & Hs & Ht).
  destruct a as [x|]; simpl; [|done]. f_equal. by apply arrayFromSet_idemp.
Qed.

Lemma orUndefined_assoc {A} (a b c : option A) :
  orUndefined c (orUndefined b a) = orUndefined (orUndefined c b) a.
Proof. by destruct c. Qed.

Lemma promptTriggers_merge e i :
  promptTriggers (mergeSkillRules e i) =
  match orUndefined (promptTriggers e) (promptTriggers i) with
  | Some _ => Some {| keywords := mergeArrays (keywordsOf e) (keywordsOf i);
                      intentPatterns :=
                        mergeArrays (intentPatternsOf e) (intentPatternsOf i) |}
  | None => None
  end.
Proof. reflexivity. Qed.

Lemma fileTriggers_merge e i :
  fileTriggers (mergeSkillRules e i) =
  match orUndefined (fileTriggers e) (fileTriggers i) with
  | Some _ => Some {| pathPatterns := mergeArrays (pathPatternsOf e) (pathPatternsOf i);
                      pathExclusions :=
                        mergeArrays (pathExclusionsOf e) (pathExclusionsOf i);
                      contentPatterns :=
                        mergeArrays (contentPatternsOf e) (contentPatternsOf i) |}
  | None => None
  end.
Proof. reflexivity. Qed.

Lemma SkillRule_ext (r r' : SkillRule) :
  type r = type r' -> enforcement r = enforcement r' -> priority r = priority r' ->
  promptTriggers r = promptTriggers r' -> fileTriggers r = fileTriggers r' ->
  r = r'.
Proof. destruct r, r'. simpl. by intros -> -> -> -> ->. Qed.

(** X11.  Merging rules is associative: when three fragments define the
    same skill, merging the first two and then the third gives the rule
    that merging the first with the merge of the other two gives. *)
Theorem mergeSkillRules_associative (a b c : SkillRule) :
  mergeSkillRules (mergeSkillRules a b) c =
  mergeSkillRules a (mergeSkillRules b c).
Proof.
  apply SkillRule_ext.
  - apply (orUndefined_assoc (type a) (type b) (type c)).
  - apply (orUndefined_assoc (enforcement a) (enforcement b) (enforcement c)).
  - apply (orUndefined_assoc (priority a) (priority b) (priority c)).
  - rewrite !promptTriggers_merge, !keywordsOf_merge, !intentPatternsOf_merge,
      !mergeArrays_assoc.
    by destruct (promptTriggers a), (promptTriggers b), (promptTriggers c).
  - rewrite !fileTriggers_merge, !pathPatternsOf_merge, !pathExclusionsOf_merge,
      !contentPatternsOf_merge, !mergeArrays_assoc.
    by destruct (fileTriggers a), (fileTriggers b), (fileTriggers c).
Qed.

Lemma mergeSkillRules_self r : mergeSkillRules r r = deduplicateRule r.
Proof.
  apply SkillRule_ext; try by (simpl; destruct r as [[?|] [?|] [?|] ? ?]).
  - rewrite promptTriggers_merge. unfold keywordsOf, intentPatternsOf.
    destruct r as [? ? ? [p|] ?]; simpl; [|done].
    by rewrite !mergeArrays_self.
  - rewrite fileTriggers_merge.
    unfold pathPatternsOf, pathExclusionsOf, contentPatternsOf.
    destruct r as [? ? ? ? [f|]]; simpl; [|done].
    by rewrite !mergeArrays_self.
Qed.

Lemma deduplicateRule_merge existing incoming :
  deduplicateRule (mergeSkillRules existing incoming) =
  mergeSkillRules existing incoming.
Proof.
  apply SkillRule_ext; try done.
  - cbn [deduplicateRule promptTriggers]. rewrite promptTriggers_merge.
    destruct (orUndefined _ _); [|done]. cbn [keywords intentPatterns].
    by rewrite !dedupe_mergeArrays.
  - cbn [deduplicateRule fileTriggers]. rewrite fileTriggers_merge.
    destruct (orUndefined _ _); [|done].
    cbn [pathPatterns pathExclusions contentPatterns].
    by rewrite !dedupe_mergeArrays.
Qed.

Lemma deduplicateRule_idemp r :
  deduplicateRule (deduplicateRule r) = deduplicateRule r.
Proof.
  destruct r as [? ? ? [p|] [f|]]; unfold deduplicateRule; simpl;
    by rewrite ?dedupe_idemp.
Qed.

(** X12.  Merging a rule with itself removes the repeated values of its
    trigger arrays and nothing else: each of the five properties of a
    skill rule is in the result what it is in the rule that
    [deduplicateSkillRules] stores.  A merged rule has no repeated value
    left, so deduplicating it changes none of the five. *)
Theorem mergeSkillRules_self_deduplicates (r existing incoming : SkillRule) :
  (type (mergeSkillRules r r) = type (deduplicateRule r) /\
   enforcement (mergeSkillRules r r) = enforcement (deduplicateRule r) /\
   priority (mergeSkillRules r r) = priority (deduplicateRule r) /\
   promptTriggers (mergeSkillRules r r) = promptTriggers (deduplicateRule r) /\
   fileTriggers (mergeSkillRules r r) = fileTriggers (deduplicateRule r)) /\
  (let merged := mergeSkillRules existing incoming in
   type (deduplicateRule merged) = type merged /\
   enforcement (deduplicateRule merged) = enforcement merged /\
   priority (deduplicateRule merged) = priority merged /\
   promptTriggers (deduplicateRule merged) = promptTriggers merged /\
   fileTriggers (deduplicateRule merged) = fileTriggers merged).
Proof.
  split.
  - by rewrite mergeSkillRules_self.
  - intros merged. unfold merged. by rewrite deduplicateRule_merge.
Qed.

Lemma fold_setField_map {A B} (g : A -> B) (l : list (string * A))
    (acc : list (string * B)) :
  fold_left (fun result '(key, value) => setField key (g value) result) l acc =
  fold_left (fun result '(key, value) => setField key value result)
    (map (fun '(key, value) => (key, g value)) l) acc.
Proof.
  revert acc. induction l as [|[k v] l IH]; intros acc; [done|]. simpl. apply IH.
Qed.

Lemma keys_map_snd {A B} (g : A -> B) (l : list (string * A)) :
  (map (fun '(key, value) => (key, g value)) l).*1 = l.*1.
Proof. induction l as [|[k v] l IH]; [done|]. simpl. f_equal. apply IH. Qed.

Lemma getField_map_snd {A B} (g : A -> B) (l : list (string * A)) k :
  getField k (map (fun '(key, value) => (key, g value)) l) = g <$> getField k l.
Proof.
  induction l as [|[j v] l IH]; [done|]. simpl. by destruct (String.eqb k j).
Qed.

Lemma skills_deduplicateSkillRules fragment :
  NoDup (skills fragment).*1 ->
  skills (deduplicateSkillRules fragment) =
  map (fun '(key, value) => (key, deduplicateRule value)) (skills fragment).
Proof.
  intros Hnd. unfold deduplicateSkillRules. cbn [skills].
  rewrite (fold_setField_map deduplicateRule), fold_setField; [done|].
  by rewrite keys_map_snd.
Qed.

Lemma valuesOf_dedupe a :
  NoDup (valuesOf (dedupe a)) /\
  forall x, x ∈ valuesOf (dedupe a) <-> x ∈ valuesOf a.
Proof.
  destruct a as [l|]; simpl; [|split; [constructor|done]].
  split; [apply NoDup_arrayFromSet_string|].
  intros x. apply elem_of_arrayFromSet_string.
Qed.

(** X13.  On a fragment without a skill named [__proto__],
    [deduplicateSkillRules] keeps the skills, their names and their order,
    and the type, enforcement and priority of each;
    every trigger array of the result holds the values of the original
    array once each; deduplicating a second time changes nothing. *)
Theorem deduplicateSkillRules_spec (fragment : SkillRulesFragment) :
  NoDup (skills fragment).*1 ->
  "__proto__" ∉ (skills fragment).*1 ->
  let result := deduplicateSkillRules fragment in
  (skills result).*1 = (skills fragment).*1 /\
  (forall name rule, getField name (skills fragment) = Some rule ->
     exists rule', getField name (skills result) = Some rule' /\
       type rule' = type rule /\ enforcement rule' = enforcement rule /\
       priority rule' = priority rule /\
       forall triggers,
         triggers ∈ [keywordsOf; intentPatternsOf; pathPatternsOf;
                     pathExclusionsOf; contentPatternsOf] ->
         NoDup (valuesOf (triggers rule')) /\
         (forall x, x ∈ valuesOf (triggers rule') <-> x ∈ valuesOf (triggers rule)) /\
         (triggers rule' = None <-> triggers rule = None)) /\
  deduplicateSkillRules result = result.
Proof.
  intros Hnd _ result.
  assert (Hskills : skills result =
            map (fun '(key, value) => (key, deduplicateRule value)) (skills fragment))
    by (by apply skills_deduplicateSkillRules).
  assert (Hkeys : (skills result).*1 = (skills fragment).*1)
    by (by rewrite Hskills, keys_map_snd).
  split_and!; [done| |].
  - intros name rule Hget. exists (deduplicateRule rule).
    split; [by rewrite Hskills, getField_map_snd, Hget|].
    split_and!; try done. intros triggers Hin.
    assert (Hcase : exists a, triggers (deduplicateRule rule) = dedupe a /\
                              triggers rule = a).
    { repeat (apply elem_of_cons in Hin as [->|Hin]);
        [..|by apply elem_of_nil in Hin];
        unfold keywordsOf, intentPatternsOf, pathPatternsOf, pathExclusionsOf,
          contentPatternsOf;
        destruct rule as [? ? ? [p|] [f|]]; simpl; eauto; by exists None. }
    destruct Hcase as (a & -> & ->).
    destruct (valuesOf_dedupe a) as [H1 H2]. split_and!; [done..|].
    by destruct a.
  - destruct result as [rs] eqn:Hres. simpl in Hskills, Hkeys.
    assert (Heq : skills (deduplicateSkillRules {| skills := rs |}) = rs).
    { rewrite skills_deduplicateSkillRules by (simpl; by rewrite Hkeys).
      simpl. rewrite Hskills. clear.
      induction (skills fragment) as [|[k r] l IH]; [done|]. simpl.
      by rewrite IH, deduplicateRule_idemp. }
    destruct (deduplicateSkillRules {| skills := rs |}). simpl in Heq. by subst.
Qed.

Lemma deduplicateSkillRules_spec_witness :
  NoDup (skills unsortedFragment).*1 /\
  ("__proto__" ∉ (skills unsortedFragment).*1) /\
  (skills (deduplicateSkillRules unsortedFragment)).*1 =
    ["notes"; "style"; "api"; "security"; "routes"] /\
  deduplicateSkillRules (deduplicateSkillRules unsortedFragment) =
    deduplicateSkillRules unsortedFragment.
Proof.
  assert (H : NoDup (skills unsortedFragment).*1).
  { apply (bool_decide_unpack _). vm_compute. reflexivity. }
  assert (H' : "__proto__" ∉ (skills unsortedFragment).*1).
  { apply (bool_decide_unpack _). vm_compute. reflexivity. }
  split; [exact H|]. split; [exact H'|].
  destruct (deduplicateSkillRules_spec unsortedFragment H H') as (Hkeys & _ & Hidem).
  split; [rewrite Hkeys; reflexivity|exact Hidem].
Defined.

(** ** Sorting by priority *)

Lemma insertEntry_perm e l : insertEntry e l ≡ₚ e :: l.
Proof.
  induction l as [|x l IH]; [done|]. simpl.
  destruct (comparePriority e x <=? 0)%Z; [done|].
  rewrite IH. apply Permutation_swap.
Qed.

Lemma sortEntries_perm l : sortEntries l ≡ₚ l.
Proof.
  induction l as [|e l IH]; [done|]. unfold sortEntries. simpl.
  rewrite insertEntry_perm. by constructor.
Qed.

Lemma insertEntry_sorted e l :
  StronglySorted (fun a b => (rank a <= rank b)%Z) l ->
  StronglySorted (fun a b => (rank a <= rank b)%Z) (insertEntry e l).
Proof.
  induction 1 as [|x l Hl IH Hx]; simpl; [repeat constructor|].
  unfold comparePriority. fold (rank e) (rank x).
  destruct (Z.leb_spec (rank e - rank x) 0).
  - constructor; [by constructor|]. constructor; [lia|].
    eapply Forall_impl; [exact Hx|]. simpl. intros y Hy. lia.
  - constructor; [done|].
    rewrite insertEntry_perm. constructor; [lia|done].
Qed.

Lemma sortEntries_sorted l :
  StronglySorted (fun a b => (rank a <= rank b)%Z) (sortEntries l).
Proof.
  induction l as [|e l IH]; [constructor|]. by apply insertEntry_sorted.
Qed.

Lemma insertEntry_filter n e l :
  filter (fun x => rank x = n) (insertEntry e l) =
  filter (fun x => rank x = n) (e :: l).
Proof.
  induction l as [|x l IH]; [done|]. simpl.
  unfold comparePriority. fold (rank e) (rank x).
  destruct (Z.leb_spec (rank e - rank x) 0); [done|].
  rewrite filter_cons, IH, !filter_cons.
  destruct (decide (rank x = n)), (decide (rank e = n)); try done. lia.
Qed.

Lemma sortEntries_filter n l :
  filter (fun x => rank x = n) (sortEntries l) = filter (fun x => rank x = n) l.
Proof.
  induction l as [|e l IH]; [done|]. unfold sortEntries. simpl.
  rewrite insertEntry_filter, !filter_cons. fold (sortEntries l). by rewrite IH.
Qed.

Lemma sortEntries_fixed l :
  StronglySorted (fun a b => (rank a <= rank b)%Z) l -> sortEntries l = l.
Proof.
  induction 1 as [|x l Hl IH Hx]; [done|]. unfold sortEntries. simpl.
  fold (sortEntries l). rewrite IH. destruct l as [|y l]; [done|]. simpl.
  apply Forall_cons in Hx as [Hy _]. unfold comparePriority.
  fold (rank x) (rank y). destruct (Z.leb_spec (rank x - rank y) 0); [done|lia].
Qed.

Lemma skills_sortSkillsByPriority fragment :
  NoDup (skills fragment).*1 ->
  skills (sortSkillsByPriority fragment) = sortEntries (skills fragment).
Proof.
  intros Hnd. unfold sortSkillsByPriority. cbn [skills].
  rewrite fold_setField; [done|]. simpl.
  by rewrite (sortEntries_perm (skills fragment)).
Qed.

Lemma sortEntries_map (g : SkillRule -> SkillRule) l :
  (forall r, priority (g r) = priority r) ->
  sortEntries (map (fun '(key, value) => (key, g value)) l) =
  map (fun '(key, value) => (key, g value)) (sortEntries l).
Proof.
  intros Hg. induction l as [|[k r] l IH]; [done|]. unfold sortEntries. simpl.
  fold (sortEntries l).
  fold (sortEntries (map (fun '(key, value) => (key, g value)) l)).
  rewrite IH. generalize (sortEntries l) as m. clear IH.
  induction m as [|[j w] m IHm]; [done|]. simpl.
  unfold comparePriority. simpl. rewrite !Hg.
  destruct (_ <=? 0)%Z; [done|]. simpl. by rewrite IHm.
Qed.

(** X14.  On a fragment whose skill names are neither [__proto__] nor
    written with digits only, [sortSkillsByPriority] returns the skills of
    the fragment, each once, in the order critical, high, medium, low and then the skills
    without a priority; skills of the same priority keep the order they
    had; sorting a sorted fragment changes nothing. *)
Theorem sortSkillsByPriority_stable (fragment : SkillRulesFragment) :
  NoDup (skills fragment).*1 ->
  Forall (fun name => orderedKey name = true) (skills fragment).*1 ->
  let result := skills (sortSkillsByPriority fragment) in
  result ≡ₚ skills fragment /\
  (forall i j a b, i <= j -> result !! i = Some a -> result !! j = Some b ->
     (priorityOrder (priority a.2) <= priorityOrder (priority b.2))%Z) /\
  (forall n, filter (fun e => priorityOrder (priority e.2) = n) result =
             filter (fun e => priorityOrder (priority e.2) = n) (skills fragment)) /\
  sortSkillsByPriority (sortSkillsByPriority fragment) =
    sortSkillsByPriority fragment.
Proof.
  intros Hnd _ result.
  assert (Hsorted : result = sortEntries (skills fragment))
    by (by apply skills_sortSkillsByPriority).
  split_and!.
  - rewrite Hsorted. apply sortEntries_perm.
  - intros i j a b Hij Ha Hb. rewrite Hsorted in Ha, Hb.
    pose proof (sortEntries_sorted (skills fragment)) as Hs. clear Hsorted.
    destruct (decide (i = j)) as [->|Hne].
    { rewrite Ha in Hb. injection Hb as ->. lia. }
    revert i j Hij Hne Ha Hb. induction Hs as [|x l Hl IH Hx]; intros i j Hij Hne.
    { by rewrite lookup_nil. }
    destruct i as [|i], j as [|j]; try lia; simpl.
    + intros [= ->] Hb. rewrite Forall_forall in Hx.
      apply (Hx b). by eapply list_elem_of_lookup_2.
    + apply IH; lia.
  - intros n. rewrite Hsorted. apply (sortEntries_filter n).
  - unfold result in Hsorted.
    assert (Heq : skills (sortSkillsByPriority (sortSkillsByPriority fragment))
                  = skills (sortSkillsByPriority fragment)).
    { rewrite skills_sortSkillsByPriority.
      - rewrite Hsorted. apply sortEntries_fixed, sortEntries_sorted.
      - by rewrite Hsorted, (sortEntries_perm (skills fragment)). }
    destruct (sortSkillsByPriority (sortSkillsByPriority fragment)),
      (sortSkillsByPriority fragment). simpl in Heq. by subst.
Qed.

Lemma sortSkillsByPriority_stable_witness :
  NoDup (skills unsortedFragment).*1 /\
  Forall (fun name => orderedKey name = true) (skills unsortedFragment).*1 /\
  filter (fun e => priorityOrder (priority e.2) = 1%Z)
    (skills (sortSkillsByPriority unsortedFragment)) =
  [("api", ruleOf (Some high) ["a"; "b"; "a"]); ("routes", ruleOf (Some high) ["r"])].
Proof.
  assert (H : NoDup (skills unsortedFragment).*1).
  { apply (bool_decide_unpack _). vm_compute. reflexivity. }
  assert (H' : Forall (fun name => orderedKey name = true)
                 (skills unsortedFragment).*1) by (by repeat constructor).
  split; [exact H|]. split; [exact H'|].
  destruct (sortSkillsByPriority_stable unsortedFragment H H') as (_ & _ & Hfilter & _).
  rewrite Hfilter. reflexivity.
Defined.

(** ** Validation of the merged rules *)

Lemma getField_setField_any {A} k' k (v : A) (m : list (string * A)) :
  getField k' (setField k v m) =
  if String.eqb k' k then Some v else getField k' m.
Proof.
  induction m as [|[j w] m IH]; simpl.
  - by destruct (String.eqb k' k).
  - destruct (String.eqb_spec k j) as [->|Hkj]; simpl.
    + by destruct (String.eqb_spec k' j).
    + rewrite IH. destruct (String.eqb_spec k' j) as [->|]; [|done].
      destruct (String.eqb_spec j k) as [->|]; done.
Qed.

Lemma keys_setField_any {A} k (v : A) (m : list (string * A)) :
  (setField k v m).*1 = setAdd m.*1 k.
Proof.
  unfold setAdd. induction m as [|[j w] m IH]; [done|].
  cbn [setField]. rewrite !fmap_cons. cbn [fst existsb].
  destruct (String.eqb_spec k j) as [->|Hkj]; [done|].
  rewrite fmap_cons, IH. cbn [fst orb].
  by destruct (existsb (String.eqb k) m.*1).
Qed.

Lemma skillsByEnforcement_fold k l (groups : list (string * list string)) :
  default [] (getField k
    (fold_left
       (fun groups '(skillName, skillRule) =>
          let key := groupKey skillRule in
          let groups :=
            match getField key groups with
            | Some _ => groups
            | None => setField key [] groups
            end in
          setField key (default [] (getField key groups) ++ [skillName]) groups)
       l groups)) =
  default [] (getField k groups) ++
  (filter (fun e => groupKey e.2 = k) l).*1.
Proof.
  revert groups. induction l as [|[n r] l IH]; intros groups.
  - simpl. by rewrite app_nil_r.
  - cbn [fold_left]. rewrite IH. cbn zeta. rewrite getField_setField_any.
    rewrite filter_cons. cbn [snd].
    destruct (String.eqb_spec k (groupKey r)) as [->|Hne].
    + rewrite decide_True by done. cbn [default from_option id]. rewrite fmap_cons.
      cbn [fst]. rewrite <- app_assoc. f_equal.
      destruct (getField (groupKey r) groups) as [g|] eqn:Hg; [by rewrite Hg|].
      by rewrite getField_setField_any, String.eqb_refl.
    + rewrite decide_False by done. f_equal.
      destruct (getField (groupKey r) groups) as [g|] eqn:Hg; [done|].
      rewrite getField_setField_any.
      by destruct (String.eqb_spec k (groupKey r)).
Qed.

Lemma groupKey_blocking r :
  groupKey r = "block:guardrail" <-> isBlockingGuardrail r = true.
Proof.
  unfold groupKey, isBlockingGuardrail.
  destruct (enforcement r) as [[]|], (type r) as [[]|]; simpl; split; done.
Qed.

Lemma triggerWarnings_fold l (warnings : list string) :
  fold_left
    (fun warnings '(skillName, skillRule) =>
       if negb (hasPromptTriggers skillRule) && negb (hasFileTriggers skillRule)
       then warnings ++ [triggersWarning skillName] else warnings)
    l warnings =
  warnings ++
  map triggersWarning
    (filter (fun e => negb (hasPromptTriggers e.2) && negb (hasFileTriggers e.2)) l).*1.
Proof.
  revert warnings. induction l as [|[n r] l IH]; intros warnings; simpl.
  - by rewrite app_nil_r.
  - rewrite IH, filter_cons. cbn [snd].
    destruct (negb (hasPromptTriggers r) && negb (hasFileTriggers r)); simpl;
      [by rewrite <- app_assoc|done].
Qed.

(** X15.  [validateMergedSkillRules] warns once when more than one skill
    is a blocking guardrail, naming them in their order, and once for
    every skill that has no keyword, intent pattern, path pattern or
    content pattern; path exclusions do not count as a trigger.  The
    fragment is valid exactly when there is at most one blocking guardrail
    and every skill has a trigger. *)
Theorem validateMergedSkillRules_spec (fragment : SkillRulesFragment) :
  let blocking :=
    (filter (fun e => isBlockingGuardrail e.2) (skills fragment)).*1 in
  let silent :=
    (filter (fun e => negb (hasPromptTriggers e.2) && negb (hasFileTriggers e.2))
       (skills fragment)).*1 in
  (validateMergedSkillRules fragment).2 =
    (if (1 <? length blocking)%nat then [guardrailsWarning blocking] else []) ++
    map triggersWarning silent /\
  ((validateMergedSkillRules fragment).1 = true <->
   length blocking <= 1 /\
   forall name rule, (name, rule) ∈ skills fragment ->
     hasPromptTriggers rule || hasFileTriggers rule = true) /\
  (forall rule exclusions,
     promptTriggers rule = None ->
     fileTriggers rule = Some {| pathPatterns := None;
                                 pathExclusions := Some exclusions;
                                 contentPatterns := None |} ->
     hasPromptTriggers rule || hasFileTriggers rule = false).
Proof.
  intros blocking silent.
  assert (Hblocking :
    default [] (getField "block:guardrail" (skillsByEnforcement fragment)) = blocking).
  { unfold skillsByEnforcement. rewrite skillsByEnforcement_fold. simpl.
    unfold blocking. f_equal. apply list_filter_iff. intros [n r]. simpl.
    rewrite groupKey_blocking. by destruct (isBlockingGuardrail r). }
  assert (Hwarnings : (validateMergedSkillRules fragment).2 =
    (if (1 <? length blocking)%nat then [guardrailsWarning blocking] else []) ++
    map triggersWarning silent).
  { unfold validateMergedSkillRules. cbn [snd]. rewrite Hblocking.
    by rewrite triggerWarnings_fold. }
  split_and!; [done| |].
  - transitivity ((validateMergedSkillRules fragment).2 = []).
    { unfold validateMergedSkillRules. cbn [fst snd].
      rewrite bool_decide_eq_true. by destruct (fold_left _ _ _). }
    rewrite Hwarnings. split.
    + intros [H1 H2]%app_eq_nil. split.
      * destruct (Nat.ltb_spec 1 (length blocking)); [done|lia].
      * intros name rule Hin.
        destruct (hasPromptTriggers rule || hasFileTriggers rule) eqn:Ht; [done|].
        apply orb_false_elim in Ht as [Hp Hf].
        assert (Hs : name ∈ silent).
        { unfold silent. apply list_elem_of_fmap. exists (name, rule).
          split; [done|]. apply list_elem_of_filter. split; [|done].
          simpl. by rewrite Hp, Hf. }
        destruct silent; [by apply elem_of_nil in Hs|done].
    + intros [H1 H2].
      destruct (Nat.ltb_spec 1 (length blocking)); [lia|]. simpl.
      assert (silent = []) as ->; [|done].
      unfold silent. rewrite filter_none; [done|].
      intros [n r] Hin. simpl. specialize (H2 n r Hin).
      apply orb_true_iff in H2 as [->| ->]; simpl; [by intros []|].
      rewrite andb_false_r. by intros [].
  - intros rule exclusions Hp Hf. unfold hasPromptTriggers, hasFileTriggers.
    by rewrite Hp, Hf.
Qed.

Lemma hasLength_mergeArrays a b :
  hasLength (mergeArrays a b) = hasLength a || hasLength b.
Proof.
  destruct a as [[|x l]|], b as [[|y k]|]; try done.
Qed.

(** X16.  Merging never loses a trigger: a merged rule has prompt triggers
    exactly when one of the two rules has, and file triggers exactly when
    one of the two has; so a merged rule is reported as never activating
    only when both rules would be. *)
Theorem mergeSkillRules_keeps_triggers (existing incoming : SkillRule) :
  hasPromptTriggers (mergeSkillRules existing incoming) =
    hasPromptTriggers existing || hasPromptTriggers incoming /\
  hasFileTriggers (mergeSkillRules existing incoming) =
    hasFileTriggers existing || hasFileTriggers incoming.
Proof.
  unfold hasPromptTriggers, hasFileTriggers.
  fold (keywordsOf (mergeSkillRules existing incoming))
       (intentPatternsOf (mergeSkillRules existing incoming))
       (pathPatternsOf (mergeSkillRules existing incoming))
       (contentPatternsOf (mergeSkillRules existing incoming))
       (keywordsOf existing) (intentPatternsOf existing)
       (pathPatternsOf existing) (contentPatternsOf existing)
       (keywordsOf incoming) (intentPatternsOf incoming)
       (pathPatternsOf incoming) (contentPatternsOf incoming).
  rewrite keywordsOf_merge, intentPatternsOf_merge, pathPatternsOf_merge,
    contentPatternsOf_merge, !hasLength_mergeArrays.
  split.
  - destruct (hasLength (keywordsOf existing)), (hasLength (keywordsOf incoming)),
      (hasLength (intentPatternsOf existing)); done.
  - destruct (hasLength (pathPatternsOf existing)), (hasLength (pathPatternsOf incoming)),
      (hasLength (contentPatternsOf existing)); done.
Qed.

Lemma validateMergedSkillRules_spec_witness :
  hasPromptTriggers
    {| type := Some guardrail; enforcement := Some block; priority := None;
       promptTriggers := None;
       fileTriggers := Some {| pathPatterns := None;
                               pathExclusions := Some ["dist/**"];
                               contentPatterns := None |} |} ||
  hasFileTriggers
    {| type := Some guardrail; enforcement := Some block; priority := None;
       promptTriggers := None;
       fileTriggers := Some {| pathPatterns := None;
                               pathExclusions := Some ["dist/**"];
                               contentPatterns := None |} |} = false.
Proof.
  destruct (validateMergedSkillRules_spec unsortedFragment) as (_ & _ & H).
  apply (H _ ["dist/**"]); reflexivity.
Defined.

(** ** The merge of fragments, skill by skill *)

Lemma mergeSkillRulesFragments_flat fragments context :
  let processed fragment :=
    match context with
    | Some c => replaceVariablesInFragment c fragment
    | None => fragment
    end in
  skills (mergeSkillRulesFragments fragments context) =
  fold_left
    (fun merged '(skillName, skillRule) =>
       match getField skillName merged with
       | Some existing =>
           setField skillName (mergeSkillRules existing skillRule) merged
       | None => setField skillName skillRule merged
       end)
    (flat_map (fun fragment => skills (processed fragment)) fragments) [].
Proof.
  intros processed. unfold mergeSkillRulesFragments. cbn [skills].
  generalize (@nil (string * SkillRule)) as acc.
  induction fragments as [|f fs IH]; intros acc; [done|].
  cbn [fold_left flat_map]. rewrite fold_left_app. apply IH.
Qed.

Lemma mergeStep_keys l (acc : list (string * SkillRule)) :
  (fold_left
     (fun merged '(skillName, skillRule) =>
        match getField skillName merged with
        | Some existing =>
            setField skillName (mergeSkillRules existing skillRule) merged
        | None => setField skillName skillRule merged
        end) l acc).*1 =
  fold_left setAdd l.*1 acc.*1.
Proof.
  revert acc. induction l as [|[n r] l IH]; intros acc; [done|].
  cbn [fold_left]. rewrite IH, fmap_cons. cbn [fold_left fst]. f_equal.
  destruct (getField n acc); apply keys_setField_any.
Qed.

Lemma mergeStep_getField name l (acc : list (string * SkillRule)) :
  getField name
    (fold_left
       (fun merged '(skillName, skillRule) =>
          match getField skillName merged with
          | Some existing =>
              setField skillName (mergeSkillRules existing skillRule) merged
          | None => setField skillName skillRule merged
          end) l acc) =
  fold_left
    (fun found rule =>
       Some match found with
            | Some existing => mergeSkillRules existing rule
            | None => rule
            end)
    (filter (fun e => e.1 = name) l).*2 (getField name acc).
Proof.
  revert acc. induction l as [|[n r] l IH]; intros acc; [done|].
  cbn [fold_left]. rewrite IH, filter_cons. cbn [fst].
  destruct (decide (n = name)) as [->|Hne].
  - rewrite fmap_cons. cbn [fold_left snd]. f_equal.
    destruct (getField name acc); by rewrite getField_setField_any, String.eqb_refl.
  - f_equal. destruct (getField n acc); rewrite getField_setField_any;
      by destruct (String.eqb_spec name n).
Qed.

(** X17.  When no skill of the fragments is named as a property of
    [Object.prototype] or with digits only, [mergeSkillRulesFragments]
    lists every skill once, in the order in which the skills are first met
    across the fragments, and the rule
    of a skill is the merge, from left to right, of the rules that the
    fragments give for it; a skill that one fragment alone defines keeps
    the rule it has there.  With a context the fragments are first
    processed by the template engine. *)
Theorem mergeSkillRulesFragments_by_skill
    (fragments : list SkillRulesFragment) (context : option TemplateContext) :
  Forall (fun fragment =>
            Forall (fun name => plainKey name = true) (skills fragment).*1)
    fragments ->
  let processed fragment :=
    match context with
    | Some c => replaceVariablesInFragment c fragment
    | None => fragment
    end in
  let entries := flat_map (fun fragment => skills (processed fragment)) fragments in
  let merged := skills (mergeSkillRulesFragments fragments context) in
  merged.*1 = arrayFromSet String.eqb entries.*1 /\
  NoDup merged.*1 /\
  (forall name,
     getField name merged =
     fold_left
       (fun found rule =>
          Some match found with
               | Some existing => mergeSkillRules existing rule
               | None => rule
               end)
       (filter (fun e => e.1 = name) entries).*2 None) /\
  (forall name rule,
     filter (fun e => e.1 = name) entries = [(name, rule)] ->
     getField name merged = Some rule).
Proof.
  intros _ processed entries merged.
  assert (Hflat := mergeSkillRulesFragments_flat fragments context).
  cbn zeta in Hflat. fold processed entries merged in Hflat.
  assert (Hkeys : merged.*1 = arrayFromSet String.eqb entries.*1).
  { rewrite Hflat, mergeStep_keys, fold_setAdd. simpl.
    apply filter_all. intros x _. apply not_elem_of_nil. }
  assert (Hget : forall name,
     getField name merged =
     fold_left
       (fun found rule =>
          Some match found with
               | Some existing => mergeSkillRules existing rule
               | None => rule
               end)
       (filter (fun e => e.1 = name) entries).*2 None).
  { intros name. by rewrite Hflat, mergeStep_getField. }
  split_and!; [done| |done|].
  - rewrite Hkeys. apply NoDup_arrayFromSet_string.
  - intros name rule Hone. by rewrite Hget, Hone.
Qed.

Lemma mergeSkillRulesFragments_by_skill_witness :
  getField "style"
    (skills (mergeSkillRulesFragments [scenarioFirst; unsortedFragment; scenarioSecond] None))
  = Some (ruleOf (Some low) ["s"]).
Proof.
  assert (Hplain : Forall (fun fragment =>
                      Forall (fun name => plainKey name = true)
                        (skills fragment).*1)
                    [scenarioFirst; unsortedFragment; scenarioSecond])
    by (by repeat constructor).
  destruct (mergeSkillRulesFragments_by_skill
              [scenarioFirst; unsortedFragment; scenarioSecond] None Hplain)
    as (_ & _ & _ & H).
  apply H. reflexivity.
Defined.

(** * Settings: further properties of the deep merge *)

Lemma sameValueZero_props :
  (forall x, sameValueZero x x = true) /\
  (forall x y, sameValueZero x y = sameValueZero y x) /\
  (forall x y z, sameValueZero x y = true -> sameValueZero y z = true ->
                 sameValueZero x z = true).
Proof.
  split_and!;
    [apply sameValueZero_refl|apply sameValueZero_sym|apply sameValueZero_trans].
Qed.

Lemma mergeSettings_wellFormed base overrides :
  wellFormed (VObj base) = true ->
  Forall (fun override => wellFormed override = true) overrides ->
  wellFormed (mergeSettings base overrides) = true.
Proof.
  unfold mergeSettings. generalize (VObj base) as merged.
  induction overrides as [|o os IH]; intros merged Hm; [done|].
  intros [Ho Hos]%Forall_cons. simpl. apply IH; [|done].
  by apply deepMerge_wellFormed.
Qed.

(** X19.  The deep merge of two objects, key by key, when no key is
    written with digits only and no key of the source is a name of
    [Object.prototype]: the keys of the target come first, in their order, then the new keys of the source in
    theirs; a key that the source does not have keeps the value of the
    target; a scalar of the source replaces whatever the target has; an
    array of the source is merged with an array of the target and replaces
    a target value of another kind. *)
Theorem deepMerge_by_key (t s : list (string * value)) :
  NoDup (keys s) ->
  noInheritedKeys (VObj s) = true ->
  noIndexKeys (VObj t) = true -> noIndexKeys (VObj s) = true ->
  exists merged,
    deepMerge (VObj t) (VObj s) = VObj merged /\
    keys merged = keys t ++ filter (fun k => k ∉ keys t) (keys s) /\
    (forall k, getField k s = None -> getField k merged = getField k t) /\
    (forall k c, getField k s = Some (VScalar c) ->
                 getField k merged = Some (VScalar c)) /\
    (forall k l l', getField k s = Some (VArr l) -> getField k t = Some (VArr l') ->
       getField k merged = Some (VArr (arrayFromSet sameValueZero (l' ++ l)))) /\
    (forall k l, getField k s = Some (VArr l) -> getField k t = None ->
       getField k merged = Some (VArr (arrayFromSet sameValueZero l))) /\
    (forall k l f, getField k s = Some (VArr l) -> getField k t = Some (VObj f) ->
       getField k merged = Some (VArr l)) /\
    (forall k f f', getField k s = Some (VObj f) -> getField k t = Some (VObj f') ->
       getField k merged = Some (deepMerge (VObj f') (VObj f))).
Proof.
  intros Hs _ _ _. exists (mergeFields s t). split; [apply deepMerge_obj|].
  split; [by apply keys_mergeFields|].
  split_and!; intros k; intros; rewrite getField_mergeFields by done;
    repeat match goal with H : getField _ _ = _ |- _ => rewrite H; clear H end;
    done.
Qed.

Lemma deepMerge_by_key_witness :
  exists merged,
    deepMerge (VObj [("k", VObj []); ("a", VScalar (SNum 1))])
              (VObj [("b", VScalar SNull); ("k", VArr [EScalar (SNum 2)])])
      = VObj merged /\
    keys merged = ["k"; "a"; "b"] /\
    getField "k" merged = Some (VArr [EScalar (SNum 2)]).
Proof.
  assert (Hs : NoDup (keys [("b", VScalar SNull); ("k", VArr [EScalar (SNum 2)])])).
  { apply (bool_decide_unpack _). vm_compute. reflexivity. }
  destruct (deepMerge_by_key [("k", VObj []); ("a", VScalar (SNum 1))] _ Hs
              eq_refl eq_refl eq_refl)
    as (merged & Heq & Hkeys & _ & _ & _ & _ & Hkind & _).
  exists merged. split; [exact Heq|]. split.
  - rewrite Hkeys. vm_compute. reflexivity.
  - apply (Hkind "k" _ []); reflexivity.
Defined.

(** X20.  Merging two arrays that hold no element twice keeps the target
    as it is and appends, in their order, the elements of the source that
    the target does not have. *)
Theorem deepMerge_arrays_append (t s : list element) :
  distinct sameValueZero t = true -> distinct sameValueZero s = true ->
  deepMerge (VArr t) (VArr s) =
  VArr (t ++ filter (fun y => notIn sameValueZero t y) s).
Proof.
  destruct sameValueZero_props as (Hr & Hsym & Htr).
  intros Ht Hs. rewrite deepMerge_arr. f_equal.
  rewrite arrayFromSet_app by done.
  by rewrite !arrayFromSet_distinct by done.
Qed.

Lemma deepMerge_arrays_append_witness :
  deepMerge (VArr [EScalar (SStr "Read"); hookEntry 1 "stop.sh"])
            (VArr [hookEntry 2 "stop.sh"; EScalar (SStr "Read"); hookEntry 1 "stop.sh"])
  = VArr [EScalar (SStr "Read"); hookEntry 1 "stop.sh"; hookEntry 2 "stop.sh"].
Proof.
  rewrite deepMerge_arrays_append by reflexivity. reflexivity.
Defined.

Lemma deepMerge_empty_l_gen n : forall fields,
  vsize (VObj fields) < n ->
  wellFormed (VObj fields) = true -> distinctArrays (VObj fields) = true ->
  deepMerge (VObj []) (VObj fields) = VObj fields.
Proof.
  destruct sameValueZero_props as (Hr & Hsym & Htr).
  induction n as [|n IH]; intros fields Hsize; [lia|].
  intros [Hk Hv]%wellFormed_obj Hd. rewrite distinctArrays_obj in Hd.
  rewrite deepMerge_obj. f_equal. apply fields_ext.
  - by apply mergeFields_NoDup; [|constructor].
  - rewrite keys_mergeFields by done. simpl.
    apply filter_all. intros x _. apply not_elem_of_nil.
  - intros k. rewrite getField_mergeFields by done. simpl.
    destruct (getField k fields) as [sv|] eqn:Hget; [|done]. f_equal.
    apply getField_Some_elem in Hget.
    destruct sv as [c|l|f]; [done| |].
    + rewrite fieldMerge_arr, orElse_None, deepMerge_arr. simpl. f_equal.
      apply arrayFromSet_distinct; [done|]. apply (Hd _ _ Hget).
    + rewrite fieldMerge_obj, orElse_None. apply IH.
      * apply vsize_field in Hget. lia.
      * by eapply Hv.
      * by eapply Hd.
Qed.

(** X21.  The empty object is neutral for the deep merge: merging it into
    settings changes nothing, and merging settings into it gives the
    settings back when no object of theirs lists a key twice or has a key
    that is a name of [Object.prototype], and no array of theirs holds an
    element twice.  [mergeSettings] without overrides
    returns the base. *)
Theorem deepMerge_empty_object (fields : list (string * value)) :
  wellFormed (VObj fields) = true -> distinctArrays (VObj fields) = true ->
  noInheritedKeys (VObj fields) = true ->
  deepMerge (VObj fields) (VObj []) = VObj fields /\
  deepMerge (VObj []) (VObj fields) = VObj fields /\
  mergeSettings fields [] = VObj fields /\
  mergeSettings [] [VObj fields] = VObj fields.
Proof.
  intros Hw Hd _.
  assert (H : deepMerge (VObj []) (VObj fields) = VObj fields)
    by (by apply (deepMerge_empty_l_gen (S (vsize (VObj fields)))); [lia|..]).
  split_and!; [done|exact H|done|exact H].
Qed.

Lemma deepMerge_empty_object_witness :
  deepMerge (VObj []) settingsBase = settingsBase.
Proof.
  apply (deepMerge_empty_object
           [("permissions", VObj [("allow", VArr [EScalar (SStr "Read")])]);
            ("hooks", VObj [("Stop", VArr [hookEntry 1 "stop.sh"])])]);
    reflexivity.
Defined.





(** * Plugin manager: further properties *)

Section ResolutionMore.
Variable pluginsDir : PluginsDir.

Lemma checkCircularDependencies_cycleFree cf n :
  allValid pluginsDir -> size (dom pluginsDir) < cf ->
  cycleFree pluginsDir n ->
  exists r,
    checkCircularDependencies pluginsDir cf n ∅ = Return (r, ∅) /\
    truthy r = false.
Proof.
  intros Hvalid Hcf Hfree.
  destruct (checkCircularDependencies_total pluginsDir cf Hvalid n ∅)
    as (r & V' & Hrun).
  { eapply Nat.le_lt_trans; [|done]. apply subseteq_size. set_solver. }
  destruct (truthy r) eqn:Hr.
  - destruct r as [c|]; [|done].
    apply checkCircularDependencies_sound in Hrun as [Hcyc Hreach];
      [|by intros s ?%elem_of_empty].
    by destruct (Hfree c Hreach).
  - exists r. split; [|done].
    by rewrite Hrun, (checkCircularDependencies_restores _ _ _ _ _ _ Hrun Hr).
Qed.

Lemma visitAll_visited cf fuel ns order (V : gset string) :
  (forall n, n ∈ ns -> n ∈ V) ->
  visitAll pluginsDir cf (S fuel) ns (order, V) = Return (order, V).
Proof.
  induction ns as [|n ns IH]; intros Hin; [done|].
  rewrite visitAll_cons, visit_S.
  rewrite decide_True by (apply Hin, elem_of_cons; by left). simpl.
  apply IH. intros m Hm. apply Hin, elem_of_cons. by right.
Qed.

(** A plugin whose dependencies are all marked is pushed at once. *)
Lemma visit_ready cf fuel p order (V : gset string) :
  allValid pluginsDir -> size (dom pluginsDir) < cf ->
  cycleFree pluginsDir p -> p ∉ V ->
  (forall d, d ∈ depsOf pluginsDir p -> d ∈ V) ->
  visit pluginsDir cf (S (S fuel)) p (order, V) =
  Return (order ++ [p], V ∪ {[p]}).
Proof.
  intros Hvalid Hcf Hfree Hp Hdeps. rewrite visit_S, decide_False by done.
  destruct (checkCircularDependencies_cycleFree cf p Hvalid Hcf Hfree)
    as (r & -> & Hr).
  simpl. rewrite Hr, getPluginDependencies_valid by done. simpl.
  rewrite visitAll_visited; [done|].
  intros d Hd. apply elem_of_union. left. by apply Hdeps.
Qed.

Lemma visitAll_sorted cf fuel l2 : forall l1,
  allValid pluginsDir -> size (dom pluginsDir) < cf ->
  sorted pluginsDir (l1 ++ l2) ->
  (forall p, p ∈ l2 -> cycleFree pluginsDir p) ->
  visitAll pluginsDir cf (S (S fuel)) l2 (l1, list_to_set l1) =
  Return (l1 ++ l2, list_to_set (l1 ++ l2)).
Proof.
  induction l2 as [|p l2 IH]; intros l1 Hvalid Hcf Hsorted Hfree.
  { by rewrite app_nil_r. }
  pose proof Hsorted as [Hnd Hbefore].
  rewrite visitAll_cons, visit_ready; [|done|done|..].
  - simpl. replace (list_to_set l1 ∪ {[p]} : gset string)
      with (list_to_set (l1 ++ [p]) : gset string)
      by (rewrite list_to_set_app_L; set_solver).
    rewrite IH; [by rewrite <- app_assoc|done|done|by rewrite <- app_assoc|].
    intros q Hq. apply Hfree, elem_of_cons. by right.
  - apply Hfree, elem_of_cons. by left.
  - rewrite elem_of_list_to_set. intros Hin.
    apply NoDup_app in Hnd as (_ & Hdisj & _). apply (Hdisj p Hin).
    apply elem_of_cons. by left.
  - intros d Hd. apply elem_of_list_to_set.
    destruct (Hbefore p d) as (i & j & Hi & Hj & Hij); [|done|].
    { apply elem_of_app. right. apply elem_of_cons. by left. }
    assert (j = length l1) as ->.
    { eapply NoDup_lookup; [exact Hnd|exact Hj|].
      by rewrite lookup_app_r, Nat.sub_diag by lia. }
    rewrite lookup_app_l in Hi by done. by eapply list_elem_of_lookup_2.
Qed.

(** X23.  [checkCircularDependencies], called on a plugin with a fresh
    set, always returns; it returns no name exactly when no cycle of
    declared dependencies can be reached from the plugin, and then the
    set is empty again; a name that it returns lies on a cycle that the
    plugin reaches. *)
Theorem checkCircularDependencies_decides (pluginName : string) :
  allValid pluginsDir -> namedDeps pluginsDir ->
  exists circular visited,
    checkCircularDependencies pluginsDir (depthBound pluginsDir) pluginName ∅
      = Return (circular, visited) /\
    (circular = None <-> cycleFree pluginsDir pluginName) /\
    (circular = None -> visited = ∅) /\
    (forall c, circular = Some c ->
       tc (dependsOn pluginsDir) c c /\ rtc (dependsOn pluginsDir) pluginName c).
Proof.
  intros Hvalid Hnamed.
  destruct (checkCircularDependencies_total pluginsDir (depthBound pluginsDir)
              Hvalid pluginName ∅) as (r & V' & Hrun).
  { eapply Nat.le_lt_trans; [|apply depthBound_dom].
    apply subseteq_size. set_solver. }
  assert (Hsound : forall c, r = Some c ->
            tc (dependsOn pluginsDir) c c /\
            rtc (dependsOn pluginsDir) pluginName c).
  { intros c ->. eapply checkCircularDependencies_sound; [|done].
    by intros s ?%elem_of_empty. }
  exists r, V'. split_and!; [done| | |done].
  - split.
    + intros ->.
      eapply checkCircularDependencies_complete in Hrun as [_ Hfree]; try done.
      right. apply not_elem_of_empty.
    + intros Hfree. destruct r as [c|]; [|done].
      destruct (Hsound c eq_refl) as [Hcyc Hreach].
      by destruct (Hfree c Hreach).
  - intros ->. by eapply checkCircularDependencies_restores.
Qed.

(** X24.  An order that [getInstallationOrder] returns is a fixed point:
    requesting the plugins of the order, in that order, returns the same
    order. *)
Theorem getInstallationOrder_fixed_point (names order : list string) :
  allValid pluginsDir -> namedDeps pluginsDir ->
  getInstallationOrder pluginsDir names = Return order ->
  getInstallationOrder pluginsDir order = Return order.
Proof.
  intros Hvalid Hnamed Hrun.
  assert (Hfree : forall r, r ∈ names -> cycleFree pluginsDir r).
  { intros r Hr c Hreach Hcyc.
    destruct (resolution_cyclic pluginsDir names Hvalid Hnamed)
      as (r' & c' & Hthrow & _); [by exists r, c|].
    by rewrite Hthrow in Hrun. }
  destruct (resolution_cycleFree pluginsDir names Hvalid Hfree)
    as (order' & Hrun' & Hsorted & Hmem & _).
  rewrite Hrun in Hrun'. injection Hrun' as <-.
  unfold getInstallationOrder, depthBound.
  rewrite (visitAll_sorted _ _ order []); [done|done| |done|].
  - rewrite size_dom. lia.
  - intros p (r & Hr & Hreach)%Hmem.
    eapply cycleFree_rtc; [by apply Hfree|done].
Qed.
End ResolutionMore.

Lemma checkCircularDependencies_decides_witness :
  exists circular visited,
    checkCircularDependencies dirCycle (depthBound dirCycle) "a" ∅
      = Return (circular, visited) /\
    (circular = None <-> cycleFree dirCycle "a") /\
    (circular = None -> visited = ∅) /\
    (forall c, circular = Some c ->
       tc (dependsOn dirCycle) c c /\ rtc (dependsOn dirCycle) "a" c).
Proof.
  apply (checkCircularDependencies_decides dirCycle "a").
  - apply (bool_decide_unpack _). by vm_compute.
  - apply (bool_decide_unpack _). by vm_compute.
Defined.

Lemma getInstallationOrder_fixed_point_witness :
  getInstallationOrder dirShared ["b"; "c"; "a"] = Return ["b"; "c"; "a"].
Proof.
  apply (getInstallationOrder_fixed_point dirShared ["c"; "a"; "b"]).
  - apply (bool_decide_unpack _). by vm_compute.
  - apply (bool_decide_unpack _). by vm_compute.
  - by vm_compute.
Defined.

(** * Installer: further properties *)

Section InstallerMore.
Variable extname : string -> string.
Variable decode : list Byte.byte -> text.
Variable encode : text -> list Byte.byte.
Variable pathJoin : string -> string -> string.
Variable pathExists : FileSystem -> string -> bool.
Variable glob : FileSystem -> string -> list string.

(** What one copy can do to the files. *)
Lemma copyFile_Return fs src dest context options fs' :
  copyFile extname decode encode fs src dest context options = Return fs' ->
  (fs' = fs /\ (dryRun options = true \/ is_Some (fs !! dest))) \/
  (dryRun options = false /\ (force options = true \/ fs !! dest = None) /\
   exists bytes, fs' = <[dest := bytes]> fs).
Proof.
  unfold copyFile.
  destruct (bool_decide (is_Some (fs !! dest))) eqn:Hdest; simpl.
  - pose proof Hdest as Hex%bool_decide_eq_true.
    destruct (force options) eqn:Hforce; simpl; [|intros [= <-]; left; eauto].
    destruct (dryRun options); [intros [= <-]; left; eauto|].
    destruct (fs !! src) as [bytes|]; [|done]. intros [= <-]. right.
    split_and!; [done|by left|by eexists].
  - destruct (dryRun options); [intros [= <-]; left; eauto|].
    destruct (fs !! src) as [bytes|]; [|done]. intros [= <-]. right.
    apply bool_decide_eq_false in Hdest.
    split_and!; [done| |by eexists]. right.
    destruct (fs !! dest) eqn:E; [|done]. destruct Hdest. by eexists.
Qed.

Lemma copyFile_skip fs src dest context options :
  force options = false ->
  dryRun options = true \/ is_Some (fs !! dest) ->
  copyFile extname decode encode fs src dest context options = Return fs.
Proof.
  intros Hforce Hskip. unfold copyFile. rewrite Hforce. simpl.
  rewrite andb_true_r.
  destruct (bool_decide (is_Some (fs !! dest))) eqn:Hdest; [done|].
  destruct Hskip as [->|Hex]; [done|].
  by apply bool_decide_eq_false in Hdest.
Qed.

Lemma copyFiles_cons file files fs src dest context options :
  copyFiles extname decode encode pathJoin (file :: files) fs src dest context options =
  copyFile extname decode encode fs (pathJoin src file) (pathJoin dest file) context options ≫=
    fun fs' => copyFiles extname decode encode pathJoin files fs' src dest context options.
Proof. reflexivity. Qed.

Lemma copyFiles_frame files : forall fs src dest context options fs',
  copyFiles extname decode encode pathJoin files fs src dest context options = Return fs' ->
  (forall p, is_Some (fs !! p) -> is_Some (fs' !! p)) /\
  (force options = false ->
   forall p, is_Some (fs !! p) -> fs' !! p = fs !! p) /\
  (forall p, (forall file, file ∈ files -> p <> pathJoin dest file) ->
             fs' !! p = fs !! p) /\
  (dryRun options = true -> fs' = fs) /\
  (dryRun options = false ->
   forall file, file ∈ files -> is_Some (fs' !! pathJoin dest file)).
Proof.
  induction files as [|file files IH]; intros fs src dest context options fs'.
  { intros [= <-]. split_and!; try done. by intros _ ? ?%elem_of_nil. }
  rewrite copyFiles_cons.
  intros (fs1 & Hcopy & Hrest)%outcome_bind_Return.
  destruct (IH _ _ _ _ _ _ Hrest) as (Hkeep & Hsame & Hother & Hdry & Hdone).
  apply copyFile_Return in Hcopy.
  split_and!.
  - intros p Hp. apply Hkeep.
    destruct Hcopy as [[-> _]|(_ & _ & bytes & ->)]; [done|].
    destruct (decide (p = pathJoin dest file)) as [->|Hne].
    + rewrite lookup_insert_eq. by eexists.
    + by rewrite lookup_insert_ne.
  - intros Hforce p Hp.
    destruct Hcopy as [[-> _]|(_ & [Hf|Hnone] & bytes & ->)]; [by apply Hsame| |].
    + by rewrite Hforce in Hf.
    + assert (p <> pathJoin dest file) as Hne.
      { intros ->. rewrite Hnone in Hp. by destruct Hp. }
      rewrite Hsame; [|done|]; by rewrite lookup_insert_ne.
  - intros p Hp. rewrite Hother.
    + destruct Hcopy as [[-> _]|(_ & _ & bytes & ->)]; [done|].
      rewrite lookup_insert_ne; [done|]. intros Heq. apply (Hp file); [|done].
      apply elem_of_cons. by left.
    + intros f Hf. apply Hp. apply elem_of_cons. by right.
  - intros Hd. rewrite (Hdry Hd).
    destruct Hcopy as [[-> _]|(Hd' & _)]; [done|]. by rewrite Hd in Hd'.
  - intros Hd f [->|Hf]%elem_of_cons; [|by apply Hdone].
    apply Hkeep.
    destruct Hcopy as [[-> [Hd'|Hex]]|(_ & _ & bytes & ->)].
    + by rewrite Hd in Hd'.
    + done.
    + rewrite lookup_insert_eq. by eexists.
Qed.

Lemma copyFiles_skip files : forall fs src dest context options,
  force options = false ->
  dryRun options = true \/
    (forall file, file ∈ files -> is_Some (fs !! pathJoin dest file)) ->
  copyFiles extname decode encode pathJoin files fs src dest context options = Return fs.
Proof.
  induction files as [|file files IH]; intros fs src dest context options;
    [done|].
  intros Hforce Hskip. rewrite copyFiles_cons, copyFile_skip; [|done|].
  - simpl. apply IH; [done|]. destruct Hskip as [?|Hex]; [by left|right].
    intros f Hf. apply Hex, elem_of_cons. by right.
  - destruct Hskip as [?|Hex]; [by left|right].
    apply Hex, elem_of_cons. by left.
Qed.

(** X25.  [copyDirectory] never removes a file, and touches no path
    other than the destinations of the files it lists; without [force]
    every file that exists keeps its content; a dry run returns the file
    system as it is, whatever the directory holds. *)
Theorem copyDirectory_keeps_files (fs : FileSystem) (src dest : string)
    (context : TemplateContext) (options : InstallOptions) :
  (dryRun options = true ->
   copyDirectory extname decode encode pathJoin pathExists glob fs src dest context options = Return fs) /\
  (forall fs',
     copyDirectory extname decode encode pathJoin pathExists glob fs src dest context options = Return fs' ->
     (forall p, is_Some (fs !! p) -> is_Some (fs' !! p)) /\
     (force options = false ->
      forall p, is_Some (fs !! p) -> fs' !! p = fs !! p) /\
     (forall p, (forall file, file ∈ glob fs src -> p <> pathJoin dest file) ->
                fs' !! p = fs !! p)).
Proof.
  unfold copyDirectory. split.
  - intros Hdry. destruct (pathExists fs src); [|done]. simpl.
    generalize (glob fs src) as files. intros files. revert fs.
    induction files as [|file files IH]; intros fs; [done|].
    rewrite copyFiles_cons. unfold copyFile at 1. rewrite Hdry.
    destruct (_ && _); simpl; apply IH.
  - intros fs'. destruct (pathExists fs src); simpl; [|by intros [= <-]].
    intros Hrun. apply copyFiles_frame in Hrun. tauto.
Qed.

(** X26.  Without [force] a second run of [copyDirectory] changes
    nothing: when the first run returns and the source directory still
    lists the same files, running again returns the same file system. *)
Theorem copyDirectory_second_run (fs fs' : FileSystem) (src dest : string)
    (context : TemplateContext) (options : InstallOptions) :
  force options = false ->
  copyDirectory extname decode encode pathJoin pathExists glob fs src dest context options = Return fs' ->
  pathExists fs' src = pathExists fs src ->
  glob fs' src = glob fs src ->
  copyDirectory extname decode encode pathJoin pathExists glob fs' src dest context options = Return fs'.
Proof.
  unfold copyDirectory. intros Hforce Hrun -> ->.
  destruct (pathExists fs src); simpl in *; [|done].
  apply copyFiles_frame in Hrun as (_ & _ & _ & _ & Hdone).
  apply copyFiles_skip; [done|].
  destruct (dryRun options); [by left|right]. by apply Hdone.
Qed.
End InstallerMore.

Section GitignoreMore.
Variable decode : list Byte.byte -> text.
Variable encode : text -> list Byte.byte.
Variable pathJoin : string -> string -> string.
Variable projectRoot : string.


End GitignoreMore.


Lemma copyDirectory_keeps_files_witness :
  copyDirectory extensionOf asciiDecode asciiEncode slashJoin dirExists filesBelow
    sampleProject "core/hooks" ".claude/hooks" sampleContext
    {| force := true; dryRun := true; verbose := false |}
  = Return sampleProject.
Proof.
  destruct (copyDirectory_keeps_files extensionOf asciiDecode asciiEncode slashJoin
              dirExists filesBelow sampleProject "core/hooks" ".claude/hooks"
              sampleContext {| force := true; dryRun := true; verbose := false |})
    as [Hdry _].
  apply Hdry. reflexivity.
Defined.

Lemma copyDirectory_second_run_witness :
  copyDirectory extensionOf asciiDecode asciiEncode slashJoin dirExists filesBelow
    installedProject "core/hooks" ".claude/hooks" sampleContext
    {| force := false; dryRun := false; verbose := false |}
  = Return installedProject.
Proof.
  apply (copyDirectory_second_run extensionOf asciiDecode asciiEncode slashJoin
           dirExists filesBelow sampleProject installedProject).
  - reflexivity.
  - vm_compute. reflexivity.
  - vm_compute. reflexivity.
  - vm_compute. reflexivity.
Defined.


(** * Validator and detector: further properties *)

Section FragmentValidatorMore.
Variable validateSchema : SkillRulesFragment -> bool * option (list ErrorObject).
Variable compiles : string -> bool.

Lemma fold_compile (message : string -> string) patterns (acc : list string) :
  fold_left
    (fun additionalErrors pattern =>
       if compiles pattern then additionalErrors
       else additionalErrors ++ [message pattern])
    patterns acc =
  acc ++ map message (filter (fun pattern => compiles pattern = false) patterns).
Proof.
  revert acc. induction patterns as [|x l IH]; intros acc; simpl.
  - by rewrite app_nil_r.
  - rewrite IH, filter_cons. destruct (compiles x); simpl; [done|].
    by rewrite <- app_assoc.
Qed.

Lemma pushPatternErrors_length acc skillName skill :
  length (pushPatternErrors compiles acc skillName skill) =
  length acc +
  length (filter (fun pattern => compiles pattern = false) (regexPatterns skill)).
Proof.
  unfold pushPatternErrors, regexPatterns.
  destruct (promptTriggers skill ≫= intentPatterns) as [ps|],
           (fileTriggers skill ≫= contentPatterns) as [cs|]; simpl;
    rewrite ?fold_compile, ?filter_app, ?length_app, ?length_map, ?app_nil_r;
    simpl; lia.
Qed.

Lemma additionalErrors_length l acc :
  length (fold_left
            (fun additionalErrors '(skillName, skill) =>
               pushPatternErrors compiles additionalErrors skillName skill)
            l acc) =
  length acc +
  length (filter (fun pattern => compiles pattern = false)
            (flat_map (fun e => regexPatterns e.2) l)).
Proof.
  revert acc. induction l as [|[n r] l IH]; intros acc; simpl; [lia|].
  rewrite IH, pushPatternErrors_length, filter_app, length_app. lia.
Qed.

(** X28.  [validateSkillRulesFragment] works in two stages.  When the
    schema rejects the fragment, the result carries the formatted schema
    errors and no pattern is compiled.  Otherwise there is one error for
    every intent pattern and content pattern that does not compile, and
    the fragment is valid exactly when all of them compile; keywords,
    path patterns and path exclusions are never compiled. *)
Theorem validateSkillRulesFragment_two_stages (fragment : SkillRulesFragment) :
  let result := validateSkillRulesFragment validateSchema compiles fragment in
  let patterns := flat_map (fun e => regexPatterns e.2) (skills fragment) in
  (forall schemaErrors,
     validateSchema fragment = (false, Some schemaErrors) ->
     result = {| valid := false; errors := Some (formatErrors schemaErrors) |}) /\
  (fst (validateSchema fragment) = true \/ snd (validateSchema fragment) = None ->
   (valid result = true <-> forall pattern, pattern ∈ patterns ->
                                            compiles pattern = true) /\
   length (default [] (errors result)) =
     length (filter (fun pattern => compiles pattern = false) patterns)).
Proof.
  intros result patterns. subst result. unfold validateSkillRulesFragment.
  split.
  { by intros schemaErrors ->. }
  intros Hpass.
  assert (Hlen := additionalErrors_length (skills fragment) []).
  fold patterns in Hlen. simpl in Hlen.
  assert (Hall : length (filter (fun pattern => compiles pattern = false) patterns) = 0
                 <-> forall pattern, pattern ∈ patterns -> compiles pattern = true).
  { rewrite length_zero_iff_nil. split.
    - intros Hnil pattern Hin. destruct (compiles pattern) eqn:Hc; [done|].
      assert (pattern ∈ filter (fun pattern => compiles pattern = false) patterns)
        as Hf by (by apply list_elem_of_filter).
      rewrite Hnil in Hf. by apply elem_of_nil in Hf.
    - intros Hok. apply filter_none. intros x Hx. by rewrite (Hok x Hx). }
  destruct (validateSchema fragment) as [[|] [schemaErrors|]];
    simpl in Hpass; try (destruct Hpass; discriminate);
    (destruct (fold_left _ _ _) as [|e es] eqn:Hfold; simpl in *;
     [split; [rewrite <- Hall; split; [by intros _|done]|done]
     |split; [rewrite <- Hall, <- Hlen; split; [done|lia]|done]]).
Qed.
End FragmentValidatorMore.

Lemma validateSkillRulesFragment_two_stages_witness :
  valid (validateSkillRulesFragment acceptAll balanced regexFragment) = false /\
  length (default [] (errors (validateSkillRulesFragment acceptAll balanced regexFragment)))
  = 1.
Proof.
  destruct (validateSkillRulesFragment_two_stages acceptAll balanced regexFragment)
    as [_ H].
  destruct (H (or_introl eq_refl)) as [Hvalid Hlen].
  split; [|rewrite Hlen; reflexivity].
  destruct (valid _) eqn:Hv; [|done].
  assert (Hbad : balanced "(unclosed" = true); [|done].
  apply Hvalid; [done|]. vm_compute.
  apply elem_of_cons. right. apply elem_of_cons. by left.
Defined.

Lemma isLowerAlnum_hyphen c : isLowerAlnum c = true -> c <> "-"%char.
Proof. by intros H ->. Qed.

Lemma last_cons_ne {A} (x : A) l : l <> [] -> last (x :: l) = last l.
Proof. by destruct l. Qed.

Lemma isSlugFrom_spec w : forall afterWord,
  isSlugFrom afterWord w = true <->
  Forall (fun c => isLowerAlnum c = true \/ c = "-"%char) w /\
  (afterWord = false -> w <> [] /\ head w <> Some "-"%char) /\
  last w <> Some "-"%char /\
  (forall a b, w <> a ++ "-"%char :: "-"%char :: b).
Proof.
  induction w as [|c w IH]; intros afterWord.
  - simpl. split.
    + intros ->. split_and!; [constructor|done|done|by intros [|] ?].
    + intros (_ & H & _). destruct afterWord; [done|]. by destruct H.
  - cbn [isSlugFrom]. destruct (isLowerAlnum c) eqn:Hc.
    + pose proof (isLowerAlnum_hyphen c Hc) as Hne.
      rewrite IH. split.
      * intros (Hall & _ & Hlast & Hdouble). split_and!.
        -- constructor; [by left|done].
        -- intros _. split; [done|]. simpl. congruence.
        -- destruct w as [|d w]; [simpl; congruence|].
           by rewrite last_cons_ne.
        -- intros [|a0 a] b; simpl; [congruence|].
           intros [= _ Hw]. by apply (Hdouble a b).
      * intros (Hall%Forall_cons & _ & Hlast & Hdouble). split_and!.
        -- by destruct Hall.
        -- done.
        -- destruct w as [|d w]; [done|]. by rewrite last_cons_ne in Hlast.
        -- intros a b Hw. apply (Hdouble (c :: a) b). simpl. by rewrite Hw.
    + destruct (Ascii.eqb_spec c "-") as [->|Hne].
      * rewrite andb_true_iff, IH. split.
        -- intros (-> & Hall & Hhead & Hlast & Hdouble).
           destruct (Hhead eq_refl) as [Hw Hh]. split_and!.
           ++ constructor; [by right|done].
           ++ done.
           ++ by rewrite last_cons_ne.
           ++ intros [|a0 a] b; simpl.
              ** intros [= Hw']. rewrite Hw' in Hh. by destruct Hh.
              ** intros [= _ Hw']. by apply (Hdouble a b).
        -- intros (Hall%Forall_cons & Hhead & Hlast & Hdouble).
           destruct afterWord; [|by destruct (Hhead eq_refl) as [_ []]].
           split; [done|]. split_and!.
           ++ by destruct Hall.
           ++ intros _. split.
              ** intros ->. by destruct Hlast.
              ** destruct w as [|d w]; [done|]. simpl. intros [= ->].
                 by apply (Hdouble [] w).
           ++ destruct w as [|d w]; [by destruct Hlast|].
              by rewrite last_cons_ne in Hlast.
           ++ intros a b Hw. apply (Hdouble ("-"%char :: a) b). simpl.
              by rewrite Hw.
      * split; [done|]. intros (Hall%Forall_cons & _).
        destruct Hall as [[Hc'|Hc'] _]; congruence.
Qed.

(** X29.  [isValidPluginName] accepts exactly the names that are not
    empty, are made of lowercase letters, digits and hyphens, neither
    start nor end with a hyphen, and have no two hyphens in a row. *)
Theorem isValidPluginName_spec (pluginName : string) :
  let units := String.list_ascii_of_string pluginName in
  isValidPluginName pluginName = true <->
  units <> [] /\
  Forall (fun c => isLowerAlnum c = true \/ c = "-"%char) units /\
  head units <> Some "-"%char /\
  last units <> Some "-"%char /\
  (forall a b, units <> a ++ "-"%char :: "-"%char :: b).
Proof.
  intros units. unfold isValidPluginName. fold units.
  rewrite isSlugFrom_spec. split.
  - intros (Hall & Hhead & Hlast & Hdouble).
    destruct (Hhead eq_refl). by split_and!.
  - intros (Hne & Hall & Hhead & Hlast & Hdouble). by split_and!.
Qed.

Lemma isValidPluginName_spec_witness :
  isValidPluginName "react-mui" = true /\
  isValidPluginName "a--b" = false /\
  isValidPluginName "-a" = false.
Proof.
  split; [reflexivity|]. split.
  - destruct (isValidPluginName "a--b") eqn:H; [|done].
    apply isValidPluginName_spec in H as (_ & _ & _ & _ & Hdouble).
    by destruct (Hdouble ["a"%char] ["b"%char]).
  - destruct (isValidPluginName "-a") eqn:H; [|done].
    apply isValidPluginName_spec in H as (_ & _ & Hhead & _).
    by destruct Hhead.
Defined.

(** X30.  [getRecommendedPlugins] recommends no plugin twice, at most
    four plugins, and only names that [isValidPluginName] accepts; the
    sentry plugin is recommended exactly when the backend uses Sentry or
    the frontend uses MUI, and the prisma plugin exactly when the backend
    uses Prisma. *)
Theorem getRecommendedPlugins_spec (project : DetectedProject) :
  let plugins := getRecommendedPlugins project in
  NoDup plugins /\
  length plugins <= 4 /\
  Forall (fun pluginName => isValidPluginName pluginName = true) plugins /\
  ("sentry" ∈ plugins <->
   from_option Backend.hasSentry false (backend project) = true \/
   from_option Frontend.hasMUI false (frontend project) = true) /\
  ("prisma" ∈ plugins <->
   from_option Backend.hasPrisma false (backend project) = true).
Proof.
  destruct project as [[[[[]|] fd [] []]|] [[[[]|] bd [] []]|] root];
    cbv zeta; apply (bool_decide_unpack _); vm_compute; reflexivity.
Qed.
